(** * A shallow embedding of libsass' recursive-descent parser (src/parser.cpp)

    The development follows the layout of the C++ sources:

    - [Prelexer]: the lexer combinators and white-space matchers the parser
      instantiates its [lex]/[peek] templates with;
    - the AST node families the parser builds;
    - the [Parser] state and its primitive operations;
    - the expression parser ([parse_list] down to [parse_value]);
    - the statement parser ([parse_block_nodes], [parse_block_node], ...);
    - the look-ahead oracle and the byte-order-mark check;
    - a lexicon and externals on which the parser runs on concrete texts;
    - [Directives]: [@include], [@content], [@media], [@at-root] and
      [@supports] with the nodes they build;
    - the vocabulary of the properties and the properties themselves, one
      group per topic: division, [content-exists], lists of one element, map
      literals, [@else], [@import], [@charset], the look-ahead scans,
      byte-order marks, numbers, the value of a declaration, hexadecimal
      colours, operand folding, parameters and arguments, the messages and
      names of statements, the entry point, and what the parser functions
      keep: the scope stack, the block stack and the buffer they leave as
      they find them, and the shape of the blocks they return. *)

From Stdlib Require Import String Ascii List Bool Arith Lia.
Import ListNotations.
Open Scope string_scope.
Open Scope list_scope.

(* ================================================================= *)
(** ** C strings *)

(** A [const char*] is an offset into the source buffer; the buffer is a
    [string] of bytes, and reading past its last byte yields NUL, the C
    terminator. *)

Definition NUL : ascii := "000"%char.

Fixpoint drop (n : nat) (s : string) : string :=
  match n, s with
  | O, _ => s
  | S n', String _ s' => drop n' s'
  | S _, EmptyString => EmptyString
  end.

Fixpoint take (n : nat) (s : string) : string :=
  match n, s with
  | S n', String c s' => String c (take n' s')
  | _, _ => EmptyString
  end.

(** [std::string(b, e)] for two pointers into the same buffer. *)
Definition slice (s : string) (b e : nat) : string := take (e - b) (drop b s).

(** The bytes a C function sees from a pointer on: up to the first NUL. *)
Fixpoint c_str (s : string) : string :=
  match s with
  | EmptyString => EmptyString
  | String c s' => if Ascii.eqb c NUL then EmptyString else String c (c_str s')
  end.

(** [*p] *)
Definition deref (s : string) (p : nat) : ascii :=
  match drop p s with
  | String c _ => c
  | EmptyString => NUL
  end.

Definition strlen (s : string) (p : nat) : nat := String.length (c_str (drop p s)).

Definition byte (c : ascii) : nat := nat_of_ascii c.

Fixpoint mem_char (c : ascii) (s : string) : bool :=
  match s with
  | EmptyString => false
  | String d s' => Ascii.eqb c d || mem_char c s'
  end.

Fixpoint starts_with (pre s : string) : bool :=
  match pre, s with
  | EmptyString, _ => true
  | String a pre', String b s' => Ascii.eqb a b && starts_with pre' s'
  | String _ _, EmptyString => false
  end.

(** [std::string::find_first_not_of(chars, from)]; [None] is [npos]. *)
Fixpoint find_first_not_of_aux (chars s : string) (i : nat) : option nat :=
  match s with
  | EmptyString => None
  | String c s' => if mem_char c chars then find_first_not_of_aux chars s' (S i) else Some i
  end.

Definition find_first_not_of (s chars : string) (from : nat) : option nat :=
  find_first_not_of_aux chars (drop from s) from.

(** [std::string::substr(pos, n)] *)
Definition substr (s : string) (pos n : nat) : string := take n (drop pos s).

(* ================================================================= *)
(** ** Prelexer combinators *)

Module Prelexer.

(** Modelled from the spec: the lexer combinators of prelexer.hpp and
    lexer.hpp, which are not among the sources.  Section 4.2: each combinator
    inspects the bytes ahead of a position and returns how many bytes it
    matched there, or no match; it has no side effect.  The C functions
    return the position after the match or a null pointer; a successful
    match of zero bytes ([optional], [negate], [lookahead], [zero_plus]) is
    [Some 0].

    [white] records the identity of the function: the parser's [sneak]
    compares its template argument with the seven white-space matchers and
    does not skip white-space in front of those. *)
Record matcher : Type := Mx { run :> string -> option nat; white : bool }.

Definition mx (f : string -> option nat) : matcher := Mx f false.

(** [exactly<c>], [exactly<str>]: the literal text. *)
Definition exactly (lit : string) : matcher :=
  mx (fun src => if starts_with lit src then Some (String.length lit) else None).

(** [class_char<chars>]: one byte out of [chars]. *)
Definition class_char (chars : string) : matcher :=
  mx (fun src => match src with
                 | String c _ => if mem_char c chars then Some 1 else None
                 | EmptyString => None
                 end).

(** [neg_class_char<chars>]: one byte, not NUL, not out of [chars]. *)
Definition neg_class_char (chars : string) : matcher :=
  mx (fun src => match src with
                 | String c _ => if mem_char c chars then None else Some 1
                 | EmptyString => None
                 end).

(** [any_char]: one byte, unless at the terminator. *)
Definition any_char : matcher :=
  mx (fun src => match src with String _ _ => Some 1 | EmptyString => None end).

(** [end_of_file]: matches, with length zero, at the terminator only. *)
Definition end_of_file : matcher :=
  mx (fun src => match src with EmptyString => Some 0 | String _ _ => None end).

(** [optional<m>] *)
Definition optional (m : matcher) : matcher :=
  mx (fun src => match m src with Some n => Some n | None => Some 0 end).

(** [negate<m>]: matches nothing, where [m] does not match. *)
Definition negate (m : matcher) : matcher :=
  mx (fun src => match m src with Some _ => None | None => Some 0 end).

(** [lookahead<m>]: matches nothing, where [m] matches. *)
Definition lookahead (m : matcher) : matcher :=
  mx (fun src => match m src with Some _ => Some 0 | None => None end).

(** [sequence<m1, m2, ...>] *)
Fixpoint sequence_from (ms : list matcher) (src : string) : option nat :=
  match ms with
  | [] => Some 0
  | m :: ms' =>
      match m src with
      | None => None
      | Some n => match sequence_from ms' (drop n src) with
                  | None => None
                  | Some k => Some (n + k)
                  end
      end
  end.

Definition sequence (ms : list matcher) : matcher := mx (sequence_from ms).

(** [alternatives<m1, m2, ...>]: the first that matches. *)
Fixpoint alternatives_from (ms : list matcher) (src : string) : option nat :=
  match ms with
  | [] => None
  | m :: ms' => match m src with
                | Some n => Some n
                | None => alternatives_from ms' src
                end
  end.

Definition alternatives (ms : list matcher) : matcher := mx (alternatives_from ms).

(** [zero_plus<m>]: [while ((p = mx(src))) src = p; return src;].  The
    iteration is bounded by the length of the text; a match of zero bytes
    ends it. *)
Fixpoint zero_plus_from (fuel : nat) (m : matcher) (src : string) : nat :=
  match fuel with
  | O => 0
  | S fuel' =>
      match m src with
      | None | Some O => 0
      | Some n => n + zero_plus_from fuel' m (drop n src)
      end
  end.

Definition zero_plus (m : matcher) : matcher :=
  mx (fun src => Some (zero_plus_from (String.length src) m src)).

(** [one_plus<m>] *)
Definition one_plus (m : matcher) : matcher :=
  mx (fun src => match m src with
                 | None => None
                 | Some n => Some (n + zero_plus_from (String.length src) m (drop n src))
                 end).

(** [non_greedy<m, stop>]: repeat [m] until [stop] matches; fail when [m]
    fails or matches nothing before that. *)
Fixpoint non_greedy_from (fuel : nat) (m stop : matcher) (src : string) : option nat :=
  match stop src with
  | Some _ => Some 0
  | None =>
      match fuel with
      | O => None
      | S fuel' =>
          match m src with
          | None | Some O => None
          | Some n => match non_greedy_from fuel' m stop (drop n src) with
                      | None => None
                      | Some k => Some (n + k)
                      end
          end
      end
  end.

Definition non_greedy (m stop : matcher) : matcher :=
  mx (fun src => non_greedy_from (String.length src) m stop src).

(** [delimited_by<beg, end, esc>] with [esc = false]: [beg], then anything up
    to and including the first [end]; no match when the text ends before. *)
Fixpoint until_closing (closing src : string) : option nat :=
  if starts_with closing src then Some (String.length closing)
  else match src with
       | EmptyString => None
       | String _ src' => match until_closing closing src' with
                          | None => None
                          | Some n => Some (S n)
                          end
       end.

Definition delimited_by (opening closing : string) : matcher :=
  sequence [exactly opening; mx (until_closing closing)].

(** White-space: [" \t\n\v\f\r"]. *)
Definition ascii_isspace (c : ascii) : bool :=
  let n := nat_of_ascii c in Nat.eqb n 32 || (Nat.leb 9 n && Nat.leb n 13).

Definition space : matcher :=
  mx (fun src => match src with
                 | String c _ => if ascii_isspace c then Some 1 else None
                 | EmptyString => None
                 end).

Definition end_of_line : matcher :=
  alternatives [exactly (String "013" (String "010" "")); exactly (String "010" "");
                exactly (String "013" ""); exactly (String "012" ""); end_of_file].

Definition line_comment : matcher :=
  sequence [exactly "//"; non_greedy any_char end_of_line].

Definition block_comment : matcher := delimited_by "/*" "*/".

(** The seven matchers [sneak] knows by address. *)
Definition spaces : matcher := Mx (one_plus space) true.
Definition no_spaces : matcher := Mx (negate space) true.
Definition optional_spaces : matcher := Mx (optional spaces) true.
Definition css_whitespace : matcher :=
  Mx (one_plus (alternatives [spaces; line_comment])) true.
Definition optional_css_whitespace : matcher :=
  Mx (zero_plus (alternatives [spaces; line_comment])) true.
Definition css_comments : matcher :=
  Mx (one_plus (alternatives [spaces; line_comment; block_comment])) true.
Definition optional_css_comments : matcher :=
  Mx (zero_plus (alternatives [spaces; line_comment; block_comment])) true.

(** [skip_over_scopes<start, stop>]: up to and including the [stop] that
    closes the scope the text starts in, skipping nested scopes, quoted
    strings and escaped bytes. *)
Fixpoint skip_over_scopes_from (fuel : nat) (start stop : matcher) (level : nat)
    (in_squote in_dquote in_backslash_escape : bool) (src : string) : option nat :=
  match fuel, src with
  | O, _ | _, EmptyString => None
  | S fuel', String c _ =>
      let continue (level : nat) (sq dq esc : bool) (k : nat) :=
        match skip_over_scopes_from fuel' start stop level sq dq esc (drop k src) with
        | Some n => Some (k + n)
        | None => None
        end in
      if in_backslash_escape then continue level in_squote in_dquote false 1
      else if Ascii.eqb c "\"%char then continue level in_squote in_dquote true 1
      else if Ascii.eqb c (ascii_of_nat 34) then continue level in_squote (negb in_dquote) false 1
      else if Ascii.eqb c "'"%char then continue level (negb in_squote) in_dquote false 1
      else if in_dquote || in_squote then continue level in_squote in_dquote false 1
      else match start src with
           | Some k => continue (S level) in_squote in_dquote false k
           | None =>
               match stop src with
               | Some k => match level with
                           | O => Some k
                           | S level' => continue level' in_squote in_dquote false k
                           end
               | None => continue level in_squote in_dquote false 1
               end
           end
  end.

Definition skip_over_scopes (start stop : matcher) : matcher :=
  mx (fun src => skip_over_scopes_from (String.length src) start stop 0 false false false src).

End Prelexer.
Import Prelexer.

(** The double quote, for messages and inputs that contain one. *)
Definition dquote : string := String (ascii_of_nat 34) EmptyString.

(* ================================================================= *)
(** ** Source positions *)

(** Modelled from the spec: the position tracker of position.hpp, which is
    not among the sources.  Section 4.1: a (line, column) pair; the column
    advances by one per code point, that is per byte that is not a UTF-8
    continuation byte, and a line feed starts a new line at column 0. *)
Record Offset : Type := mkOffset { line : nat; column : nat }.

Definition utf8_continuation (c : ascii) : bool :=
  Nat.leb 128 (byte c) && Nat.ltb (byte c) 192.

(** [Offset::add(begin, end)] over the text between the two pointers. *)
Fixpoint Offset_add (o : Offset) (text : string) : Offset :=
  match text with
  | EmptyString => o
  | String c text' =>
      if Ascii.eqb c NUL then o
      else if Ascii.eqb c "010"%char then Offset_add (mkOffset (S (line o)) 0) text'
      else if utf8_continuation c then Offset_add o text'
      else Offset_add (mkOffset (line o) (S (column o))) text'
  end.

Definition Offset_plus (a off : Offset) : Offset :=
  mkOffset (line a + line off)
           (if Nat.ltb 0 (line off) then column off else column a + column off).

Definition Offset_minus (a off : Offset) : Offset :=
  mkOffset (line a - line off)
           (if Nat.eqb (line off) (line a) then column a - column off else column a).

(** [ParserState]: the position of a token and the extent it covers. *)
Record ParserState : Type := mkParserState { ps_position : Offset; ps_offset : Offset }.

(** [Token]: the three pointers [prefix], [begin], [end]. *)
Record Token : Type := mkToken { tk_prefix : nat; tk_begin : nat; tk_end : nat }.

(* ================================================================= *)
(** ** AST nodes *)

(** Types of values that come from outside the parser: C doubles, colours of
    the colour table, nodes of the families built by the parts of the parser
    that stay abstract here (selectors, media and supports queries, ...), the
    compilation context and the resources an import resolves to. *)
Class Foreign : Type := {
  double : Type;
  color : Type;
  foreign : Type;
  Context : Type;
  Include : Type
}.

Inductive Sass_OP : Type :=
  AND | OR | EQ | NEQ | GT | GTE | LT | LTE | ADD | SUB | MUL | DIV | MOD.

(** [struct Operand { operand; ws_before; ws_after }] *)
Record Operand : Type := mkOperand { operand : Sass_OP; ws_before : bool; ws_after : bool }.

Inductive Sass_Separator : Type := SASS_COMMA | SASS_SPACE | SASS_HASH.

Inductive Unary_Type : Type := PLUS | MINUS | NOT | SLASH.

Inductive Scope : Type :=
  Root | Mixin | Function | Media | Control | Properties | Rules | AtRoot.

Inductive Definition_Type : Type := MIXIN | FUNCTION.

(** The two flags of the [Expression] base class the parser reads and
    writes. *)
Record Flags : Type := mkFlags { fl_delayed : bool; fl_interpolant : bool }.

Definition no_flags : Flags := mkFlags false false.

Section Ast.
Context {F : Foreign}.

#[local] Set Warnings "-register-all".

(** A node is represented by the arguments of the constructor call that
    builds it, together with its flags; source ranges are left out, they
    never decide what the parser does.  String nodes hold the text they are
    built from. *)
Inductive Expression : Type :=
| List_ (fl : Flags) (elements : list Expression) (separator : Sass_Separator)
        (is_arglist is_bracketed : bool)
| Binary_Expression (fl : Flags) (op : Operand) (left right : Expression)
| Unary_Expression (fl : Flags) (optype : Unary_Type) (operand_ : Expression)
| Function_Call (fl : Flags) (name : string) (args : list Argument)
| Function_Call_Schema (fl : Flags) (sname : Expression) (args : list Argument)
| Variable_ (fl : Flags) (name : string)
| Number (fl : Flags) (value : double) (unit_ : string) (zero : bool)
| Color_RGBA (fl : Flags) (c : color) (disp : string)
| Boolean (fl : Flags) (b : bool)
| Null (fl : Flags)
| String_Constant (fl : Flags) (value : string)
| String_Quoted (fl : Flags) (value : string)
| String_Schema (fl : Flags) (elements : list Expression)
| Parent_Reference (fl : Flags)
| Foreign_Expression (fl : Flags) (node : foreign)
with Argument : Type :=
| Argument_ (value : Expression) (name : string) (is_rest_argument is_keyword_argument : bool).

Definition flags (e : Expression) : Flags :=
  match e with
  | List_ fl _ _ _ _ | Binary_Expression fl _ _ _ | Unary_Expression fl _ _
  | Function_Call fl _ _ | Function_Call_Schema fl _ _ | Variable_ fl _
  | Number fl _ _ _ | Color_RGBA fl _ _ | Boolean fl _ | Null fl
  | String_Constant fl _ | String_Quoted fl _ | String_Schema fl _
  | Parent_Reference fl | Foreign_Expression fl _ => fl
  end.

Definition with_flags (fl : Flags) (e : Expression) : Expression :=
  match e with
  | List_ _ es sep a b => List_ fl es sep a b
  | Binary_Expression _ op l r => Binary_Expression fl op l r
  | Unary_Expression _ t o => Unary_Expression fl t o
  | Function_Call _ n a => Function_Call fl n a
  | Function_Call_Schema _ n a => Function_Call_Schema fl n a
  | Variable_ _ n => Variable_ fl n
  | Number _ v u z => Number fl v u z
  | Color_RGBA _ c d => Color_RGBA fl c d
  | Boolean _ b => Boolean fl b
  | Null _ => Null fl
  | String_Constant _ v => String_Constant fl v
  | String_Quoted _ v => String_Quoted fl v
  | String_Schema _ es => String_Schema fl es
  | Parent_Reference _ => Parent_Reference fl
  | Foreign_Expression _ x => Foreign_Expression fl x
  end.

(** [e->is_delayed()], [e->is_delayed(b)], [e->is_interpolant(b)] *)
Definition is_delayed (e : Expression) : bool := fl_delayed (flags e).
Definition is_interpolant (e : Expression) : bool := fl_interpolant (flags e).
Definition set_is_delayed (b : bool) (e : Expression) : Expression :=
  with_flags (mkFlags b (fl_interpolant (flags e))) e.
Definition set_is_interpolant (b : bool) (e : Expression) : Expression :=
  with_flags (mkFlags (fl_delayed (flags e)) b) e.

(** Modelled from the spec: the virtual [set_delayed] of ast.hpp, which is
    not among the sources.  The comments of parser.cpp fix its behaviour: "a
    nested list must not be delayed, only the items of the first level",
    "set_delay doesn't apply to list children"; a binary expression passes
    the flag on to both operands; every other node sets its own flag. *)
Fixpoint set_delayed (b : bool) (e : Expression) : Expression :=
  match e with
  | Binary_Expression fl op l r =>
      Binary_Expression (mkFlags b (fl_interpolant fl)) op (set_delayed b l) (set_delayed b r)
  | _ => set_is_delayed b e
  end.

(** [String_Schema::has_interpolants()]: some element is an interpolant. *)
Definition has_interpolants (elements : list Expression) : bool :=
  existsb is_interpolant elements.

Inductive Parameter_ : Type :=
| mkParameter (name : string) (default_value : option Expression) (is_rest_parameter : bool).

(** [Import]: the [url(...)] entries, the resolved resources and the media
    queries. *)
Record Import_ : Type := mkImport {
  urls : list Expression;
  incs : list Include;
  import_queries : option Expression
}.

Inductive Statement : Type :=
| Assignment (variable : string) (value : Expression) (is_default is_global : bool)
| Error_ (message : Expression)
| Warning (message : Expression)
| Debug_ (value : Expression)
| If (predicate : Expression) (block : Block) (alternative : option Block)
| For (variable : string) (lower_bound upper_bound : Expression) (block : Block)
      (is_inclusive : bool)
| Each (variables : list string) (list_ : Expression) (block : Block)
| While (predicate : Expression) (block : Block)
| Return (value : Expression)
| Import_Statement (imp : Import_)
| Import_Stub (resource : Include)
| Definition_ (name : string) (parameters : list Parameter_) (block : Block)
              (type : Definition_Type)
| Declaration (property : Expression) (value : Expression) (is_custom_property : bool)
              (is_indented : bool) (tabs : nat) (block : option Block)
| Comment (text : Expression) (is_important : bool)
| Ruleset (selector : option foreign) (schema : option foreign) (block : Block)
          (is_root : bool)
| ExtendRule (selector : foreign) (isOptional : bool)
| Foreign_Statement (node : foreign)
with Block : Type :=
| Block_ (elements : list Statement) (is_root : bool).

Definition block_elements (b : Block) : list Statement :=
  match b with Block_ es _ => es end.

Definition block_is_root (b : Block) : bool :=
  match b with Block_ _ r => r end.

(** [block->append(stm)] *)
Definition block_append (b : Block) (s : Statement) : Block :=
  match b with Block_ es r => Block_ (es ++ [s]) r end.

End Ast.

(* ================================================================= *)
(** ** String constants and lexical productions *)

Module Constants.

(** Modelled from the spec: the string constants of constants.cpp, which is
    not among the sources: the [@else] keyword, the interpolation brackets,
    the rest marker, the multiplicative operator characters of section 4.5. *)
Definition else_kwd : string := "@else".
Definition hash_lbrace : string := "#{".
Definition rbrace : string := "}".
Definition ellipsis : string := "...".
Definition static_ops : string := "*/%".

(** Modelled from the spec: the nesting ceiling [MAX_NESTING] of the scoped
    guard (section 3, [nesting_depth]). *)
Definition MAX_NESTING : nat := 512.

(** Modelled from the spec: the byte-order marks of constants.cpp, which is
    not among the sources: the signatures of the encodings section 6 names. *)
Definition utf_8_bom : list nat := [239; 187; 191].
Definition utf_16_bom_be : list nat := [254; 255].
Definition utf_16_bom_le : list nat := [255; 254].
Definition utf_32_bom_be : list nat := [0; 0; 254; 255].
Definition utf_32_bom_le : list nat := [255; 254; 0; 0].
Definition utf_7_bom_1 : list nat := [43; 47; 118; 56].
Definition utf_7_bom_2 : list nat := [43; 47; 118; 57].
Definition utf_7_bom_3 : list nat := [43; 47; 118; 43].
Definition utf_7_bom_4 : list nat := [43; 47; 118; 47].
Definition utf_7_bom_5 : list nat := [43; 47; 118; 56; 45].
Definition utf_1_bom : list nat := [247; 100; 76].
Definition utf_ebcdic_bom : list nat := [221; 115; 102; 115].
Definition scsu_bom : list nat := [14; 254; 255].
Definition bocu_1_bom : list nat := [251; 238; 40].
Definition gb_18030_bom : list nat := [132; 49; 149; 51].

End Constants.
Import Constants.

Module Productions.

(** The named productions of prelexer.cpp (not among the sources) the parser
    instantiates [lex] and [peek] with.  The parser functions are written
    against this interface; [Css] below gives the productions for the worked
    examples. *)
Class Lexicon : Type := {
  (* statement keywords *)
  kwd_err : matcher; kwd_dbg : matcher; kwd_warn : matcher;
  kwd_if_directive : matcher; kwd_for_directive : matcher;
  kwd_each_directive : matcher; kwd_while_directive : matcher;
  kwd_return_directive : matcher; kwd_import : matcher; kwd_extend : matcher;
  kwd_media : matcher; kwd_at_root : matcher; kwd_include_directive : matcher;
  kwd_content_directive : matcher; kwd_supports_directive : matcher;
  kwd_mixin : matcher; kwd_function : matcher; kwd_charset_directive : matcher;
  at_keyword : matcher; elseif_directive : matcher; kwd_else_directive : matcher;
  kwd_from : matcher; kwd_through : matcher; kwd_to : matcher; kwd_in : matcher;
  default_flag : matcher; global_flag : matcher;
  (* statement look-ahead *)
  static_value : matcher; re_selector_list : matcher; interpolant : matcher;
  parenthese_scope : matcher;
  (* expression operators and terminators *)
  list_terminator : matcher; space_list_terminator : matcher;
  kwd_or : matcher; kwd_and : matcher; kwd_not : matcher;
  kwd_eq : matcher; kwd_neq : matcher; kwd_gte : matcher; kwd_gt : matcher;
  kwd_lte : matcher; kwd_lt : matcher;
  (* tokens *)
  identifier : matcher; identifier_schema : matcher; strict_identifier : matcher;
  variable : matcher; number : matcher; unsigned_number : matcher; digit : matcher;
  percentage : matcher; dimension : matcher; op : matcher;
  hex : matcher; hex0 : matcher; hexa : matcher;
  quoted_string : matcher; value_schema : matcher; static_component : matcher;
  ampersand : matcher; kwd_important : matcher;
  kwd_true : matcher; kwd_false : matcher; kwd_null : matcher;
  (* function-like values *)
  ie_property : matcher; ie_keyword_arg : matcher; calc_fn_call : matcher;
  functional_schema : matcher; re_functional : matcher;
  uri_prefix : matcher; W : matcher; real_uri_value : matcher
}.

End Productions.
Import Productions.

(* ================================================================= *)
(** ** The parser state *)

Section State.
Context {F : Foreign}.

(** The data members of [class Parser] (parser.hpp).  The two vectors are
    used as stacks: the head of the list is [back()]. *)
Record Parser : Type := mkParser {
  ctx : Context;
  block_stack : list Block;
  stack : list Scope;
  source : string;
  position : nat;
  end_ : nat;
  before_token : Offset;
  after_token : Offset;
  pstate : ParserState;
  indentation : nat;
  nestings : nat;
  allow_parent : bool;
  lexed : Token
}.

Definition set_ctx (c : Context) (p : Parser) : Parser :=
  mkParser c (block_stack p) (stack p) (source p) (position p) (end_ p)
           (before_token p) (after_token p) (pstate p) (indentation p) (nestings p)
           (allow_parent p) (lexed p).
Definition set_block_stack (bs : list Block) (p : Parser) : Parser :=
  mkParser (ctx p) bs (stack p) (source p) (position p) (end_ p)
           (before_token p) (after_token p) (pstate p) (indentation p) (nestings p)
           (allow_parent p) (lexed p).
Definition set_stack (st : list Scope) (p : Parser) : Parser :=
  mkParser (ctx p) (block_stack p) st (source p) (position p) (end_ p)
           (before_token p) (after_token p) (pstate p) (indentation p) (nestings p)
           (allow_parent p) (lexed p).
Definition set_position (x : nat) (p : Parser) : Parser :=
  mkParser (ctx p) (block_stack p) (stack p) (source p) x (end_ p)
           (before_token p) (after_token p) (pstate p) (indentation p) (nestings p)
           (allow_parent p) (lexed p).
Definition set_end (x : nat) (p : Parser) : Parser :=
  mkParser (ctx p) (block_stack p) (stack p) (source p) (position p) x
           (before_token p) (after_token p) (pstate p) (indentation p) (nestings p)
           (allow_parent p) (lexed p).
Definition set_after_token (o : Offset) (p : Parser) : Parser :=
  mkParser (ctx p) (block_stack p) (stack p) (source p) (position p) (end_ p)
           (before_token p) o (pstate p) (indentation p) (nestings p)
           (allow_parent p) (lexed p).
Definition set_pstate (ps : ParserState) (p : Parser) : Parser :=
  mkParser (ctx p) (block_stack p) (stack p) (source p) (position p) (end_ p)
           (before_token p) (after_token p) ps (indentation p) (nestings p)
           (allow_parent p) (lexed p).
Definition set_indentation (n : nat) (p : Parser) : Parser :=
  mkParser (ctx p) (block_stack p) (stack p) (source p) (position p) (end_ p)
           (before_token p) (after_token p) (pstate p) n (nestings p)
           (allow_parent p) (lexed p).
Definition set_nestings (n : nat) (p : Parser) : Parser :=
  mkParser (ctx p) (block_stack p) (stack p) (source p) (position p) (end_ p)
           (before_token p) (after_token p) (pstate p) (indentation p) n
           (allow_parent p) (lexed p).
Definition set_allow_parent (b : bool) (p : Parser) : Parser :=
  mkParser (ctx p) (block_stack p) (stack p) (source p) (position p) (end_ p)
           (before_token p) (after_token p) (pstate p) (indentation p) (nestings p)
           b (lexed p).

(** The exceptions the parser throws. *)
Inductive Error : Type :=
| InvalidSass (at_ : Offset) (msg : string)
| NestingLimitError (at_ : Offset)
| runtime_error (msg : string).

(** The outcome of running a parser function: it returns a value in a new
    state, throws, or the recursion bound of the model is used up. *)
Inductive result (A : Type) : Type :=
| Ok (a : A) (p : Parser)
| Err (e : Error)
| Fuel.

Arguments Ok {A} a p.
Arguments Err {A} e.
Arguments Fuel {A}.

Definition M (A : Type) : Type := Parser -> result A.

Definition ret {A : Type} (a : A) : M A := fun p => Ok a p.

Definition bind {A B : Type} (c : M A) (k : A -> M B) : M B :=
  fun p => match c p with
           | Ok a p' => k a p'
           | Err e => Err e
           | Fuel => Fuel
           end.

Definition get : M Parser := fun p => Ok p p.
Definition modify (f : Parser -> Parser) : M unit := fun p => Ok tt (f p).
Definition throw {A : Type} (e : Error) : M A := fun _ => Err e.
Definition out_of_fuel {A : Type} : M A := fun _ => Fuel.

End State.

Arguments Ok {F A} a p.
Arguments Err {F A} e.
Arguments Fuel {F A}.

Declare Scope parser_scope.
Delimit Scope parser_scope with parser.
Notation "x <- c ;; k" := (bind c (fun x => k))
  (at level 61, c at next level, right associativity) : parser_scope.
Notation "c ;;; k" := (bind c (fun _ => k))
  (at level 61, right associativity) : parser_scope.
Notation "'IfM' c 'Then' a 'Else' b" :=
  (bind c (fun t : bool => if t then a else b))
  (at level 10, c at level 200, a at level 200, b at level 200) : parser_scope.
Open Scope parser_scope.

(* ================================================================= *)
(** ** Primitive operations of the parser *)

Section Primitives.
Context {F : Foreign}.

(** The bytes at a pointer, as the C matchers see them. *)
Definition text_at (p : Parser) (i : nat) : string := c_str (drop i (source p)).

Definition match_at (m : matcher) (p : Parser) (i : nat) : option nat :=
  match m (text_at p i) with
  | Some n => Some (i + n)
  | None => None
  end.

(** Modelled from the spec: the templates [sneak], [match], [peek],
    [peek_css], [lex] and [lex_css] of parser.hpp, which is not among the
    sources.  Sections 4.2 and 9: a match is committed by advancing the
    cursor; [peek] looks ahead without advancing; dispatch is preceded by
    white-space and comment skipping ([lex] and [peek] skip spaces and line
    comments in front of the token, the [_css] variants block comments as
    well); a match that ends behind [end] does not count. *)
Definition sneak (m : matcher) (p : Parser) (it_position : nat) : nat :=
  if white m then it_position
  else match match_at optional_css_whitespace p it_position with
       | Some pos => pos
       | None => it_position
       end.

Definition match_ (m : matcher) (p : Parser) : option nat := match_at m p (position p).

(** [peek<m>(start)]; [start = None] is the null pointer, which stands for
    the current position. *)
Definition peek_at (m : matcher) (start : option nat) (p : Parser) : option nat :=
  let it_position := match start with Some s => s | None => position p end in
  let it_before_token := sneak m p it_position in
  match match_at m p it_before_token with
  | Some match_end => if Nat.leb match_end (end_ p) then Some match_end else None
  | None => None
  end.

Definition peek_css_at (m : matcher) (start : option nat) (p : Parser) : option nat :=
  peek_at m (peek_at css_comments start p) p.

(** [lex<m>(lazy, force)]: the new state when the token is matched.  With
    [force] an empty match is committed too.  (With [force] the C code also
    commits a failed match, leaving a null position; no caller in the parser
    forces a matcher that can fail.) *)
Definition lex_at (m : matcher) (lazy force : bool) (p : Parser) : option Parser :=
  if Ascii.eqb (deref (source p) (position p)) NUL then None
  else
    let it_before_token := if lazy then sneak m p (position p) else position p in
    match match_at m p it_before_token with
    | None => None
    | Some it_after_token =>
        if Nat.ltb (end_ p) it_after_token then None
        else if negb force && Nat.eqb it_after_token it_before_token then None
        else
          let before := Offset_add (after_token p)
                                   (slice (source p) (position p) it_before_token) in
          let after := Offset_add before
                                  (slice (source p) it_before_token it_after_token) in
          Some (mkParser (ctx p) (block_stack p) (stack p) (source p)
                         it_after_token (end_ p) before after
                         (mkParserState before (Offset_minus after before))
                         (indentation p) (nestings p) (allow_parent p)
                         (mkToken (position p) it_before_token it_after_token))
    end.

Definition lex_css_at (m : matcher) (p : Parser) : option Parser :=
  let p1 := match lex_at css_comments true false p with
            | Some p1 => p1
            | None => p
            end in
  lex_at m true false p1.

(** The same operations as parser actions.  The peeks read the state; a
    failed [lex] leaves it as it was. *)
Definition peek (m : matcher) (start : option nat) : M (option nat) :=
  fun p => Ok (peek_at m start p) p.

Definition peek_css (m : matcher) (start : option nat) : M (option nat) :=
  fun p => Ok (peek_css_at m start p) p.

Definition lex (m : matcher) (lazy force : bool) : M bool :=
  fun p => match lex_at m lazy force p with
           | Some p' => Ok true p'
           | None => Ok false p
           end.

Definition lex_css (m : matcher) : M bool :=
  fun p => match lex_css_at m p with
           | Some p' => Ok true p'
           | None => Ok false p
           end.

(** A pointer used as a condition. *)
Definition found {A : Type} (c : M (option A)) : M bool :=
  x <- c ;; ret (match x with Some _ => true | None => false end).

Definition here : M (option nat) := fun p => Ok (Some (position p)) p.

(** [std::string(lexed)] *)
Definition lexed_string (p : Parser) : string :=
  slice (source p) (tk_begin (lexed p)) (tk_end (lexed p)).

Definition get_lexed : M string := fun p => Ok (lexed_string p) p.

(** [advanceToNextToken] (parser.cpp:54) *)
Definition advanceToNextToken : M unit :=
  lex css_comments false false ;;;
  modify (fun p =>
    set_pstate (mkParserState (Offset_plus (ps_position (pstate p)) (ps_offset (pstate p)))
                              (mkOffset 0 0)) p).

(** [Parser::error(msg)] (parser.cpp:2894-2912): the exception carries the
    position of [pstate], or [before_token] when that is on line 0. *)
Definition error_position (p : Parser) : Offset :=
  if Nat.eqb (line (ps_position (pstate p))) 0 then before_token p
  else ps_position (pstate p).

Definition error {A : Type} (msg : string) : M A :=
  fun p => Err (InvalidSass (error_position p) msg).

(** [NESTING_GUARD(nestings)]: the counter is raised for the extent of the
    call and the call fails when it exceeds [MAX_NESTING]. *)
Definition NESTING_GUARD {A : Type} (body : M A) : M A :=
  fun p =>
    let p1 := set_nestings (S (nestings p)) p in
    if Nat.ltb MAX_NESTING (nestings p1)
    then Err (NestingLimitError (ps_position (pstate p1)))
    else match body p1 with
         | Ok a p2 => Ok a (set_nestings (nestings p) p2)
         | Err e => Err e
         | Fuel => Fuel
         end.

(** [stack.back()]; the constructor of [Parser] pushes [Scope::Root], so the
    stack is not empty while the parser runs. *)
Definition stack_back (p : Parser) : option Scope := hd_error (stack p).

Definition Scope_eqb (a b : Scope) : bool :=
  match a, b with
  | Root, Root | Mixin, Mixin | Function, Function | Media, Media
  | Control, Control | Properties, Properties | Rules, Rules | AtRoot, AtRoot => true
  | _, _ => false
  end.

(** [stack.back() != s] *)
Definition back_is_not (s : Scope) (p : Parser) : bool :=
  match stack_back p with
  | Some t => negb (Scope_eqb t s)
  | None => true
  end.

Definition push_scope (s : Scope) : M unit := modify (fun p => set_stack (s :: stack p) p).
Definition pop_scope : M unit := modify (fun p => set_stack (tl (stack p)) p).

Definition push_block (b : Block) : M unit :=
  modify (fun p => set_block_stack (b :: block_stack p) p).

(** [block_stack.back()] followed by [pop_back()] *)
Definition pop_block : M Block :=
  fun p => match block_stack p with
           | b :: bs => Ok b (set_block_stack bs p)
           | [] => Err (runtime_error "block_stack is empty")
           end.

(** [block_stack.back()->append(stm)] *)
Definition append_to_block (s : Statement) : M unit :=
  modify (fun p => match block_stack p with
                   | b :: bs => set_block_stack (block_append b s :: bs) p
                   | [] => p
                   end).

(** [block_stack.back()->is_root()] *)
Definition back_is_root (p : Parser) : bool :=
  match block_stack p with
  | b :: _ => block_is_root b
  | [] => false
  end.

End Primitives.

(* ================================================================= *)
(** ** What the parser calls and this development leaves abstract *)

(** Helpers of other translation units (util, utf8, color_maps, context)
    and the parts of parser.cpp no property below depends on: interpolation
    schemas, selectors, media and supports queries, generic directives.
    Each of them is an arbitrary action on the parser state. *)
Class Externals {F : Foreign} : Type := {
  (* util.cpp, lexer.hpp, color_maps.cpp, ast.cpp *)
  sass_strtod : string -> double;
  is_number : ascii -> bool;
  name_to_color : string -> option color;
  rgba : nat -> nat -> nat -> option nat -> color;
  quote : string -> string;
  unquote : string -> string;
  escape_string : string -> string;
  selector_is_optional : foreign -> bool;
  (* utf8.h *)
  find_invalid : string -> nat -> nat -> nat;
  css_error_context : Parser -> bool -> string * string;
  (* context.cpp *)
  resources_size : Context -> nat;
  apply_custom_headers : Block -> M Block;
  call_importers : string -> Import_ -> M (bool * Import_);
  import_url : Import_ -> string -> M Import_;
  (* parser.cpp, abstract *)
  parse_interpolated_chunk : Token -> bool -> bool -> M Expression;
  parse_value_schema : nat -> M Expression;
  parse_identifier_schema : M Expression;
  parse_css_variable_value : M Expression;
  parse_ie_property : M Expression;
  parse_ie_keyword_arg : M Expression;
  parse_calc_function : M Expression;
  parse_url_function_string : M Expression;
  parse_url_function_argument : M (option Expression);
  parse_media_queries : M Expression;
  parseSelectorList : bool -> M foreign;
  parse_selector_schema : nat -> bool -> M foreign;
  parseMediaRule : M Statement;
  parse_at_root_block : M Statement;
  parse_include_directive : M Statement;
  parse_content_directive : M Statement;
  parse_supports_directive : M Statement;
  parse_directive : M Statement
}.

(* ================================================================= *)
(** ** Numbers, colours and operand folding *)

Section Values.
Context {F : Foreign} {L : Lexicon} {X : Externals}.

(** Modelled from the spec: [Util::normalize_underscores] (util_string.hpp,
    not among the sources).  Section 4.2: [_] and [-] are equivalent in
    names and the canonical form uses [-]. *)
Fixpoint normalize_underscores (s : string) : string :=
  match s with
  | EmptyString => EmptyString
  | String c s' =>
      String (if Ascii.eqb c "_"%char then "-"%char else c) (normalize_underscores s')
  end.

(** [css_error] (parser.cpp:2915): the message is completed with the quoted
    source text to the left and to the right of the cursor. *)
Definition css_error {A : Type} (msg prefix middle : string) (trim : bool) : M A :=
  fun p =>
    let (left, right) := css_error_context p trim in
    error (msg ++ prefix ++ quote left ++ middle ++ quote right) p.

(** [number_has_zero] (parser.cpp:1345) *)
Definition number_has_zero (parsed : string) : bool :=
  let L := String.length parsed in
  negb ( (Nat.ltb 0 L && String.eqb (substr parsed 0 1) ".")
      || (Nat.ltb 1 L && String.eqb (substr parsed 0 2) "0.")
      || (Nat.ltb 1 L && String.eqb (substr parsed 0 2) "-.")
      || (Nat.ltb 2 L && String.eqb (substr parsed 0 3) "-0.") ).

Definition lexed_flags : Flags := mkFlags true false.

(** [Parser::lexed_number] (parser.cpp:1354) *)
Definition lexed_number (parsed : string) : Expression :=
  Number lexed_flags (sass_strtod parsed) "" (number_has_zero parsed).

(** [Parser::lexed_percentage] (parser.cpp:1366) *)
Definition lexed_percentage (parsed : string) : Expression :=
  Number lexed_flags (sass_strtod parsed) "%" true.

Definition or_npos (x : option nat) (L : nat) : nat :=
  match x with Some i => i | None => L end.

(** [parsed[i]] for an index that may be [npos]. *)
Definition char_at (parsed : string) (i : option nat) : ascii :=
  match i with Some i => deref parsed i | None => NUL end.

(** [Parser::lexed_dimension] (parser.cpp:1378).  The unit is the text that
    follows the match of [number] in [parsed]. *)
Definition lexed_dimension (parsed : string) : Expression :=
  let L := String.length parsed in
  let num_pos := or_npos (find_first_not_of parsed (String " " (String "010"
                             (String "013" (String "009" "")))) 0) L in
  let unit_pos := find_first_not_of parsed "-+0123456789." num_pos in
  let unit_pos :=
    if Ascii.eqb (char_at parsed unit_pos) "e"%char
       && is_number (char_at parsed (option_map S unit_pos))
    then find_first_not_of parsed "-+0123456789." (S (or_npos unit_pos L))
    else unit_pos in
  let unit_pos := or_npos unit_pos L in
  let num := substr parsed num_pos (unit_pos - num_pos) in
  let unit_token := match number (c_str parsed) with
                    | Some n => drop n (c_str parsed)
                    | None => EmptyString
                    end in
  Number lexed_flags (sass_strtod num) unit_token (number_has_zero parsed).

(** [strtol(s, NULL, 16)] on hexadecimal digits. *)
Definition hex_digit (c : ascii) : option nat :=
  let n := byte c in
  if Nat.leb 48 n && Nat.leb n 57 then Some (n - 48)
  else if Nat.leb 97 n && Nat.leb n 102 then Some (n - 87)
  else if Nat.leb 65 n && Nat.leb n 70 then Some (n - 55)
  else None.

Fixpoint strtol16_from (acc : nat) (s : string) : nat :=
  match s with
  | EmptyString => acc
  | String c s' => match hex_digit c with
                   | Some d => strtol16_from (16 * acc + d) s'
                   | None => acc
                   end
  end.

Definition strtol16 (s : string) : nat := strtol16_from 0 s.

Definition twice (parsed : string) (i : nat) : string :=
  String (deref parsed i) (String (deref parsed i) EmptyString).

(** [Parser::lexed_hex_color] (parser.cpp:1399).  For a text of another
    length the C code dereferences a null colour: [None]. *)
Definition lexed_hex_color (parsed : string) : option Expression :=
  if negb (Ascii.eqb (deref parsed 0) "#"%char) then Some (String_Quoted no_flags parsed)
  else
    let colour r g b a := Some (Color_RGBA no_flags (rgba r g b a) parsed) in
    match String.length parsed with
    | 4 => colour (strtol16 (twice parsed 1)) (strtol16 (twice parsed 2))
                  (strtol16 (twice parsed 3)) None
    | 5 => colour (strtol16 (twice parsed 1)) (strtol16 (twice parsed 2))
                  (strtol16 (twice parsed 3)) (Some (strtol16 (twice parsed 4)))
    | 7 => colour (strtol16 (substr parsed 1 2)) (strtol16 (substr parsed 3 2))
                  (strtol16 (substr parsed 5 2)) None
    | 9 => colour (strtol16 (substr parsed 1 2)) (strtol16 (substr parsed 3 2))
                  (strtol16 (substr parsed 5 2)) (Some (strtol16 (substr parsed 7 2)))
    | _ => None
    end.

(** [Parser::color_or_string] (parser.cpp:1462) *)
Definition color_or_string (lexed_text : string) : Expression :=
  match name_to_color lexed_text with
  | Some c => Color_RGBA (mkFlags true false) c lexed_text
  | None => String_Constant no_flags lexed_text
  end.

(** [fold_operands(base, operands, op)] (parser.cpp:2831) *)
Definition fold_operands_op (base : Expression) (operands : list Expression)
    (o : Operand) : Expression :=
  fold_left (fun b x => Binary_Expression no_flags o b x) operands base.

Definition default_operand : Operand := mkOperand AND false false.

Definition schema_with_interpolants (e : Expression) : bool :=
  match e with
  | String_Schema _ elements => has_interpolants elements
  | _ => false
  end.

Definition is_binary (e : Expression) : bool :=
  match e with Binary_Expression _ _ _ _ => true | _ => false end.

Definition Sass_OP_eqb (a b : Sass_OP) : bool :=
  match a, b with
  | AND, AND | OR, OR | EQ, EQ | NEQ, NEQ | GT, GT | GTE, GTE | LT, LT | LTE, LTE
  | ADD, ADD | SUB, SUB | MUL, MUL | DIV, DIV | MOD, MOD => true
  | _, _ => false
  end.

(** The tail of [fold_operands]: "nested binary expression are never to be
    delayed". *)
Definition undelay_nested (base : Expression) : Expression :=
  match base with
  | Binary_Expression _ _ l r =>
      let base := if is_binary l then set_delayed false base else base in
      if is_binary r then set_delayed false base else base
  | _ => base
  end.

(** The [for] loop of [fold_operands]; [n] counts the operands left,
    [operands.size() - i], and [self] is the function itself. *)
Fixpoint fold_operands_loop
    (self : Expression -> list Expression -> list Operand -> nat -> Expression)
    (n : nat) (base : Expression) (operands : list Expression) (ops : list Operand)
    (i : nat) : Expression :=
  match n with
  | O => undelay_nested base
  | S n' =>
      let operand_i := nth i operands base in
      let op_i := nth i ops default_operand in
      if schema_with_interpolants operand_i then
        if Nat.ltb (i + 1) (List.length operands) then
          let rhs := self (nth (i + 1) operands base) operands ops (i + 2) in
          let rhs := Binary_Expression no_flags op_i operand_i rhs in
          Binary_Expression no_flags op_i base rhs
        else Binary_Expression no_flags op_i base operand_i
      else
        let b := Binary_Expression no_flags op_i base operand_i in
        let b := if Sass_OP_eqb (operand op_i) DIV && is_delayed base && is_delayed operand_i
                 then set_is_delayed true b else b in
        fold_operands_loop self n' b operands ops (i + 1)
  end.

Definition first_op_joins (ops : list Operand) : bool :=
  match operand (nth 0 ops default_operand) with
  | EQ | ADD | DIV | MUL | NEQ | LT | GT | LTE | GTE => true
  | _ => false
  end.

(** [fold_operands(base, operands, ops, i)] (parser.cpp:2839).  The
    recursion consumes at least one operand per call. *)
Fixpoint fold_operands_from (fuel : nat) (base : Expression) (operands : list Expression)
    (ops : list Operand) (i : nat) : Expression :=
  match fuel with
  | O => base
  | S fuel' =>
      if schema_with_interpolants base
         && Nat.ltb (i + 1) (List.length operands) && first_op_joins ops
      then
        let rhs := fold_operands_from fuel' (nth i operands base) operands ops (i + 1) in
        Binary_Expression no_flags (nth 0 ops default_operand) base rhs
      else
        fold_operands_loop (fold_operands_from fuel') (List.length operands - i)
                           base operands ops i
  end.

Definition fold_operands (base : Expression) (operands : list Expression)
    (ops : list Operand) : Expression :=
  fold_operands_from (S (List.length operands)) base operands ops 0.

End Values.

(* ================================================================= *)
(** ** The expression parser *)

Section Expressions.
Context {F : Foreign} {L : Lexicon} {X : Externals}.

(** [peek<m>(position)], [peek<m>()] and their [_css] variants as
    conditions. *)
Definition peek_pos (m : matcher) : M (option nat) :=
  fun p => Ok (peek_at m (Some (position p)) p) p.
Definition peek_css_pos (m : matcher) : M (option nat) :=
  fun p => Ok (peek_css_at m (Some (position p)) p) p.

Definition DELAYED : bool := true.

Definition expected_expression {A : Type} : M A :=
  css_error "Invalid CSS" " after " ": expected expression (e.g. 1px, bold), was " true.

(** [Parser::parse_string] (parser.cpp:1680) *)
Definition parse_string : M Expression :=
  p <- get ;; parse_interpolated_chunk (lexed p) false true.

(** [return lexed_hex_color(lexed)] *)
Definition return_hex_color : M Expression :=
  s <- get_lexed ;;
  match lexed_hex_color s with
  | Some c => ret c
  | None => throw (runtime_error "null colour")
  end.

(** [Parser::parse_value] (parser.cpp:1476).  The warning about [&&] has no
    effect on the result. *)
Definition parse_value : M Expression :=
  lex css_comments false false ;;;
  IfM lex ampersand true false Then ret (Parent_Reference no_flags) Else
  IfM lex kwd_important true false Then ret (String_Constant no_flags "!important") Else
  IfM lex (sequence [percentage; lookahead number]) true false
  Then (s <- get_lexed ;; ret (lexed_percentage s)) Else
  IfM lex (sequence [number; lookahead (sequence [op; number])]) true false
  Then (s <- get_lexed ;; ret (lexed_number s)) Else
  IfM lex (sequence [quoted_string; lookahead (exactly "-")]) true false
  Then parse_string Else
  stop <- peek value_schema None ;;
  match stop with
  | Some stop => parse_value_schema stop
  | None =>
  IfM lex quoted_string true false Then parse_string Else
  IfM lex kwd_true true false Then ret (Boolean no_flags true) Else
  IfM lex kwd_false true false Then ret (Boolean no_flags false) Else
  IfM lex kwd_null true false Then ret (Null no_flags) Else
  IfM lex identifier true false Then (s <- get_lexed ;; ret (color_or_string s)) Else
  IfM lex percentage true false Then (s <- get_lexed ;; ret (lexed_percentage s)) Else
  IfM lex (sequence [alternatives [hex; hex0]; negate (exactly "-")]) true false
  Then return_hex_color Else
  IfM lex hexa true false Then return_hex_color Else
  IfM lex (sequence [exactly "#"; identifier]) true false
  Then (s <- get_lexed ;; ret (String_Quoted no_flags s)) Else
  IfM lex (sequence [dimension;
                     optional (sequence [exactly "-"; lookahead (alternatives [space])])])
          true false
  Then (s <- get_lexed ;; ret (lexed_dimension s)) Else
  IfM lex (sequence [static_component; one_plus strict_identifier]) true false
  Then (s <- get_lexed ;; ret (String_Constant no_flags s)) Else
  IfM lex number true false Then (s <- get_lexed ;; ret (lexed_number s)) Else
  IfM lex variable true false
  Then (s <- get_lexed ;; ret (Variable_ no_flags (normalize_underscores s))) Else
  expected_expression
  end.

Definition expected_closing_paren {A : Type} : M A :=
  css_error "Invalid CSS" " after " (": expected " ++ dquote ++ ")" ++ dquote ++ ", was ") true.

Definition expected_colon {A : Type} : M A :=
  css_error "Invalid CSS" " after " (": expected " ++ dquote ++ ":" ++ dquote ++ ", was ") true.

Definition is_comma_list (e : Expression) : bool :=
  match e with
  | List_ _ _ SASS_COMMA _ _ => true
  | _ => false
  end.

Definition is_hash_list (e : Expression) : bool :=
  match e with
  | List_ _ _ SASS_HASH _ _ => true
  | _ => false
  end.

(** The operator of [parse_relation]: the first keyword that lexes. *)
Definition lex_relation_op : M Sass_OP :=
  IfM lex kwd_eq true false Then ret EQ Else
  IfM lex kwd_neq true false Then ret NEQ Else
  IfM lex kwd_gte true false Then ret GTE Else
  IfM lex kwd_lte true false Then ret LTE Else
  IfM lex kwd_gt true false Then ret GT Else
  IfM lex kwd_lt true false Then ret LT Else ret EQ.

(** The functions of the expression grammar call each other; [n] bounds the
    depth of the calls, and every loop is a function of its own whose
    accumulator holds the vector the C loop fills. *)
Fixpoint parse_list (n : nat) (delayed : bool) {struct n} : M Expression :=
  (* parser.cpp:1022 *)
  match n with
  | O => out_of_fuel
  | S n => NESTING_GUARD (parse_comma_list n delayed)
  end

with parse_comma_list (n : nat) (delayed : bool) {struct n} : M Expression :=
  (* parser.cpp:1029 *)
  match n with
  | O => out_of_fuel
  | S n =>
      NESTING_GUARD (
        IfM found (peek_css_pos list_terminator)
        Then ret (List_ no_flags [] SASS_SPACE false false)
        Else
          list <- parse_space_list n ;;
          IfM found (peek_css_pos (exactly ","))
          Then comma_list_loop n [list]
          Else ret (if delayed then list else set_delayed false list))
  end

with comma_list_loop (n : nat) (comma_list : list Expression) {struct n} : M Expression :=
  match n with
  | O => out_of_fuel
  | S n =>
      IfM lex_css (exactly ",")
      Then IfM found (peek_css_pos list_terminator)
           Then ret (List_ no_flags comma_list SASS_COMMA false false)
           Else (e <- parse_space_list n ;; comma_list_loop n (comma_list ++ [e]))
      Else ret (List_ no_flags comma_list SASS_COMMA false false)
  end

with parse_space_list (n : nat) {struct n} : M Expression :=
  (* parser.cpp:1069 *)
  match n with
  | O => out_of_fuel
  | S n =>
      NESTING_GUARD (
        disj1 <- parse_disjunction n ;;
        IfM found (peek_css_pos space_list_terminator)
        Then ret disj1
        Else space_list_loop n [disj1])
  end

with space_list_loop (n : nat) (space_list : list Expression) {struct n} : M Expression :=
  match n with
  | O => out_of_fuel
  | S n =>
      terminated <- found (peek_css_pos space_list_terminator) ;;
      rest <- peek_css optional_css_whitespace None ;;
      p <- get ;;
      let at_end := match rest with
                    | Some e => Nat.eqb e (end_ p)
                    | None => false
                    end in
      if negb terminated && negb at_end
      then (e <- parse_disjunction n ;; space_list_loop n (space_list ++ [e]))
      else ret (List_ no_flags space_list SASS_SPACE false false)
  end

with parse_disjunction (n : nat) {struct n} : M Expression :=
  (* parser.cpp:1094 *)
  match n with
  | O => out_of_fuel
  | S n =>
      NESTING_GUARD (
        advanceToNextToken ;;;
        conj <- parse_conjunction n ;;
        operands <- disjunction_loop n [] ;;
        match operands with
        | [] => ret conj
        | _ => ret (fold_operands_op conj operands (mkOperand OR false false))
        end)
  end

with disjunction_loop (n : nat) (operands : list Expression) {struct n}
    : M (list Expression) :=
  match n with
  | O => out_of_fuel
  | S n =>
      IfM lex_css kwd_or
      Then (e <- parse_conjunction n ;; disjunction_loop n (operands ++ [e]))
      Else ret operands
  end

with parse_conjunction (n : nat) {struct n} : M Expression :=
  (* parser.cpp:1116 *)
  match n with
  | O => out_of_fuel
  | S n =>
      NESTING_GUARD (
        advanceToNextToken ;;;
        rel <- parse_relation n ;;
        operands <- conjunction_loop n [] ;;
        match operands with
        | [] => ret rel
        | _ => ret (fold_operands_op rel operands (mkOperand AND false false))
        end)
  end

with conjunction_loop (n : nat) (operands : list Expression) {struct n}
    : M (list Expression) :=
  match n with
  | O => out_of_fuel
  | S n =>
      IfM lex_css kwd_and
      Then (e <- parse_relation n ;; conjunction_loop n (operands ++ [e]))
      Else ret operands
  end

with parse_relation (n : nat) {struct n} : M Expression :=
  (* parser.cpp:1139 *)
  match n with
  | O => out_of_fuel
  | S n =>
      NESTING_GUARD (
        advanceToNextToken ;;;
        lhs <- parse_expression n ;;
        folded <- relation_loop n [] [] ;;
        ret (fold_operands lhs (fst folded) (snd folded)))
  end

with relation_loop (n : nat) (operands : list Expression) (operators : list Operand)
    {struct n} : M (list Expression * list Operand) :=
  match n with
  | O => out_of_fuel
  | S n =>
      IfM found (peek_pos (alternatives [kwd_eq; kwd_neq; kwd_gte; kwd_gt; kwd_lte; kwd_lt]))
      Then (left_ws <- found (peek css_comments None) ;;
            o <- lex_relation_op ;;
            right_ws <- found (peek css_comments None) ;;
            e <- parse_expression n ;;
            relation_loop n (operands ++ [e]) (operators ++ [mkOperand o left_ws right_ws]))
      Else ret (operands, operators)
  end

with parse_expression (n : nat) {struct n} : M Expression :=
  (* parser.cpp:1192 *)
  match n with
  | O => out_of_fuel
  | S n =>
      NESTING_GUARD (
        advanceToNextToken ;;;
        lhs <- parse_operators n ;;
        plus <- found (peek_css_pos (exactly "+")) ;;
        tight <- found (peek_pos no_spaces) ;;
        minus_tight <- found (peek_pos (sequence [negate unsigned_number; exactly "-";
                                                  negate space])) ;;
        minus <- found (peek_pos (sequence [negate unsigned_number; exactly "-";
                                            negate unsigned_number])) ;;
        dashed_identifier <- found (peek_pos (sequence [zero_plus (exactly "-");
                                                        identifier])) ;;
        if negb (plus || (tight && minus_tight) || minus) || dashed_identifier
        then ret lhs
        else
          left_ws <- found (peek css_comments None) ;;
          folded <- expression_loop n left_ws [] [] ;;
          match fst folded with
          | [] => ret lhs
          | _ => ret (fold_operands lhs (fst folded) (snd folded))
          end)
  end

with expression_loop (n : nat) (left_ws : bool) (operands : list Expression)
    (operators : list Operand) {struct n} : M (list Expression * list Operand) :=
  match n with
  | O => out_of_fuel
  | S n =>
      IfM (IfM lex_css (exactly "+") Then ret true Else
           IfM found (peek_css_pos (sequence [zero_plus (exactly "-"); identifier]))
           Then ret false
           Else lex_css (sequence [negate digit; exactly "-"]))
      Then (right_ws <- found (peek css_comments None) ;;
            s <- get_lexed ;;
            let o := mkOperand (if String.eqb s "+" then ADD else SUB) left_ws right_ws in
            e <- parse_operators n ;;
            left_ws <- found (peek css_comments None) ;;
            expression_loop n left_ws (operands ++ [e]) (operators ++ [o]))
      Else ret (operands, operators)
  end

with parse_operators (n : nat) {struct n} : M Expression :=
  (* parser.cpp:1236 *)
  match n with
  | O => out_of_fuel
  | S n =>
      NESTING_GUARD (
        advanceToNextToken ;;;
        factor <- parse_factor n ;;
        left_ws <- found (peek css_comments None) ;;
        folded <- operators_loop n left_ws [] [] ;;
        ret (fold_operands factor (fst folded) (snd folded)))
  end

with operators_loop (n : nat) (left_ws : bool) (operands : list Expression)
    (operators : list Operand) {struct n} : M (list Expression * list Operand) :=
  match n with
  | O => out_of_fuel
  | S n =>
      IfM lex_css (class_char static_ops)
      Then (right_ws <- found (peek css_comments None) ;;
            p <- get ;;
            let c := deref (source p) (tk_begin (lexed p)) in
            o <- (if Ascii.eqb c "*"%char then ret MUL
                  else if Ascii.eqb c "/"%char then ret DIV
                  else if Ascii.eqb c "%"%char then ret MOD
                  else throw (runtime_error "unknown static op parsed")) ;;
            e <- parse_factor n ;;
            left_ws' <- found (peek css_comments None) ;;
            operators_loop n left_ws' (operands ++ [e])
                           (operators ++ [mkOperand o left_ws right_ws]))
      Else ret (operands, operators)
  end

with parse_factor (n : nat) {struct n} : M Expression :=
  (* parser.cpp:1269 *)
  match n with
  | O => out_of_fuel
  | S n =>
      let unary (t : Unary_Type) : M Expression :=
        operand <- parse_factor n ;;
        ret (Unary_Expression (mkFlags (is_delayed operand) false) t operand) in
      NESTING_GUARD (
        lex css_comments false false ;;;
        IfM lex_css (exactly "(")
        Then (value <- parse_map n ;;
              IfM lex_css (exactly ")") Then ret value Else error "unclosed parenthesis")
        Else
        IfM lex_css (exactly "[")
        Then (value <- parse_bracket_list n ;;
              IfM lex_css (exactly "]") Then ret value Else error "unclosed squared bracket")
        Else
        IfM found (peek ie_property None) Then parse_ie_property Else
        IfM found (peek ie_keyword_arg None) Then parse_ie_keyword_arg Else
        IfM found (peek (sequence [calc_fn_call; exactly "("]) None)
        Then parse_calc_function Else
        IfM lex functional_schema true false Then parse_function_call_schema n Else
        IfM lex identifier_schema true false
        Then (str <- parse_identifier_schema ;;
              match str with
              | String_Schema fl elements =>
                  IfM lex (exactly "(") true false
                  Then (l <- parse_list n false ;;
                        lex (exactly ")") true false ;;;
                        ret (String_Schema fl (elements ++ [l])))
                  Else ret str
              | _ => ret str
              end)
        Else
        IfM found (peek (sequence [uri_prefix; W; real_uri_value]) None)
        Then parse_url_function_string Else
        IfM found (peek re_functional None) Then parse_function_call n Else
        IfM lex (exactly "+") true false Then unary PLUS Else
        IfM lex (exactly "-") true false Then unary MINUS Else
        IfM lex (exactly "/") true false Then unary SLASH Else
        IfM lex (sequence [kwd_not]) true false Then unary NOT Else
        parse_value)
  end

with parse_map (n : nat) {struct n} : M Expression :=
  (* parser.cpp:931 *)
  match n with
  | O => out_of_fuel
  | S n =>
      NESTING_GUARD (
        key <- parse_list n false ;;
        IfM lex_css (exactly ":")
        Then (if is_comma_list key then expected_closing_paren
              else
                value <- parse_space_list n ;;
                map_loop n [key; value])
        Else ret key)
  end

with map_loop (n : nat) (map : list Expression) {struct n} : M Expression :=
  match n with
  | O => out_of_fuel
  | S n =>
      IfM lex_css (exactly ",")
      Then IfM found (peek_css_pos (exactly ")"))
           Then ret (List_ no_flags map SASS_HASH false false)
           Else (key <- parse_space_list n ;;
                 IfM lex (exactly ":") true false
                 Then (value <- parse_space_list n ;;
                       map_loop n (map ++ [key; value]))
                 Else expected_colon)
      Else ret (List_ no_flags map SASS_HASH false false)
  end

with parse_bracket_list (n : nat) {struct n} : M Expression :=
  (* parser.cpp:975 *)
  match n with
  | O => out_of_fuel
  | S n =>
      NESTING_GUARD (
        IfM found (peek_css_pos list_terminator)
        Then ret (List_ no_flags [] SASS_SPACE false true)
        Else
          has_paren <- found (peek_css (exactly "(") None) ;;
          list <- parse_space_list n ;;
          IfM found (peek_css_pos (exactly ","))
          Then bracket_list_loop n [list]
          Else match list with
               | List_ fl elements sep arglist bracketed =>
                   if bracketed || has_paren
                   then ret (List_ no_flags [list] SASS_SPACE false true)
                   else ret (List_ fl elements sep arglist true)
               | _ => ret (List_ no_flags [list] SASS_SPACE false true)
               end)
  end

with bracket_list_loop (n : nat) (bracketed_list : list Expression) {struct n}
    : M Expression :=
  match n with
  | O => out_of_fuel
  | S n =>
      IfM lex_css (exactly ",")
      Then IfM found (peek_css_pos list_terminator)
           Then ret (List_ no_flags bracketed_list SASS_COMMA false true)
           Else (e <- parse_space_list n ;; bracket_list_loop n (bracketed_list ++ [e]))
      Else ret (List_ no_flags bracketed_list SASS_COMMA false true)
  end

with parse_function_call (n : nat) {struct n} : M Expression :=
  (* parser.cpp:1991 *)
  match n with
  | O => out_of_fuel
  | S n =>
      lex identifier true false ;;;
      name <- get_lexed ;;
      p <- get ;;
      if String.eqb (normalize_underscores name) "content-exists" && back_is_not Mixin p
      then error "Cannot call content-exists() except within a mixin."
      else
        args <- parse_arguments n ;;
        ret (Function_Call no_flags name args)
  end

with parse_function_call_schema (n : nat) {struct n} : M Expression :=
  (* parser.cpp:2004 *)
  match n with
  | O => out_of_fuel
  | S n =>
      name <- parse_identifier_schema ;;
      args <- parse_arguments n ;;
      ret (Function_Call_Schema no_flags name args)
  end

with parse_arguments (n : nat) {struct n} : M (list Argument) :=
  (* parser.cpp:440 *)
  match n with
  | O => out_of_fuel
  | S n =>
      IfM lex_css (exactly "(")
      Then (args <- (IfM found (peek_css (exactly ")") None)
                     Then ret []
                     Else arguments_loop n []) ;;
            IfM lex_css (exactly ")") Then ret args Else expected_expression)
      Else ret []
  end

with arguments_loop (n : nat) (args : list Argument) {struct n} : M (list Argument) :=
  match n with
  | O => out_of_fuel
  | S n =>
      IfM found (peek (exactly ")") None)
      Then ret args
      Else (a <- parse_argument n ;;
            IfM lex_css (exactly ",")
            Then arguments_loop n (args ++ [a])
            Else ret (args ++ [a]))
  end

with parse_argument (n : nat) {struct n} : M Argument :=
  (* parser.cpp:458 *)
  match n with
  | O => out_of_fuel
  | S n =>
      IfM found (peek (alternatives [exactly ","; exactly "{"; exactly ";"]) None)
      Then expected_closing_paren Else
      IfM found (peek_css (sequence [exactly hash_lbrace; exactly rbrace]) None)
      Then (modify (fun p => set_position (position p + 2) p) ;;; expected_expression)
      Else
      IfM found (peek_css (sequence [variable; optional_css_comments; exactly ":"]) None)
      Then (lex_css variable ;;;
            name <- get_lexed ;;
            lex_css (exactly ":") ;;;
            val <- parse_space_list n ;;
            ret (Argument_ val (normalize_underscores name) false false))
      Else (val <- parse_space_list n ;;
            IfM lex_css (exactly ellipsis)
            Then (if is_hash_list val
                  then ret (Argument_ val "" false true)
                  else ret (Argument_ val "" true false))
            Else ret (Argument_ val "" false false))
  end.

End Expressions.

(* ================================================================= *)
(** ** The look-ahead oracle *)

(** [struct Lookahead] (parser.hpp); a null pointer is [None]. *)
Record Lookahead : Type := mkLookahead {
  la_found : option nat;
  la_error : option nat;
  la_position : option nat;
  la_parsable : bool;
  la_has_interpolants : bool;
  la_is_custom_property : bool
}.

Section Lookaheads.
Context {F : Foreign} {L : Lexicon} {X : Externals}.

Definition is_some {A : Type} (x : option A) : bool :=
  match x with Some _ => true | None => false end.

(** The scan of [lookahead_for_selector] over the bytes between [p] and
    [q]: [(has_interpolants, is_custom_property)]. *)
Fixpoint selector_scan (pr : Parser) (n : nat) (p q : nat)
    (could_be_property could_be_escaped is_custom_property : bool) : bool * bool :=
  match n with
  | O => (false, is_custom_property)
  | S n' =>
      if Ascii.eqb (deref (source pr) p) "#"%char
         && Ascii.eqb (deref (source pr) (p + 1)) "{"%char
      then (true, is_custom_property)
      else
        let is_custom_property :=
          if Ascii.eqb (deref (source pr) p) ":"%char && negb could_be_escaped
          then could_be_property || Nat.eqb (p + 1) q
               || is_some (peek_at space (Some (p + 1)) pr)
          else is_custom_property in
        selector_scan pr n' (p + 1) q could_be_property
                      (Ascii.eqb (deref (source pr) p) "\"%char) is_custom_property
  end.

(** [Parser::lookahead_for_selector] (parser.cpp:2621) *)
Definition lookahead_for_selector (start : option nat) : M Lookahead :=
  pr <- get ;;
  let p := match start with Some s => s | None => position pr end in
  q <- peek re_selector_list (Some p) ;;
  match q with
  | Some q =>
      could_be_property <- found (peek (sequence [exactly "-"; exactly "-"]) (Some p)) ;;
      let scanned := selector_scan pr (q - p) p q could_be_property false false in
      brace <- found (peek (exactly "{") (Some q)) ;;
      paren <- found (peek (exactly "(") (Some q)) ;;
      let rv_found := if brace || paren then Some q else None in
      let rv_error := if is_some rv_found || Ascii.eqb (deref (source pr) q) NUL
                      then None else Some q in
      ret (mkLookahead rv_found rv_error (Some q) (negb (fst scanned))
                       (fst scanned) (snd scanned))
  | None => ret (mkLookahead None (Some p) None true false false)
  end.

(** [Parser::lookahead_for_include] (parser.cpp:2676) *)
Definition lookahead_for_include (start : option nat) : M Lookahead :=
  rv <- lookahead_for_selector start ;;
  match la_position rv with
  | Some p =>
      semicolon <- found (peek (exactly ";") (Some p)) ;;
      closing <- found (peek (exactly "}") (Some p)) ;;
      if semicolon || closing
      then ret (mkLookahead (Some p) (la_error rv) (la_position rv) (la_parsable rv)
                            (la_has_interpolants rv) (la_is_custom_property rv))
      else ret rv
  | None => ret rv
  end.

(** The scan of [lookahead_for_value]: is there a [#{] between [p] and [q]? *)
Fixpoint value_scan (pr : Parser) (n : nat) (p : nat) : bool :=
  match n with
  | O => false
  | S n' =>
      if Ascii.eqb (deref (source pr) p) "#"%char
         && Ascii.eqb (deref (source pr) (p + 1)) "{"%char
      then true
      else value_scan pr n' (p + 1)
  end.

Definition value_lookahead : matcher :=
  non_greedy
    (alternatives [block_comment;
                   sequence [interpolant; optional quoted_string];
                   identifier;
                   variable;
                   sequence [parenthese_scope; interpolant; optional quoted_string]])
    (sequence [alternatives [exactly "{"; exactly "}"; exactly ";"]]).

(** [Parser::lookahead_for_value] (parser.cpp:2695) *)
Definition lookahead_for_value (start : option nat) : M Lookahead :=
  pr <- get ;;
  let p := match start with Some s => s | None => position pr end in
  q <- peek value_lookahead (Some p) ;;
  match q with
  | Some q =>
      if Nat.eqb p q then ret (mkLookahead None None None false false false)
      else
        let has_interpolants := value_scan pr (q - p) p in
        brace <- found (peek (exactly "{") (Some q)) ;;
        semicolon <- found (peek (exactly ";") (Some q)) ;;
        closing <- found (peek (exactly "}") (Some q)) ;;
        ret (mkLookahead (if brace || semicolon || closing then Some q else None)
                         None (Some q) false has_interpolants false)
  | None => ret (mkLookahead None None None false false false)
  end.

End Lookaheads.

(* ================================================================= *)
(** ** The statement parser *)

Section Statements.
Context {F : Foreign} {L : Lexicon} {X : Externals}.

Definition css_error_expected {A : Type} (what : string) : M A :=
  css_error "Invalid CSS" " after " (": expected " ++ what ++ ", was ") true.

Definition quoted (s : string) : string := dquote ++ s ++ dquote.

(** [while (lex< m >());] *)
Fixpoint lex_while (n : nat) (m : matcher) : M unit :=
  match n with
  | O => out_of_fuel
  | S n => IfM lex m true false Then lex_while n m Else ret tt
  end.

(** [Parser::parse_block_comments] (parser.cpp:865) *)
Fixpoint parse_block_comments (n : nat) (store : bool) : M unit :=
  match n with
  | O => out_of_fuel
  | S n =>
      IfM lex block_comment true false
      Then (p <- get ;;
            let is_important :=
              Ascii.eqb (deref (source p) (tk_begin (lexed p) + 2)) "!"%char in
            contents <- parse_interpolated_chunk (lexed p) true false ;;
            (if store then append_to_block (Comment contents is_important) else ret tt) ;;;
            parse_block_comments n store)
      Else ret tt
  end.

(** [Parser::parse_charset_directive] (parser.cpp:630) *)
Definition parse_charset_directive : M unit :=
  lex (sequence [quoted_string; optional_spaces; exactly ";"]) true false ;;; ret tt.

(** The scope test of [parse_warning], [parse_error] and [parse_debug]
    (parser.cpp:2577-2611). *)
Definition check_not_in_properties : M unit :=
  p <- get ;;
  if back_is_not Root p && back_is_not Function p && back_is_not Mixin p
     && back_is_not Control p && back_is_not Rules p
  then error "Illegal nesting: Only properties may be nested beneath properties."
  else ret tt.

Definition parse_warning (n : nat) : M Statement :=
  check_not_in_properties ;;; e <- parse_list n DELAYED ;; ret (Warning e).

Definition parse_error (n : nat) : M Statement :=
  check_not_in_properties ;;; e <- parse_list n DELAYED ;; ret (Error_ e).

Definition parse_debug (n : nat) : M Statement :=
  check_not_in_properties ;;; e <- parse_list n DELAYED ;; ret (Debug_ e).

(** [Parser::parse_return_directive] (parser.cpp:2613) *)
Definition parse_return_directive (n : nat) : M Statement :=
  IfM found (peek_css (alternatives [exactly ";"; exactly "}"; end_of_file]) None)
  Then expected_expression
  Else (e <- parse_list n false ;; ret (Return e)).

(** [Parser::lex_variable] (parser.cpp:2063) *)
Definition lex_variable : M unit :=
  IfM found (peek (exactly "$") None)
  Then IfM lex (sequence [exactly "$"; identifier]) true false
       Then ret tt
       Else (lex (exactly "$") true false ;;; css_error_expected "identifier")
  Else css_error_expected (quoted "$").

(** The flags of an assignment (parser.cpp:510-513). *)
Fixpoint assignment_flags (n : nat) (is_default is_global : bool) : M (bool * bool) :=
  match n with
  | O => out_of_fuel
  | S n =>
      IfM found (peek (alternatives [default_flag; global_flag]) None)
      Then IfM lex default_flag true false Then assignment_flags n true is_global Else
           IfM lex global_flag true false Then assignment_flags n is_default true Else
           assignment_flags n is_default is_global
      Else ret (is_default, is_global)
  end.

(** [Parser::parse_assignment] (parser.cpp:493) *)
Definition parse_assignment (n : nat) : M Statement :=
  s <- get_lexed ;;
  let name := normalize_underscores s in
  IfM lex (exactly ":") true false
  Then
    IfM found (peek_css (alternatives [exactly ";"; end_of_file]) None)
    Then expected_expression
    Else
      pos <- here ;;
      lookahead <- lookahead_for_value pos ;;
      val <- match la_found lookahead with
             | Some stop => if la_has_interpolants lookahead
                            then parse_value_schema stop
                            else parse_list n false
             | None => parse_list n false
             end ;;
      fl <- assignment_flags n false false ;;
      ret (Assignment name val (fst fl) (snd fl))
  Else error ("expected ':' after " ++ name ++ " in assignment statement").

(** [Parser::parse_parameter] (parser.cpp:418) *)
Definition parse_parameter (n : nat) : M Parameter_ :=
  IfM found (peek (alternatives [exactly ","; exactly "{"; exactly ";"]) None)
  Then css_error_expected "variable (e.g. $foo)"
  Else
    lex_while n (alternatives [spaces; block_comment]) ;;;
    lex variable true false ;;;
    s <- get_lexed ;;
    let name := normalize_underscores s in
    lex_while n (alternatives [spaces; block_comment]) ;;;
    IfM lex (exactly ":") true false
    Then (lex_while n block_comment ;;;
          val <- parse_space_list n ;;
          ret (mkParameter name (Some val) false))
    Else IfM lex (exactly ellipsis) true false
         Then ret (mkParameter name None true)
         Else ret (mkParameter name None false).

Fixpoint parameters_loop (n : nat) (params : list Parameter_) : M (list Parameter_) :=
  match n with
  | O => out_of_fuel
  | S n =>
      IfM found (peek (exactly ")") None)
      Then ret params
      Else (a <- parse_parameter n ;;
            IfM lex_css (exactly ",")
            Then parameters_loop n (params ++ [a])
            Else ret (params ++ [a]))
  end.

(** [Parser::parse_parameters] (parser.cpp:400) *)
Definition parse_parameters (n : nat) : M (list Parameter_) :=
  IfM lex_css (exactly "(")
  Then (params <- (IfM found (peek_css (exactly ")") None)
                   Then ret []
                   Else parameters_loop n []) ;;
        IfM lex_css (exactly ")") Then ret params Else css_error_expected (quoted ")"))
  Else ret [].

(** The [do ... while] of [parse_import] (parser.cpp:332-363): the list of
    targets, a quoted path or a [url(...)] call each. *)
Fixpoint import_targets (n : nat) (first : bool)
    (to_import : list (string * option Expression))
    : M (list (string * option Expression)) :=
  match n with
  | O => out_of_fuel
  | S n =>
      let next (acc : list (string * option Expression)) :=
        IfM lex_css (exactly ",") Then import_targets n false acc Else ret acc in
      lex_while n block_comment ;;;
      IfM lex quoted_string true false
      Then (s <- get_lexed ;; next (to_import ++ [(s, None)]))
      Else
      IfM lex uri_prefix true false
      Then (arg <- (IfM lex quoted_string true false
                    Then parse_string
                    Else (string_url <- parse_url_function_argument ;;
                          match string_url with
                          | Some u => ret u
                          | None =>
                              IfM found (peek_pos (skip_over_scopes (exactly "(")
                                                                    (exactly ")")))
                              Then parse_list n false
                              Else error "malformed URL"
                          end)) ;;
            IfM lex (exactly ")") true false
            Then next (to_import ++
                       [("", Some (Function_Call no_flags "url"
                                                 [Argument_ arg "" false false]))])
            Else error "URI is missing ')'")
      Else if first
           then error "@import directive requires a url or quoted path"
           else error "expecting another url or quoted path in @import list"
  end.

(** The [for] loop of [parse_import] (parser.cpp:370-379). *)
Fixpoint resolve_imports (to_import : list (string * option Expression))
    (imp : Import_) : M Import_ :=
  match to_import with
  | [] => ret imp
  | (_, Some url) :: rest =>
      resolve_imports rest (mkImport (urls imp ++ [url]) (incs imp) (import_queries imp))
  | (path, None) :: rest =>
      taken <- call_importers (unquote path) imp ;;
      if fst taken then resolve_imports rest (snd taken)
      else (imp' <- import_url (snd taken) path ;; resolve_imports rest imp')
  end.

(** [Parser::parse_import] (parser.cpp:327) *)
Definition parse_import (n : nat) : M Import_ :=
  to_import <- import_targets n true [] ;;
  queries <- (IfM found (peek_css (alternatives [exactly ";"; exactly "}"; end_of_file]) None)
              Then ret None
              Else (q <- parse_media_queries ;; ret (Some q))) ;;
  resolve_imports to_import (mkImport [] [] queries).

(** Modelled from the spec: [Token::time_wspace] (not among the sources):
    the text of the token without its trailing white-space; the comment in
    [parse_static_value] says that a static value ends in white-space and
    the delimiter. *)
Fixpoint rtrim (s : string) : string :=
  match s with
  | EmptyString => EmptyString
  | String c s' =>
      match rtrim s' with
      | EmptyString => if ascii_isspace c then EmptyString else String c EmptyString
      | t => String c t
      end
  end.

(** [Parser::parse_static_value] (parser.cpp:1666): the delimiter the match
    of [static_value] ends with is given back. *)
Definition parse_static_value : M Expression :=
  lex static_value true false ;;;
  p <- get ;;
  let str := mkToken (tk_prefix (lexed p)) (tk_begin (lexed p)) (tk_end (lexed p) - 1) in
  modify (fun p =>
    mkParser (ctx p) (block_stack p) (stack p) (source p) (position p - 1) (end_ p)
             (before_token p)
             (mkOffset (line (after_token p)) (column (after_token p) - 1))
             (mkParserState (ps_position (pstate p))
                            (mkOffset (line (ps_offset (pstate p)))
                                      (column (ps_offset (pstate p)) - 1)))
             (indentation p) (nestings p) (allow_parent p) (lexed p)) ;;;
  ret (color_or_string (rtrim (slice (source p) (tk_begin str) (tk_end str)))).

Definition is_double_dash (property : string) : bool := String.eqb (substr property 0 2) "--".

(** [Parser::parse_declaration] (parser.cpp:877).  The result carries the
    [is_indented] flag; [tabs] and [block] are filled in by the caller. *)
Definition parse_declaration (n : nat) : M Statement :=
  head <- (IfM lex (sequence [optional (exactly "*"); identifier_schema]) true false
           Then (property <- get_lexed ;;
                 prop <- parse_identifier_schema ;;
                 ret (is_double_dash property, prop))
           Else
           IfM lex (sequence [optional (exactly "*"); identifier; zero_plus block_comment])
                   true false
           Then (property <- get_lexed ;;
                 ret (is_double_dash property, String_Constant no_flags property))
           Else css_error_expected (quoted "}")) ;;
  let is_custom_property := fst head in
  let prop := snd head in
  property <- get_lexed ;;
  IfM lex_css (one_plus (exactly ":"))
  Then
    p <- get ;;
    if negb is_custom_property
       && is_some (match_ (sequence [optional_css_comments; exactly ";"]) p)
    then error "style declaration must contain a value"
    else
      let is_indented :=
        negb (is_some (match_ (sequence [optional_css_comments; exactly "{"]) p)) in
      if is_custom_property
      then (v <- parse_css_variable_value ;; ret (Declaration prop v true false 0 None))
      else
        lex css_comments false false ;;;
        IfM found (peek_css static_value None)
        Then (v <- parse_static_value ;; ret (Declaration prop v false false 0 None))
        Else
          pos <- here ;;
          lookahead <- lookahead_for_value pos ;;
          value <- match la_found lookahead with
                   | Some stop =>
                       if la_has_interpolants lookahead
                       then parse_value_schema stop
                       else parse_list n DELAYED
                   | None =>
                       value <- parse_list n DELAYED ;;
                       brace <- found (peek (exactly "{") None) ;;
                       match value with
                       | List_ _ [] _ _ false =>
                           if negb brace then expected_expression else ret value
                       | _ => ret value
                       end
                   end ;;
          lex css_comments false false ;;;
          ret (Declaration prop value false is_indented 0 None)
  Else error ("property " ++ quoted (escape_string property) ++ " must be followed by a ':'").

(** [LOCAL_FLAG(allow_parent, b)]: the flag is set for the extent of the
    call. *)
Definition LOCAL_FLAG_allow_parent {A : Type} (b : bool) (body : M A) : M A :=
  fun p =>
    match body (set_allow_parent b p) with
    | Ok a p' => Ok a (set_allow_parent (allow_parent p) p')
    | Err e => Err e
    | Fuel => Fuel
    end.

(** The [@extend] branch of [parse_block_node] (parser.cpp:250-270). *)
Definition parse_extend : M Statement :=
  pos <- here ;;
  lookahead <- lookahead_for_include pos ;;
  match la_found lookahead with
  | None => css_error_expected "selector"
  | Some stop =>
      if negb (la_has_interpolants lookahead)
      then LOCAL_FLAG_allow_parent false
             (selector <- parseSelectorList true ;;
              ret (ExtendRule selector (selector_is_optional selector)))
      else LOCAL_FLAG_allow_parent false
             (selector <- parse_selector_schema stop true ;;
              ret (ExtendRule selector false))
  end.

Definition set_declaration_block (tabs : nat) (b : option Block) (d : Statement) : Statement :=
  match d with
  | Declaration prop v c i _ _ => Declaration prop v c i tabs b
  | _ => d
  end.

Definition declaration_is_indented (d : Statement) : bool :=
  match d with
  | Declaration _ _ _ i _ _ => i
  | _ => false
  end.

(** The functions of the block grammar.  A node that [parse_block_node]
    appends is appended to the block on top of [block_stack]; the nested
    parsers leave that stack as they found it.  [n] bounds the depth of the
    calls. *)
Fixpoint parse_block_nodes (n : nat) (is_root : bool) {struct n} : M bool :=
  (* parser.cpp:175 *)
  match n with
  | O => out_of_fuel
  | S n =>
      p <- get ;;
      if Nat.ltb (position p) (end_ p) then
        parse_block_comments n true ;;;
        lex css_whitespace true false ;;;
        IfM lex (exactly ";") true false Then parse_block_nodes n is_root Else
        IfM found (peek end_of_file None) Then ret true Else
        IfM found (peek (exactly "}") None) Then ret true Else
        IfM parse_block_node n is_root Then parse_block_nodes n is_root Else
        parse_block_comments n true ;;;
        IfM lex_css (exactly ";") Then parse_block_nodes n is_root Else
        IfM found (peek_css end_of_file None) Then ret true Else
        IfM found (peek_css (exactly "}") None) Then ret true Else
        ret false
      else ret true
  end

with parse_block_node (n : nat) (is_root : bool) {struct n} : M bool :=
  (* parser.cpp:206 *)
  match n with
  | O => out_of_fuel
  | S n =>
      let append (c : M Statement) : M bool :=
        s <- c ;; append_to_block s ;;; ret true in
      parse_block_comments n true ;;;
      lex css_whitespace true false ;;;
      IfM lex variable true false Then append (parse_assignment n) Else
      IfM lex kwd_err true false Then append (parse_error n) Else
      IfM lex kwd_dbg true false Then append (parse_debug n) Else
      IfM lex kwd_warn true false Then append (parse_warning n) Else
      IfM lex kwd_if_directive true false Then append (parse_if_directive n false) Else
      IfM lex kwd_for_directive true false Then append (parse_for_directive n) Else
      IfM lex kwd_each_directive true false Then append (parse_each_directive n) Else
      IfM lex kwd_while_directive true false Then append (parse_while_directive n) Else
      IfM lex kwd_return_directive true false Then append (parse_return_directive n) Else
      IfM lex kwd_import true false
      Then (p <- get ;;
            let parent := match stack_back p with Some s => s | None => Rules end in
            uri <- found (peek_css_pos uri_prefix) ;;
            if negb (Scope_eqb parent Function) && negb (Scope_eqb parent Root)
               && negb (Scope_eqb parent Rules) && negb (Scope_eqb parent Media)
               && negb uri
            then error "Import directives may not be used within control directives or mixins."
            else
              imp <- parse_import n ;;
              (match urls imp with
               | [] => ret tt
               | _ => append_to_block (Import_Statement imp)
               end) ;;;
              fold_left (fun acc inc => acc ;;; append_to_block (Import_Stub inc))
                        (incs imp) (ret tt) ;;;
              ret true)
      Else
      IfM lex kwd_extend true false Then append parse_extend Else
      pos <- here ;;
      lookahead_result <- lookahead_for_selector pos ;;
      if negb (is_some (la_error lookahead_result))
         && negb (la_is_custom_property lookahead_result)
      then append (parse_ruleset n lookahead_result)
      else
      IfM lex kwd_media true false Then append parseMediaRule Else
      IfM lex kwd_at_root true false Then append parse_at_root_block Else
      IfM lex kwd_include_directive true false Then append parse_include_directive Else
      IfM lex kwd_content_directive true false Then append parse_content_directive Else
      IfM lex kwd_supports_directive true false Then append parse_supports_directive Else
      IfM lex kwd_mixin true false Then append (parse_definition n MIXIN) Else
      IfM lex kwd_function true false Then append (parse_definition n FUNCTION) Else
      IfM lex kwd_charset_directive true false Then (parse_charset_directive ;;; ret true) Else
      IfM lex (exactly else_kwd) true false
      Then error "Invalid CSS: @else must come after @if" Else
      IfM lex at_keyword true false Then append parse_directive Else
      p <- get ;;
      if is_root && back_is_not AtRoot p
      then (lex css_whitespace true false ;;;
            p <- get ;;
            if Nat.leb (end_ p) (position p) then ret true
            else css_error_expected "1 selector or at-rule")
      else
        decl <- parse_declaration n ;;
        p <- get ;;
        IfM found (peek (exactly "{") None)
        Then ((if declaration_is_indented decl
               then modify (fun p => set_indentation (S (indentation p)) p)
               else ret tt) ;;;
              push_scope Properties ;;;
              b <- parse_block n false ;;
              pop_scope ;;;
              (if declaration_is_indented decl
               then modify (fun p => set_indentation (indentation p - 1) p)
               else ret tt) ;;;
              append_to_block (set_declaration_block (indentation p) (Some b) decl) ;;;
              ret true)
        Else (append_to_block (set_declaration_block (indentation p) None decl) ;;;
              ret true)
  end

with parse_css_block (n : nat) (is_root : bool) {struct n} : M Block :=
  (* parser.cpp:132 *)
  match n with
  | O => out_of_fuel
  | S n =>
      IfM lex_css (exactly "{")
      Then (push_block (Block_ [] is_root) ;;;
            IfM parse_block_nodes n is_root
            Then IfM lex_css (exactly "}")
                 Then pop_block
                 Else css_error_expected (quoted "}")
            Else css_error_expected (quoted "}"))
      Else css_error_expected (quoted "{")
  end

with parse_block (n : nat) (is_root : bool) {struct n} : M Block :=
  (* parser.cpp:168 *)
  match n with
  | O => out_of_fuel
  | S n => parse_css_block n is_root
  end

with parse_ruleset (n : nat) (lookahead : Lookahead) {struct n} : M Statement :=
  (* parser.cpp:518 *)
  match n with
  | O => out_of_fuel
  | S n =>
      NESTING_GUARD (
        p <- get ;;
        let is_root := back_is_root p in
        lex optional_css_whitespace false true ;;;
        sel <- (if la_parsable lookahead
                then (s <- parseSelectorList false ;; ret (Some s, None))
                else (sc <- parse_selector_schema
                              (match la_position lookahead with Some q => q | None => 0 end)
                              false ;;
                      ret (None, Some sc))) ;;
        push_scope Rules ;;;
        b <- parse_block n false ;;
        pop_scope ;;;
        ret (Ruleset (fst sel) (snd sel) b is_root))
  end

with parse_definition (n : nat) (which_type : Definition_Type) {struct n} : M Statement :=
  (* parser.cpp:384 *)
  match n with
  | O => out_of_fuel
  | S n =>
      which_str <- get_lexed ;;
      IfM lex identifier true false
      Then (s <- get_lexed ;;
            let name := normalize_underscores s in
            match which_type with
            | FUNCTION =>
                if String.eqb name "and" || String.eqb name "or" || String.eqb name "not"
                then error ("Invalid function name " ++ quoted name ++ ".")
                else ret tt
            | MIXIN => ret tt
            end ;;;
            params <- parse_parameters n ;;
            push_scope (match which_type with MIXIN => Mixin | FUNCTION => Function end) ;;;
            body <- parse_block n false ;;
            pop_scope ;;;
            ret (Definition_ name params body which_type))
      Else error ("invalid name in " ++ which_str ++ " definition")
  end

with parse_if_directive (n : nat) (else_if : bool) {struct n} : M Statement :=
  (* parser.cpp:2021 *)
  match n with
  | O => out_of_fuel
  | S n =>
      push_scope Control ;;;
      p <- get ;;
      let root := back_is_root p in
      predicate <- parse_list n false ;;
      block <- parse_block n root ;;
      alternative <-
        (IfM lex_css elseif_directive
         Then (nested <- parse_if_directive n true ;;
               ret (Some (Block_ [nested] false)))
         Else IfM lex_css kwd_else_directive
              Then (b <- parse_block n root ;; ret (Some b))
              Else ret None) ;;
      pop_scope ;;;
      ret (If predicate block alternative)
  end

with parse_for_directive (n : nat) {struct n} : M Statement :=
  (* parser.cpp:2043 *)
  match n with
  | O => out_of_fuel
  | S n =>
      push_scope Control ;;;
      p <- get ;;
      let root := back_is_root p in
      lex_variable ;;;
      s <- get_lexed ;;
      let var := normalize_underscores s in
      IfM lex kwd_from true false
      Then (lower_bound <- parse_expression n ;;
            inclusive <- (IfM lex kwd_through true false Then ret true Else
                          IfM lex kwd_to true false Then ret false Else
                          error "expected 'through' or 'to' keyword in @for directive") ;;
            upper_bound <- parse_expression n ;;
            body <- parse_block n root ;;
            pop_scope ;;;
            ret (For var lower_bound upper_bound body inclusive))
      Else error "expected 'from' keyword in @for directive"
  end

with parse_each_directive (n : nat) {struct n} : M Statement :=
  (* parser.cpp:2088 *)
  match n with
  | O => out_of_fuel
  | S n =>
      let fix each_variables (k : nat) (vars : list string) : M (list string) :=
        match k with
        | O => out_of_fuel
        | S k =>
            IfM lex (exactly ",") true false
            Then IfM lex variable true false
                 Then (s <- get_lexed ;; each_variables k (vars ++ [normalize_underscores s]))
                 Else error "@each directive requires an iteration variable"
            Else ret vars
        end in
      push_scope Control ;;;
      p <- get ;;
      let root := back_is_root p in
      lex_variable ;;;
      s <- get_lexed ;;
      vars <- each_variables n [normalize_underscores s] ;;
      IfM lex kwd_in true false
      Then (list <- parse_list n false ;;
            body <- parse_block n root ;;
            pop_scope ;;;
            ret (Each vars list body))
      Else error "expected 'in' keyword in @each directive"
  end

with parse_while_directive (n : nat) {struct n} : M Statement :=
  (* parser.cpp:2108 *)
  match n with
  | O => out_of_fuel
  | S n =>
      push_scope Control ;;;
      p <- get ;;
      let root := back_is_root p in
      predicate <- parse_list n false ;;
      match predicate with
      | List_ _ [] _ _ _ =>
          css_error "Invalid CSS" " after " ": expected expression (e.g. 1px, bold), was " false
      | _ =>
          b <- parse_block n root ;;
          pop_scope ;;;
          ret (While predicate b)
      end
  end.

(* ================================================================= *)
(** ** Construction and the entry point *)

(** The constructor of [Parser] (parser.hpp): empty block stack, scope stack
    with [Scope::Root] alone. *)
Definition new_Parser (c : Context) (ps : ParserState) (allow_parent_ : bool) : Parser :=
  mkParser c [] [Root] EmptyString 0 0 (ps_position ps) (ps_position ps) ps 0 0
           allow_parent_ (mkToken 0 0 0).

(** [Parser::from_c_str(beg, ctx, traces, pstate, source, allow_parent)]
    (parser.cpp:26) with [source] null: the buffer starts at [beg] and ends
    at its first NUL. *)
Definition from_c_str (beg : string) (c : Context) (ps : ParserState)
    (allow_parent_ : bool) : Parser :=
  let ps := mkParserState (ps_position ps) (mkOffset 0 0) in
  let p := new_Parser c ps allow_parent_ in
  mkParser (ctx p) [Block_ [] true] (stack p) beg 0 (0 + strlen beg 0)
           (before_token p) (after_token p) (pstate p) (indentation p) (nestings p)
           (allow_parent p) (lexed p).

(** [Parser::from_c_str(beg, end, ctx, traces, pstate, source, allow_parent)]
    (parser.cpp:40) with [source] null and [end] given as an offset from
    [beg]. *)
Definition from_c_str_end (beg : string) (end_offset : nat) (c : Context) (ps : ParserState)
    (allow_parent_ : bool) : Parser :=
  let ps := mkParserState (ps_position ps) (mkOffset 0 0) in
  let p := new_Parser c ps allow_parent_ in
  mkParser (ctx p) [Block_ [] true] (stack p) beg 0 end_offset
           (before_token p) (after_token p) (pstate p) (indentation p) (nestings p)
           (allow_parent p) (lexed p).

(** [check_bom_chars] (parser.cpp:2820); [src] is an offset into the
    buffer. *)
Fixpoint bom_matches (buffer : string) (src : nat) (bom : list nat) (i len : nat) : bool :=
  match len with
  | O => true
  | S len' =>
      Nat.eqb (byte (deref buffer (src + i))) (nth i bom 0)
      && bom_matches buffer src bom (S i) len'
  end.

Definition check_bom_chars (buffer : string) (src end_offset : nat) (bom : list nat)
    (len : nat) : nat :=
  if Nat.ltb end_offset (src + len) then 0
  else if bom_matches buffer src bom 0 len then len else 0.

(** [Parser::read_bom] (parser.cpp:2762): [(skip, encoding, utf_8)] as the
    [switch] leaves them. *)
Definition detect_bom (p : Parser) : nat * string * bool :=
  let check := check_bom_chars (source p) 0 (end_ p) in
  let first := byte (deref (source p) 0) in
  if Nat.eqb first 239 then (check utf_8_bom 3, "UTF-8", true)
  else if Nat.eqb first 254 then (check utf_16_bom_be 2, "UTF-16 (big endian)", false)
  else if Nat.eqb first 255 then
    let skip := check utf_16_bom_le 2 in
    let skip := skip + (if Nat.eqb skip 0 then 0 else check utf_32_bom_le 4) in
    (skip, if Nat.eqb skip 2 then "UTF-16 (little endian)" else "UTF-32 (little endian)",
     false)
  else if Nat.eqb first 0 then (check utf_32_bom_be 4, "UTF-32 (big endian)", false)
  else if Nat.eqb first 43 then
    (Nat.lor (check utf_7_bom_1 4)
       (Nat.lor (check utf_7_bom_2 4)
          (Nat.lor (check utf_7_bom_3 4)
             (Nat.lor (check utf_7_bom_4 4) (check utf_7_bom_5 5)))),
     "UTF-7", false)
  else if Nat.eqb first 247 then (check utf_1_bom 3, "UTF-1", false)
  else if Nat.eqb first 221 then (check utf_ebcdic_bom 4, "UTF-EBCDIC", false)
  else if Nat.eqb first 14 then (check scsu_bom 3, "SCSU", false)
  else if Nat.eqb first 251 then (check bocu_1_bom 3, "BOCU-1", false)
  else if Nat.eqb first 132 then (check gb_18030_bom 4, "GB-18030", false)
  else (0, "", false).

Definition read_bom : M unit :=
  p <- get ;;
  let '(skip, encoding, utf_8) := detect_bom p in
  if Nat.ltb 0 skip && negb utf_8
  then error ("only UTF-8 documents are currently supported; your document appears to be "
              ++ encoding)
  else modify (fun p => set_position (position p + skip) p).

(** [Parser::parse] (parser.cpp:88) *)
Definition parse (n : nat) : M Block :=
  read_bom ;;;
  p <- get ;;
  let it := find_invalid (source p) (position p) (end_ p) in
  if negb (Nat.eqb it (end_ p))
  then throw (InvalidSass
                (Offset_plus (ps_position (pstate p))
                             (Offset_add (mkOffset 0 0) (slice (source p) (position p) it)))
                "Invalid UTF-8 sequence")
  else
    root <- (if Nat.eqb (resources_size (ctx p)) 1
             then apply_custom_headers (Block_ [] true)
             else ret (Block_ [] true)) ;;
    push_block root ;;;
    parse_block_nodes n true ;;;
    root <- pop_block ;;
    p <- get ;;
    if negb (Nat.eqb (position p) (end_ p))
    then css_error "Invalid CSS" " after " ": expected selector or at-rule, was " true
    else ret root.

End Statements.

(* ================================================================= *)
(** ** A lexicon and externals for the worked examples *)

Module Css.

(** Modelled from the spec: the productions of prelexer.cpp, which is not
    among the sources, for ASCII input without escapes.  Section 4.2:
    identifiers, variables ([$name]), numbers, dimensions, percentages, hex
    colours, quoted strings (single or double), the [url(] prefix, the
    interpolant [#{ ... }], keywords with a word boundary; section 4.5: the
    operators and the tokens that end a list. *)

Definition char_class (f : ascii -> bool) : matcher :=
  mx (fun src => match src with
                 | String c _ => if f c then Some 1 else None
                 | EmptyString => None
                 end).

Definition between (lo hi : nat) (c : ascii) : bool :=
  Nat.leb lo (byte c) && Nat.leb (byte c) hi.

Definition is_digit (c : ascii) : bool := between 48 57 c.
Definition is_alpha (c : ascii) : bool := between 65 90 c || between 97 122 c.
Definition is_alnum (c : ascii) : bool := is_alpha c || is_digit c.
Definition is_xdigit (c : ascii) : bool := is_digit c || between 65 70 c || between 97 102 c.
Definition is_nonascii (c : ascii) : bool := Nat.leb 128 (byte c).
Definition is_character (c : ascii) : bool :=
  is_alnum c || is_nonascii c || Ascii.eqb c "-"%char.

Definition alpha : matcher := char_class is_alpha.
Definition digit : matcher := char_class is_digit.
Definition xdigit : matcher := char_class is_xdigit.
Definition alnum : matcher := char_class is_alnum.
Definition nonascii : matcher := char_class is_nonascii.
Definition digits : matcher := one_plus digit.

(** The position is not followed by a character of a word. *)
Definition word_boundary : matcher :=
  mx (fun src => match src with
                 | String c _ => if is_character c || Ascii.eqb c "#"%char then None else Some 0
                 | EmptyString => Some 0
                 end).

Definition word (kwd : string) : matcher := sequence [exactly kwd; word_boundary].

Definition escape_seq : matcher := sequence [exactly "\"; any_char].

Definition identifier_alpha : matcher :=
  alternatives [alpha; nonascii; exactly "-"; exactly "_"; escape_seq].
Definition identifier_alnum : matcher :=
  alternatives [alnum; nonascii; exactly "-"; exactly "_"; escape_seq].
Definition strict_identifier_alpha : matcher :=
  alternatives [alpha; nonascii; escape_seq; exactly "_"].
Definition strict_identifier_alnum : matcher :=
  alternatives [alnum; nonascii; escape_seq; exactly "_"].

Definition identifier : matcher :=
  sequence [zero_plus (exactly "-"); one_plus identifier_alpha; zero_plus identifier_alnum].
Definition strict_identifier : matcher :=
  sequence [one_plus strict_identifier_alpha; zero_plus strict_identifier_alnum].

Definition variable : matcher := sequence [exactly "$"; identifier].

Definition sign : matcher := class_char "-+".
Definition unsigned_number : matcher :=
  alternatives [sequence [zero_plus digits; exactly "."; one_plus digits]; digits].
Definition number : matcher :=
  sequence [optional sign; unsigned_number;
            optional (sequence [exactly "e"; optional sign; unsigned_number])].
Definition percentage : matcher := sequence [number; exactly "%"].
Definition op : matcher := class_char "+-*/%".

Definition one_unit : matcher :=
  sequence [optional (exactly "-"); strict_identifier_alpha;
            zero_plus (alternatives [strict_identifier_alnum;
                                     sequence [one_plus (exactly "-");
                                               strict_identifier_alpha]])].
Definition multiple_units : matcher :=
  sequence [one_unit; zero_plus (sequence [exactly "*"; one_unit])].
Definition unit_identifier : matcher :=
  sequence [multiple_units;
            optional (sequence [exactly "/";
                                negate (sequence [exactly "calc"; exactly "("]);
                                multiple_units])].
Definition dimension : matcher := sequence [number; unit_identifier].

(** [#] and 3 or 6 (with alpha: 4 or 8) hexadecimal digits. *)
Definition of_length (m : matcher) (lengths : list nat) : matcher :=
  mx (fun src => match m src with
                 | Some n => if existsb (Nat.eqb n) lengths then Some n else None
                 | None => None
                 end).
Definition hex : matcher := of_length (sequence [exactly "#"; one_plus xdigit]) [4; 7].
Definition hexa : matcher := of_length (sequence [exactly "#"; one_plus xdigit]) [5; 9].
Definition hex0 : matcher := of_length (sequence [exactly "0x"; one_plus xdigit]) [5; 8].

Definition interpolant : matcher :=
  sequence [exactly hash_lbrace; skip_over_scopes (exactly hash_lbrace) (exactly rbrace)].

Definition quoted_with (q : string) : matcher :=
  sequence [exactly q;
            zero_plus (alternatives [escape_seq; interpolant; neg_class_char q]);
            exactly q].
Definition quoted_string : matcher :=
  alternatives [quoted_with "'"; quoted_with dquote].

(** A quoted string without interpolation. *)
Definition static_string : matcher :=
  alternatives
    [sequence [exactly "'"; zero_plus (alternatives [escape_seq; neg_class_char "'#"]);
               exactly "'"];
     sequence [exactly dquote;
               zero_plus (alternatives [escape_seq; neg_class_char (dquote ++ "#")]);
               exactly dquote]].

Definition bang (kwd : string) : matcher :=
  sequence [exactly "!"; optional_css_whitespace; word kwd].

Definition kwd_important : matcher := bang "important".
Definition default_flag : matcher := bang "default".
Definition global_flag : matcher := bang "global".
Definition kwd_optional : matcher := bang "optional".

Definition list_terminator : matcher :=
  alternatives [exactly ";"; exactly "}"; exactly "{"; exactly ")"; exactly "]";
                exactly ":"; end_of_file; exactly ellipsis; default_flag; global_flag].
Definition space_list_terminator : matcher :=
  alternatives [exactly ","; list_terminator].

Definition uri_prefix : matcher := sequence [exactly "url"; exactly "("].
Definition W : matcher := zero_plus space.
Definition real_uri_suffix : matcher := sequence [W; exactly ")"].
Definition real_uri_value : matcher :=
  non_greedy (neg_class_char (" " ++ dquote ++ "'()"))
             (alternatives [real_uri_suffix; exactly hash_lbrace]).

Definition parenthese_scope : matcher :=
  sequence [exactly "("; skip_over_scopes (exactly "(") (exactly ")")].
Definition re_functional : matcher :=
  sequence [identifier; optional block_comment; exactly "("].
Definition calc_fn_call : matcher :=
  sequence [optional (sequence [exactly "-"; one_plus (sequence [strict_identifier;
                                                                exactly "-"])]);
            exactly "calc"; word_boundary].

Definition identifier_schema : matcher :=
  sequence
    [one_plus (sequence
       [zero_plus (alternatives [sequence [optional (exactly "$"); identifier]; exactly "-"]);
        interpolant;
        zero_plus (alternatives [digits; sequence [optional (exactly "$"); identifier];
                                 quoted_string; exactly "-"])]);
     negate (exactly "%")].

Definition functional_schema : matcher :=
  sequence
    [one_plus (sequence
       [zero_plus (alternatives [identifier; exactly "-"]);
        one_plus (sequence [interpolant;
                            alternatives [digits; identifier; exactly "+"; exactly "-"]])]);
     negate (exactly "%");
     lookahead (exactly "(")].

(** Values in front of and behind an interpolant; a number does not follow
    a number. *)
Fixpoint value_combinations_from (fuel : nat) (was_number : bool) (src : string) : nat :=
  match fuel with
  | O => 0
  | S fuel' =>
      match alternatives [quoted_string; identifier; percentage; hex] src with
      | Some (S k) => S k + value_combinations_from fuel' false (drop (S k) src)
      | _ =>
          if negb was_number && negb (is_some (exactly "+" src))
          then match alternatives [dimension; number] src with
               | Some (S k) => S k + value_combinations_from fuel' true (drop (S k) src)
               | _ => 0
               end
          else 0
      end
  end.

Definition value_combinations : matcher :=
  mx (fun src => Some (value_combinations_from (String.length src) false src)).

Definition value_schema : matcher :=
  one_plus (sequence [optional value_combinations; interpolant; optional value_combinations]).

(** Modelled from the spec: [Prelexer::static_component] and
    [Prelexer::static_value] of prelexer.cpp, which is not among the sources
    and which the spec does not describe.  They are the productions of
    libsass: a static value is a sequence of static components (identifiers,
    strings without interpolation, percentages, hex colours, numbers with or
    without a unit, [!important]) separated by [/], [,] or white space and
    closed by [;] or [}]; [parse_declaration] keeps such a value as it is
    written. *)
Definition static_component : matcher :=
  alternatives [identifier; static_string; percentage; hex; hexa; exactly "|";
                sequence [number; unit_identifier]; number;
                sequence [exactly "!"; word "important"]].

Definition static_value : matcher :=
  sequence
    [sequence [static_component; zero_plus identifier];
     zero_plus (sequence
       [alternatives [sequence [optional_spaces;
                                alternatives [exactly "/"; exactly ","; exactly " "];
                                optional_spaces];
                      spaces];
        static_component]);
     zero_plus spaces;
     alternatives [exactly ";"; exactly "}"]].

Definition ie_property : matcher :=
  alternatives
    [sequence [word "expression"; exactly "("; skip_over_scopes (exactly "(") (exactly ")")];
     sequence [word "progid"; exactly ":"; identifier;
               zero_plus (sequence [exactly "."; identifier]);
               zero_plus parenthese_scope]].

Definition ie_keyword_arg : matcher :=
  sequence [alternatives [variable; identifier_schema; identifier];
            optional_css_whitespace; exactly "="; optional_css_whitespace;
            alternatives [variable; identifier_schema; identifier; quoted_string; number;
                          hex; hexa]].

Definition pseudo_prefix : matcher := sequence [exactly ":"; optional (exactly ":")].

Definition attribute_match : matcher :=
  alternatives [exactly "="; exactly "~="; exactly "|="; exactly "^="; exactly "$=";
                exactly "*="].

Definition binomial : matcher :=
  sequence [optional sign; optional digits; exactly "n";
            zero_plus (sequence [optional_css_whitespace; sign; optional_css_whitespace;
                                 digits])].

Definition namespace_schema : matcher :=
  sequence [optional (alternatives [exactly "*"; identifier]); exactly "|";
            negate (exactly "=")].

Definition schema_reference_combinator : matcher :=
  sequence [exactly "/"; optional (sequence [identifier; exactly "|"]); identifier;
            exactly "/"].

(** The text of a selector list, nested parentheses included. *)
Fixpoint re_selector_list_from (fuel : nat) : matcher :=
  match fuel with
  | O => mx (fun _ => None)
  | S fuel' =>
      alternatives
        [sequence [exactly "&"; one_plus (exactly "-"); word_boundary; optional_spaces];
         one_plus (alternatives
           [spaces; block_comment; line_comment;
            schema_reference_combinator;
            class_char "*&%,[]";
            class_char "+~>";
            sequence [exactly "("; optional_spaces;
                      optional (re_selector_list_from fuel');
                      optional_spaces; exactly ")"];
            attribute_match;
            sequence
              [optional namespace_schema;
               alternatives [sequence [exactly "#"; negate (exactly "{")];
                             exactly ".";
                             sequence [optional pseudo_prefix; negate uri_prefix]];
               one_plus (sequence
                 [zero_plus (sequence [exactly "-"; optional_spaces]);
                  alternatives [kwd_optional; exactly "*"; quoted_string; interpolant;
                                identifier; variable; percentage; binomial; dimension;
                                alnum]]);
               zero_plus (exactly "-")]])]
  end.

Definition re_selector_list : matcher :=
  mx (fun src => re_selector_list_from (String.length src) src).

Definition lexicon : Lexicon := {|
  Productions.kwd_err := word "@error";
  Productions.kwd_dbg := word "@debug";
  Productions.kwd_warn := word "@warn";
  Productions.kwd_if_directive := word "@if";
  Productions.kwd_for_directive := word "@for";
  Productions.kwd_each_directive := word "@each";
  Productions.kwd_while_directive := word "@while";
  Productions.kwd_return_directive := word "@return";
  Productions.kwd_import := word "@import";
  Productions.kwd_extend := word "@extend";
  Productions.kwd_media := word "@media";
  Productions.kwd_at_root := word "@at-root";
  Productions.kwd_include_directive := word "@include";
  Productions.kwd_content_directive := word "@content";
  Productions.kwd_supports_directive := word "@supports";
  Productions.kwd_mixin := word "@mixin";
  Productions.kwd_function := word "@function";
  Productions.kwd_charset_directive := word "@charset";
  Productions.at_keyword := sequence [exactly "@"; identifier];
  Productions.elseif_directive := sequence [exactly else_kwd; optional_css_comments; word "if"];
  Productions.kwd_else_directive := word else_kwd;
  Productions.kwd_from := word "from";
  Productions.kwd_through := word "through";
  Productions.kwd_to := word "to";
  Productions.kwd_in := word "in";
  Productions.default_flag := default_flag;
  Productions.global_flag := global_flag;
  Productions.static_value := static_value;
  Productions.re_selector_list := re_selector_list;
  Productions.interpolant := interpolant;
  Productions.parenthese_scope := parenthese_scope;
  Productions.list_terminator := list_terminator;
  Productions.space_list_terminator := space_list_terminator;
  Productions.kwd_or := word "or";
  Productions.kwd_and := word "and";
  Productions.kwd_not := word "not";
  Productions.kwd_eq := exactly "==";
  Productions.kwd_neq := exactly "!=";
  Productions.kwd_gte := exactly ">=";
  Productions.kwd_gt := exactly ">";
  Productions.kwd_lte := exactly "<=";
  Productions.kwd_lt := exactly "<";
  Productions.identifier := identifier;
  Productions.identifier_schema := identifier_schema;
  Productions.strict_identifier := strict_identifier;
  Productions.variable := variable;
  Productions.number := number;
  Productions.unsigned_number := unsigned_number;
  Productions.digit := digit;
  Productions.percentage := percentage;
  Productions.dimension := dimension;
  Productions.op := op;
  Productions.hex := hex;
  Productions.hex0 := hex0;
  Productions.hexa := hexa;
  Productions.quoted_string := quoted_string;
  Productions.value_schema := value_schema;
  Productions.static_component := static_component;
  Productions.ampersand := exactly "&";
  Productions.kwd_important := kwd_important;
  Productions.kwd_true := word "true";
  Productions.kwd_false := word "false";
  Productions.kwd_null := word "null";
  Productions.ie_property := ie_property;
  Productions.ie_keyword_arg := ie_keyword_arg;
  Productions.calc_fn_call := calc_fn_call;
  Productions.functional_schema := functional_schema;
  Productions.re_functional := re_functional;
  Productions.uri_prefix := uri_prefix;
  Productions.W := W;
  Productions.real_uri_value := real_uri_value
|}.

End Css.

Module Demo.

(** Externals for the worked examples: a number is kept as its numeral, a
    colour as its channels, an import resolves to its path, and the parts of
    the parser that stay abstract reject their input. *)
#[local] Instance types : Foreign := {|
  double := string;
  color := nat * nat * nat * option nat;
  foreign := string;
  Context := unit;
  Include := string
|}.

Definition unsupported {A : Type} : M A := error "not covered by the worked examples".

Fixpoint contains (needle s : string) : bool :=
  starts_with needle s
  || match s with
     | EmptyString => false
     | String _ s' => contains needle s'
     end.

Definition color_names : list (string * (nat * nat * nat * option nat)) :=
  [("red", (255, 0, 0, None)); ("green", (0, 128, 0, None)); ("blue", (0, 0, 255, None));
   ("black", (0, 0, 0, None)); ("white", (255, 255, 255, None))].

Fixpoint assoc {A : Type} (k : string) (l : list (string * A)) : option A :=
  match l with
  | [] => None
  | (k', v) :: l' => if String.eqb k k' then Some v else assoc k l'
  end.

(** The text between the quotes of a quoted string. *)
Definition strip_quotes (s : string) : string :=
  match s with
  | String c s' =>
      if Ascii.eqb c (ascii_of_nat 34) || Ascii.eqb c "'"%char
      then take (String.length s' - 1) s'
      else s
  | EmptyString => s
  end.

#[local] Instance externals : Externals := {|
  sass_strtod := fun s => s;
  is_number := fun c => Css.is_digit c || Ascii.eqb c "-"%char || Ascii.eqb c "+"%char;
  name_to_color := fun s => assoc s color_names;
  rgba := fun r g b a => (r, g, b, a);
  quote := fun s => (dquote ++ s ++ dquote)%string;
  unquote := strip_quotes;
  escape_string := fun s => s;
  selector_is_optional := fun _ => false;
  find_invalid := fun _ _ e => e;
  css_error_context := fun p _ => (EmptyString, text_at p (position p));
  resources_size := fun _ => 0;
  apply_custom_headers := fun b => ret b;
  call_importers := fun _ imp => ret (false, imp);
  import_url := fun imp path =>
    ret (mkImport (urls imp) (incs imp ++ [strip_quotes path]) (import_queries imp));
  parse_interpolated_chunk := fun chunk _ _ p =>
    let text := slice (source p) (tk_begin chunk) (tk_end chunk) in
    if contains hash_lbrace text then unsupported p
    else Ok (String_Quoted no_flags text) p;
  parse_value_schema := fun _ => unsupported;
  parse_identifier_schema := unsupported;
  parse_css_variable_value := unsupported;
  parse_ie_property := unsupported;
  parse_ie_keyword_arg := unsupported;
  parse_calc_function := unsupported;
  parse_url_function_string := unsupported;
  parse_url_function_argument := unsupported;
  parse_media_queries := unsupported;
  parseSelectorList := fun _ => unsupported;
  parse_selector_schema := fun _ _ => unsupported;
  parseMediaRule := unsupported;
  parse_at_root_block := unsupported;
  parse_include_directive := unsupported;
  parse_content_directive := unsupported;
  parse_supports_directive := unsupported;
  parse_directive := unsupported
|}.

#[local] Existing Instance Css.lexicon.

(** A parser on the text [src], as [from_c_str] builds it. *)
Definition parser_on (src : string) : Parser :=
  from_c_str src tt (mkParserState (mkOffset 0 0) (mkOffset 0 0)) true.

(** The same parser inside the given scopes, innermost first. *)
Definition parser_in (scopes : list Scope) (src : string) : Parser :=
  set_stack (scopes ++ [Root]) (parser_on src).

Definition fuel : nat := 200.

End Demo.

(* ================================================================= *)
(** ** The directives with a query or a call *)

(** [@include], [@content], [@media], [@at-root] and [@supports] as
    parser.cpp writes them.  [parse_block_node] reaches them through
    [Externals]; here they are functions of their own, with the nodes they
    build. *)
Module Directives.

(** The keywords of prelexer.cpp these functions lex, besides those of
    [Lexicon]. *)
Class Keywords : Type := {
  kwd_using : matcher;
  kwd_only : matcher;
  kwd_with_directive : matcher;
  kwd_without_directive : matcher
}.

Section Nodes.
Context {F : Foreign}.

#[local] Set Warnings "-register-all".

(** [Mixin_Call(pstate, name, arguments, block_parameters, block)] *)
Record Mixin_Call : Type := mkMixin_Call {
  mc_name : string;
  mc_arguments : list Argument;
  mc_block_parameters : option (list Parameter_);
  mc_block : option Block
}.

(** [Content(pstate, arguments)] *)
Record Content : Type := mkContent { content_arguments : list Argument }.

(** [Media_Query_Expression(pstate, feature, value, is_interpolated)] *)
Record Media_Query_Expression : Type := mkMedia_Query_Expression {
  mqe_feature : Expression;
  mqe_value : option Expression;
  mqe_is_interpolated : bool
}.

(** [Media_Query]: the media type, the two flags and the appended
    expressions. *)
Record Media_Query : Type := mkMedia_Query {
  mq_media_type : option Expression;
  mq_is_negated : bool;
  mq_is_restricted : bool;
  mq_expressions : list Media_Query_Expression
}.

Record MediaRule : Type := mkMediaRule {
  mr_schema : list Media_Query;
  mr_block : Block
}.

(** [At_Root_Query(pstate, feature, value)] *)
Record At_Root_Query : Type := mkAt_Root_Query {
  arq_feature : Expression;
  arq_value : Expression
}.

Record At_Root_Block : Type := mkAt_Root_Block {
  arb_block : option Block;
  arb_expression : option At_Root_Query
}.

(** [Supports_Operator::Operand] *)
Inductive Supports_Operand : Type := Supports_AND | Supports_OR.

(** The conditions of [@supports]; an operand that the C code leaves null
    is [None]. *)
Inductive Supports_Condition : Type :=
| Supports_Negation (condition : option Supports_Condition)
| Supports_Operator (left : Supports_Condition) (right : option Supports_Condition)
                    (operand : Supports_Operand)
| Supports_Interpolation (value : Expression)
| Supports_Declaration (feature value : Expression).

Record Supports_Block : Type := mkSupports_Block {
  sb_condition : option Supports_Condition;
  sb_block : Block
}.

End Nodes.

Section Parsers.
Context {F : Foreign} {L : Lexicon} {X : Externals} {K : Keywords}.

(** [Parser::lex_identifier] (parser.cpp:2078) *)
Definition lex_identifier : M unit :=
  IfM lex identifier true false Then ret tt Else css_error_expected "identifier".

(** [Parser::parse_include_directive] (parser.cpp:642) *)
Definition parse_include_directive (n : nat) : M Mixin_Call :=
  lex_identifier ;;;
  s <- get_lexed ;;
  let name := normalize_underscores s in
  args <- parse_arguments n ;;
  has_parameters <- lex kwd_using true false ;;
  paren <- found (peek (exactly "(") None) ;;
  (if has_parameters
   then (if negb paren then css_error_expected (quoted "(") else ret tt)
   else (if paren then css_error_expected (quoted ";") else ret tt)) ;;;
  params <- (if has_parameters
             then (ps <- parse_parameters n ;; ret (Some ps))
             else ret None) ;;
  IfM found (peek (exactly "{") None)
  Then (b <- parse_block n false ;; ret (mkMixin_Call name args params (Some b)))
  Else if has_parameters
       then css_error_expected (quoted "{")
       else ret (mkMixin_Call name args params None).

(** [Parser::parse_content_directive] (parser.cpp:2013) *)
Definition parse_content_directive (n : nat) : M Content :=
  args <- parse_arguments n ;; ret (mkContent args).

(** [Parser::parse_media_expression] (parser.cpp:2271) *)
Definition parse_media_expression (n : nat) : M Media_Query_Expression :=
  IfM lex identifier_schema true false
  Then (ss <- parse_identifier_schema ;; ret (mkMedia_Query_Expression ss None true))
  Else
  IfM lex_css (exactly "(")
  Then
    IfM found (peek_css (exactly ")") None)
    Then error "media feature required in media query expression"
    Else
      feature <- parse_expression n ;;
      expression <- (IfM lex_css (exactly ":")
                     Then (e <- parse_list n DELAYED ;; ret (Some e))
                     Else ret None) ;;
      IfM lex_css (exactly ")")
      Then ret (mkMedia_Query_Expression feature expression false)
      Else error "unclosed parenthesis in media query expression"
  Else error "media query expression must begin with '('".

(** [while (lex_css< kwd_and >()) media_query->append(parse_media_expression());] *)
Fixpoint media_expressions (n : nat) (acc : list Media_Query_Expression)
    : M (list Media_Query_Expression) :=
  match n with
  | O => out_of_fuel
  | S n =>
      IfM lex_css kwd_and
      Then (e <- parse_media_expression n ;; media_expressions n (acc ++ [e]))
      Else ret acc
  end.

(** [Parser::parse_media_query] (parser.cpp:2243) *)
Definition parse_media_query (n : nat) : M Media_Query :=
  advanceToNextToken ;;;
  modifier <- (IfM lex kwd_not true false
               Then (lex css_comments false false ;;; ret (true, false))
               Else IfM lex kwd_only true false
                    Then (lex css_comments false false ;;; ret (false, true))
                    Else ret (false, false)) ;;
  head <- (IfM lex identifier_schema true false
           Then (t <- parse_identifier_schema ;; ret (Some t, []))
           Else IfM lex identifier true false
                Then (p <- get ;;
                      t <- parse_interpolated_chunk (lexed p) false true ;;
                      ret (Some t, []))
                Else (e <- parse_media_expression n ;; ret (None, [e]))) ;;
  expressions <- media_expressions n (snd head) ;;
  media_type <- (IfM lex identifier_schema true false
                 Then (s <- parse_identifier_schema ;;
                       ret (Some (String_Schema no_flags
                                    (match fst head with
                                     | Some t => [t; String_Constant no_flags " "]
                                     | None => []
                                     end ++ [s]))))
                 Else ret (fst head)) ;;
  expressions <- media_expressions n expressions ;;
  ret (mkMedia_Query media_type (fst modifier) (snd modifier) expressions).

(** [while (lex_css< exactly<','> >()) queries->append(parse_media_query());] *)
Fixpoint media_queries_loop (n : nat) (queries : list Media_Query)
    : M (list Media_Query) :=
  match n with
  | O => out_of_fuel
  | S n =>
      IfM lex_css (exactly ",")
      Then (q <- parse_media_query n ;; media_queries_loop n (queries ++ [q]))
      Else ret queries
  end.

(** [Parser::parse_media_queries] (parser.cpp:2232) *)
Definition parse_media_queries (n : nat) : M (list Media_Query) :=
  advanceToNextToken ;;;
  queries <- (IfM found (peek_css (exactly "{") None)
              Then ret []
              Else (q <- parse_media_query n ;; ret [q])) ;;
  media_queries_loop n queries.

(** [Parser::parseMediaRule] (parser.cpp:2221) *)
Definition parseMediaRule (n : nat) : M MediaRule :=
  push_scope Media ;;;
  schema <- parse_media_queries n ;;
  parse_block_comments n false ;;;
  block <- parse_css_block n false ;;
  pop_scope ;;;
  ret (mkMediaRule schema block).

(** [Parser::parse_at_root_query] (parser.cpp:2424) *)
Definition parse_at_root_query (n : nat) : M At_Root_Query :=
  IfM found (peek (exactly ")") None)
  Then error "at-root feature required in at-root expression"
  Else
  IfM found (peek (alternatives [kwd_with_directive; kwd_without_directive]) None)
  Then
    feature <- parse_list n false ;;
    IfM lex_css (exactly ":")
    Then
      expression <- parse_list n false ;;
      let value := match expression with
                   | List_ _ _ _ _ _ => expression
                   | _ => List_ no_flags [expression] SASS_SPACE false false
                   end in
      IfM lex_css (exactly ")")
      Then ret (mkAt_Root_Query feature value)
      Else error "unclosed parenthesis in @at-root expression"
    Else error "style declaration must contain a value"
  Else css_error_expected (quoted "with" ++ " or " ++ quoted "without").

(** [Parser::parse_at_root_block] (parser.cpp:2399) *)
Definition parse_at_root_block (n : nat) : M At_Root_Block :=
  push_scope AtRoot ;;;
  expr <- (IfM lex_css (exactly "(")
           Then (q <- parse_at_root_query n ;; ret (Some q))
           Else ret None) ;;
  body <- (IfM found (peek_css (exactly "{") None)
           Then (lex optional_spaces true false ;;;
                 b <- parse_block n true ;;
                 ret (Some b))
           Else (pos <- here ;;
                 lookahead_result <- lookahead_for_selector pos ;;
                 match la_found lookahead_result with
                 | Some _ =>
                     r <- parse_ruleset n lookahead_result ;;
                     ret (Some (Block_ [r] true))
                 | None => ret None
                 end)) ;;
  pop_scope ;;;
  ret (mkAt_Root_Block body expr).

(** [Parser::parse_supports_interpolation] (parser.cpp:2347); the chunk
    parser returns a node, so the test for a null chunk never fires. *)
Definition parse_supports_interpolation : M (option Supports_Condition) :=
  IfM lex interpolant true false
  Then (p <- get ;;
        interp <- parse_interpolated_chunk (lexed p) false true ;;
        ret (Some (Supports_Interpolation interp)))
  Else ret None.

(** [Parser::parse_supports_declaration] (parser.cpp:2359) *)
Definition parse_supports_declaration (n : nat) : M Supports_Condition :=
  feature <- parse_expression n ;;
  IfM lex_css (exactly ":")
  Then (expression <- parse_list n DELAYED ;;
        ret (Supports_Declaration feature expression))
  Else error "@supports condition expected declaration".

(** The conditions of [@supports] (parser.cpp:2311-2397); [n] bounds the
    depth of the calls. *)
Fixpoint parse_supports_condition (n : nat) (top_level : bool) {struct n}
    : M (option Supports_Condition) :=
  match n with
  | O => out_of_fuel
  | S n =>
      lex css_whitespace true false ;;;
      cond <- parse_supports_negation n ;;
      match cond with
      | Some _ => ret cond
      | None =>
          cond <- parse_supports_operator n top_level ;;
          match cond with
          | Some _ => ret cond
          | None => parse_supports_interpolation
          end
      end
  end

with parse_supports_negation (n : nat) {struct n} : M (option Supports_Condition) :=
  match n with
  | O => out_of_fuel
  | S n =>
      IfM lex kwd_not true false
      Then (cond <- parse_supports_condition_in_parens n true ;;
            ret (Some (Supports_Negation cond)))
      Else ret None
  end

with parse_supports_operator (n : nat) (top_level : bool) {struct n}
    : M (option Supports_Condition) :=
  match n with
  | O => out_of_fuel
  | S n =>
      cond <- parse_supports_condition_in_parens n top_level ;;
      match cond with
      | None => ret None
      | Some cond => (c <- supports_operator_loop n cond ;; ret (Some c))
      end
  end

with supports_operator_loop (n : nat) (cond : Supports_Condition) {struct n}
    : M Supports_Condition :=
  match n with
  | O => out_of_fuel
  | S n =>
      op <- (IfM lex kwd_and true false Then ret (Some Supports_AND) Else
             IfM lex kwd_or true false Then ret (Some Supports_OR) Else ret None) ;;
      match op with
      | None => ret cond
      | Some op =>
          lex css_whitespace true false ;;;
          right <- parse_supports_condition_in_parens n true ;;
          supports_operator_loop n (Supports_Operator cond right op)
      end
  end

with parse_supports_condition_in_parens (n : nat) (parens_required : bool) {struct n}
    : M (option Supports_Condition) :=
  match n with
  | O => out_of_fuel
  | S n =>
      interp <- parse_supports_interpolation ;;
      match interp with
      | Some _ => ret interp
      | None =>
          IfM lex (exactly "(") true false
          Then (lex css_whitespace true false ;;;
                cond <- parse_supports_condition n false ;;
                cond <- match cond with
                        | Some c => ret c
                        | None => parse_supports_declaration n
                        end ;;
                IfM lex (exactly ")") true false
                Then (lex css_whitespace true false ;;; ret (Some cond))
                Else error "unclosed parenthesis in @supports declaration")
          Else if parens_required
               then css_error "Invalid CSS" " after "
                      ": expected @supports condition (e.g. (display: flexbox)), was " false
               else ret None
      end
  end.

(** [Parser::parse_supports_directive] (parser.cpp:2297) *)
Definition parse_supports_directive (n : nat) : M Supports_Block :=
  cond <- parse_supports_condition n true ;;
  block <- parse_block n false ;;
  ret (mkSupports_Block cond block).

End Parsers.

(** The keywords for the worked examples. *)
Definition css_keywords : Keywords := {|
  kwd_using := Css.word "using";
  kwd_only := Css.word "only";
  kwd_with_directive := Css.word "with";
  kwd_without_directive := Css.word "without"
|}.

End Directives.

(* ================================================================= *)
(** ** The vocabulary of the properties *)

(** The value a run returns, if it returns. *)
Definition returned {F : Foreign} {A : Type} (r : result A) : option A :=
  match r with
  | Ok a _ => Some a
  | _ => None
  end.

(** The state a guarded call starts in and the state it leaves. *)
Definition entered {F : Foreign} (p : Parser) : Parser := set_nestings (S (nestings p)) p.

Definition left_from {F : Foreign} (p q : Parser) : Parser := set_nestings (nestings p) q.

(** The message of the error of [parse_function_call]. *)
Definition content_exists_message : string :=
  "Cannot call content-exists() except within a mixin.".

(** A list node with the bracketed flag set, and a list node of any kind. *)
Definition is_bracketed_list {F : Foreign} (e : Expression) : Prop :=
  exists fl elements sep arglist, e = List_ fl elements sep arglist true.

Definition is_list {F : Foreign} (e : Expression) : bool :=
  match e with
  | List_ _ _ _ _ _ => true
  | _ => false
  end.

(** The state with one more scope on the stack, and with the top scope
    removed. *)
Definition in_scope {F : Foreign} (s : Scope) (p : Parser) : Parser :=
  set_stack (s :: stack p) p.

Definition out_of_scope {F : Foreign} (p : Parser) : Parser :=
  set_stack (tl (stack p)) p.

(** The message of the error of [parse_block_node] at an [@import]. *)
Definition import_message : string :=
  "Import directives may not be used within control directives or mixins.".

(** The scopes in which [parse_block_node] looks at the target of an
    [@import]: all but [Function], [Root], [Rules] and [Media]. *)
Definition import_is_guarded (s : Scope) : bool :=
  match s with
  | Function | Root | Rules | Media => false
  | Mixin | Control | Properties | AtRoot => true
  end.

(** The buffer of the parser, from its first byte to [end], begins with
    the bytes of [bom]. *)
Definition begins_with {F : Foreign} (p : Parser) (bom : list nat) : bool :=
  Nat.leb (List.length bom) (end_ p)
  && forallb (fun i => Nat.eqb (byte (deref (source p) i)) (nth i bom 0))
             (seq 0 (List.length bom)).

(** The marks of the encodings that are not supported, with the name the
    error gives them.  The mark of UTF-16 (little endian) is a prefix of the
    mark of UTF-32 (little endian) and is treated apart. *)
Definition foreign_boms : list (list nat * string) :=
  [(utf_16_bom_be, "UTF-16 (big endian)");
   (utf_32_bom_le, "UTF-32 (little endian)");
   (utf_32_bom_be, "UTF-32 (big endian)");
   (utf_7_bom_1, "UTF-7"); (utf_7_bom_2, "UTF-7"); (utf_7_bom_3, "UTF-7");
   (utf_7_bom_4, "UTF-7"); (utf_7_bom_5, "UTF-7");
   (utf_1_bom, "UTF-1");
   (utf_ebcdic_bom, "UTF-EBCDIC");
   (scsu_bom, "SCSU");
   (bocu_1_bom, "BOCU-1");
   (gb_18030_bom, "GB-18030")].

(** All the marks [read_bom] knows. *)
Definition all_boms : list (list nat) :=
  utf_8_bom :: utf_16_bom_le :: map fst foreign_boms.

(** The message of the error of [read_bom]. *)
Definition bom_message (encoding : string) : string :=
  "only UTF-8 documents are currently supported; your document appears to be " ++ encoding.

(** The string of the given bytes. *)
Definition bytes (l : list nat) : string :=
  fold_right (fun b s => String (ascii_of_nat b) s) EmptyString l.

(** The fields of a number node. *)
Definition number_zero {F : Foreign} (e : Expression) : option bool :=
  match e with
  | Number _ _ _ zero => Some zero
  | _ => None
  end.

Definition number_unit {F : Foreign} (e : Expression) : option string :=
  match e with
  | Number _ _ unit_ _ => Some unit_
  | _ => None
  end.

Definition number_value {F : Foreign} (e : Expression) : option double :=
  match e with
  | Number _ value _ _ => Some value
  | _ => None
  end.

(** The text begins with [.], [0.], [-.] or [-0.]. *)
Definition begins_with_a_bare_fraction (parsed : string) : bool :=
  starts_with "." parsed || starts_with "0." parsed
  || starts_with "-." parsed || starts_with "-0." parsed.

Section Vocabulary.
Context {F : Foreign} {L : Lexicon} {X : Externals}.

(** The keys and values behind the first pair of a map, as the loop of
    [parse_map] reads them with the fuel [n] from the state [p] up to the
    state [p']: no comma ends the map, a comma followed by [)] ends it too,
    any other comma is followed by a key and a value that
    [parse_space_list] returns, with a [:] between them. *)
Inductive map_entries : nat -> Parser -> list Expression -> Parser -> Prop :=
| entries_end (n : nat) (p : Parser) :
    lex_css_at (exactly ",") p = None ->
    map_entries (S n) p [] p
| entries_trailing_comma (n : nat) (p p1 : Parser) (closing : nat) :
    lex_css_at (exactly ",") p = Some p1 ->
    peek_css_at (exactly ")") (Some (position p1)) p1 = Some closing ->
    map_entries (S n) p [] p1
| entries_pair (n : nat) (p p1 p2 p3 p4 p5 : Parser) (key value : Expression)
    (rest : list Expression) :
    lex_css_at (exactly ",") p = Some p1 ->
    peek_css_at (exactly ")") (Some (position p1)) p1 = None ->
    parse_space_list n p1 = Ok key p2 ->
    lex_at (exactly ":") true false p2 = Some p3 ->
    parse_space_list n p3 = Ok value p4 ->
    map_entries n p4 rest p5 ->
    map_entries (S n) p (key :: value :: rest) p5.

(** None of the matchers lexes a token in the state [p]. *)
Definition refused (ms : list matcher) (p : Parser) : Prop :=
  Forall (fun m => lex_at m true false p = None) ms.

(** The keywords [parse_block_node] tries before [@import], in its order. *)
Definition before_import : list matcher :=
  [variable; kwd_err; kwd_dbg; kwd_warn; kwd_if_directive; kwd_for_directive;
   kwd_each_directive; kwd_while_directive; kwd_return_directive].

(** The keywords it tries behind the selector lookahead and before
    [@charset]. *)
Definition before_charset : list matcher :=
  [kwd_media; kwd_at_root; kwd_include_directive; kwd_content_directive;
   kwd_supports_directive; kwd_mixin; kwd_function].

(** The selector lookahead at the cursor does not let a ruleset start. *)
Definition no_ruleset (p : Parser) : Prop :=
  exists rv, lookahead_for_selector (Some (position p)) p = Ok rv p
             /\ negb (is_some (la_error rv)) && negb (la_is_custom_property rv) = false.

(** The state in which [parse_block_node] dispatches: behind the block
    comments and the white space in front of the statement. *)
Definition dispatches_at (n : nat) (p p0 : Parser) : Prop :=
  exists pa b, parse_block_comments n true p = Ok tt pa
               /\ lex css_whitespace true false pa = Ok b p0.

(** What [parse_block_node] does with an [@import] it lets pass: the
    statement for the urls, if there are any, and a stub for every
    resource. *)
Definition import_nodes (n : nat) : M bool :=
  imp <- parse_import n ;;
  (match urls imp with
   | [] => ret tt
   | _ => append_to_block (Import_Statement imp)
   end) ;;;
  fold_left (fun acc inc => acc ;;; append_to_block (Import_Stub inc)) (incs imp) (ret tt) ;;;
  ret true.

(** What follows the keyword of a [@charset] directive. *)
Definition charset_tail : matcher := sequence [quoted_string; optional_spaces; exactly ";"].




(** What [Parser::parse] (parser.cpp:93-125) does behind [read_bom]: the
    scan for invalid UTF-8 from the cursor on, the root block with its
    nodes, and the test that the cursor has reached [end]. *)
Definition parse_behind_bom (n : nat) : M Block :=
  p <- get ;;
  let it := find_invalid (source p) (position p) (end_ p) in
  if negb (Nat.eqb it (end_ p))
  then throw (InvalidSass
                (Offset_plus (ps_position (pstate p))
                             (Offset_add (mkOffset 0 0) (slice (source p) (position p) it)))
                "Invalid UTF-8 sequence")
  else
    root <- (if Nat.eqb (resources_size (ctx p)) 1
             then apply_custom_headers (Block_ [] true)
             else ret (Block_ [] true)) ;;
    push_block root ;;;
    parse_block_nodes n true ;;;
    root <- pop_block ;;
    p <- get ;;
    if negb (Nat.eqb (position p) (end_ p))
    then css_error "Invalid CSS" " after " ": expected selector or at-rule, was " true
    else ret root.


End Vocabulary.

(** The texts and nodes of the worked examples. *)
Section ExampleValues.
#[local] Existing Instance Demo.types.
#[local] Existing Instance Demo.externals.
#[local] Existing Instance Css.lexicon.

Definition one : Expression := Number lexed_flags "1" "" true.

Definition two_entry_map : Expression :=
  List_ no_flags
        [String_Constant no_flags "a"; Number lexed_flags "1" "" true;
         String_Constant no_flags "b"; Number lexed_flags "2" "" true]
        SASS_HASH false false.

Definition assign (name : string) (digits : string) : Statement :=
  Assignment name (set_delayed false (Number lexed_flags digits "" true)) false false.

Definition import_in_a_function : string :=
  "@function f() { @import " ++ quoted "x" ++ "; }".

Definition charset_and_assignment : string :=
  "@charset " ++ quoted "UTF-8" ++ "; $a: 1;".

(** A parser on the first [len] bytes of [src], for buffers that hold a NUL
    byte. *)
Definition parser_on_bytes (src : string) (len : nat) : Parser :=
  from_c_str_end src len tt (mkParserState (mkOffset 0 0) (mkOffset 0 0)) true.

(** The division [1/2] as [parse_space_list] returns it. *)
Definition half_delayed : Expression :=
  Binary_Expression (mkFlags true false) (mkOperand DIV false false)
                    (Number lexed_flags "1" "" true)
                    (Number lexed_flags "2" "" true).

Definition division_of_16px_by_24px : Expression :=
  Binary_Expression (mkFlags true false) (mkOperand DIV false false)
                    (Number lexed_flags "16" "px" true)
                    (Number lexed_flags "24" "px" true).

End ExampleValues.

(** One step of a run: the first action of a sequence returns what [H]
    says. *)
Ltac run_with H := unfold bind at 1; rewrite H; cbv beta iota.

(** The first action is a [lex], a [lex_css] or a peek whose outcome [H]
    gives. *)
Ltac lex_with H :=
  unfold bind at 1;
  first [ unfold lex at 1; rewrite H
        | unfold lex_css at 1; rewrite H
        | unfold found at 1, bind at 1, peek_css_pos at 1, ret at 1; rewrite H
        | unfold found at 1, bind at 1, peek_pos at 1, ret at 1; rewrite H
        | unfold found at 1, bind at 1, peek_css at 1, ret at 1; rewrite H
        | unfold found at 1, bind at 1, peek at 1, ret at 1; rewrite H ];
  cbv beta iota.

(** The hypotheses on lists of refused matchers, one matcher each. *)
Ltac refused_heads :=
  unfold refused in *;
  repeat match goal with
         | H : Forall _ (_ :: _) |- _ =>
             let H1 := fresh "Hno" in
             let H2 := fresh "Hrest" in
             apply Forall_cons_iff in H as [H1 H2]
         | H : Forall _ [] |- _ => clear H
         end.

(** The leading [lex] of the run fails, by a hypothesis of the context. *)
Ltac skip_lex :=
  match goal with
  | H : lex_at ?m true false ?p = None |- context [bind (lex ?m true false) _ ?p] =>
      unfold bind at 1, lex at 1; rewrite H; cbv beta iota
  end.

(** What every value a run returns satisfies, and how the state it leaves
    relates to the state it started in. *)
Definition returns {F : Foreign} {A : Type} (P : A -> Prop) (c : M A) : Prop :=
  forall p a p', c p = Ok a p' -> P a.

Definition keeps {F : Foreign} {A : Type} (R : Parser -> Parser -> Prop) (c : M A) : Prop :=
  forall p a p', c p = Ok a p' -> R p p'.

(** The scopes in which [@warn], [@error] and [@debug] may stand. *)
Definition nests_messages (s : Scope) : bool :=
  match s with
  | Root | Function | Mixin | Control | Rules => true
  | Media | Properties | AtRoot => false
  end.

(** The message of the error of [parse_warning], [parse_error] and
    [parse_debug]. *)
Definition illegal_nesting_message : string :=
  "Illegal nesting: Only properties may be nested beneath properties.".

(** A rest parameter has no default value. *)
Definition rest_has_no_default {F : Foreign} (q : Parameter_) : Prop :=
  match q with
  | mkParameter _ default_value is_rest => is_rest = true -> default_value = None
  end.

(** An argument is not both a rest and a keyword argument, and a named
    argument is neither. *)
Definition argument_kind_is_one {F : Foreign} (a : Argument) : Prop :=
  match a with
  | Argument_ _ name is_rest is_keyword =>
      is_rest && is_keyword = false
      /\ (name <> EmptyString -> is_rest = false /\ is_keyword = false)
  end.

(** The names a function may not have. *)
Definition reserved_function_name (name : string) : bool :=
  String.eqb name "and" || String.eqb name "or" || String.eqb name "not".

(** The pointer a look-ahead starts from. *)
Definition start_pointer {F : Foreign} (start : option nat) (p : Parser) : nat :=
  match start with Some s => s | None => position p end.

(** The error of [expected_expression] in full. *)
Definition expected_expression_error {F : Foreign} {X : Externals} (p : Parser)
    (trim : bool) : Error :=
  InvalidSass (error_position p)
    ("Invalid CSS" ++ " after " ++ quote (fst (css_error_context p trim))
     ++ ": expected expression (e.g. 1px, bold), was "
     ++ quote (snd (css_error_context p trim))).

(** What a run leaves in place.  A block grows by appended statements. *)
Definition grows {F : Foreign} (b b' : Block) : Prop :=
  block_is_root b' = block_is_root b
  /\ exists added, block_elements b' = block_elements b ++ added.

(** The block stack keeps its blocks; only the block on top may grow. *)
Definition blocks_grow {F : Foreign} (bs bs' : list Block) : Prop :=
  match bs, bs' with
  | [], [] => True
  | b :: below, b' :: below' => grows b b' /\ below' = below
  | _, _ => False
  end.

(** What a run that builds values leaves untouched: the scope stack, the
    buffer and its end, the indentation and the block stack. *)
Definition same_frame {F : Foreign} (p q : Parser) : Prop :=
  stack q = stack p /\ source q = source p /\ end_ q = end_ p
  /\ indentation q = indentation p /\ block_stack q = block_stack p.

(** The frame of a run that builds statements: the same, but for the block
    on top of the block stack, which may grow. *)
Definition frame {F : Foreign} (p q : Parser) : Prop :=
  stack q = stack p /\ source q = source p /\ end_ q = end_ p
  /\ indentation q = indentation p
  /\ blocks_grow (block_stack p) (block_stack q).

(** The cursor moves forward and stays inside the buffer. *)
Definition advances {F : Foreign} (p q : Parser) : Prop :=
  position p <= position q /\ (position p <= end_ p -> position q <= end_ q).

(** A relation between the states before and after a run that every step of
    the lexer respects. *)
Record lexing_invariant {F : Foreign} (R : Parser -> Parser -> Prop) : Prop := {
  inv_refl : forall p, R p p;
  inv_trans : forall p q r, R p q -> R q r -> R p r;
  inv_lex : forall m lazy force p q, lex_at m lazy force p = Some q -> R p q;
  inv_pstate : forall ps p, R p (set_pstate ps p);
  inv_nestings : forall n p, R p (set_nestings n p);
  inv_allow_parent : forall b p, R p (set_allow_parent b p)
}.

(** The calls of the value parsers that stay abstract: the functions of the
    expression grammar call no other. *)
Inductive value_call {F : Foreign} {X : Externals} : forall A : Type, M A -> Prop :=
| call_parse_interpolated_chunk chunk constant css :
    value_call _ (parse_interpolated_chunk chunk constant css)
| call_parse_value_schema stop : value_call _ (parse_value_schema stop)
| call_parse_identifier_schema : value_call _ parse_identifier_schema
| call_parse_ie_property : value_call _ parse_ie_property
| call_parse_ie_keyword_arg : value_call _ parse_ie_keyword_arg
| call_parse_calc_function : value_call _ parse_calc_function
| call_parse_url_function_string : value_call _ parse_url_function_string.

(** The calls of all the parsers and helpers that stay abstract. *)
Inductive external_call {F : Foreign} {X : Externals} : forall A : Type, M A -> Prop :=
| call_apply_custom_headers b : external_call _ (apply_custom_headers b)
| call_call_importers path imp : external_call _ (call_importers path imp)
| call_import_url imp path : external_call _ (import_url imp path)
| call_parse_css_variable_value : external_call _ parse_css_variable_value
| call_parse_url_function_argument : external_call _ parse_url_function_argument
| call_parse_media_queries : external_call _ parse_media_queries
| call_parseSelectorList chroot : external_call _ (parseSelectorList chroot)
| call_parse_selector_schema stop chroot :
    external_call _ (parse_selector_schema stop chroot)
| call_parseMediaRule : external_call _ parseMediaRule
| call_parse_at_root_block : external_call _ parse_at_root_block
| call_parse_include_directive : external_call _ parse_include_directive
| call_parse_content_directive : external_call _ parse_content_directive
| call_parse_supports_directive : external_call _ parse_supports_directive
| call_parse_directive : external_call _ parse_directive
| call_value A c : value_call A c -> external_call A c.

(** Every abstract call respects the relation. *)
Definition values_keep {F : Foreign} {X : Externals}
    (R : Parser -> Parser -> Prop) : Prop :=
  forall (A : Type) (c : M A), value_call A c -> keeps R c.

Definition externals_keep {F : Foreign} {X : Externals}
    (R : Parser -> Parser -> Prop) : Prop :=
  forall (A : Type) (c : M A), external_call A c -> keeps R c.

(** A relation that every step of the statement parsers respects, brackets
    apart: the steps of the lexer, the abstract calls, a comment that is
    appended to the block on top, and the step back of
    [parse_static_value]. *)
Record statement_invariant {F : Foreign} {L : Lexicon} {X : Externals}
    (R : Parser -> Parser -> Prop) : Prop := {
  st_lexing : lexing_invariant R;
  st_externals : externals_keep R;
  st_comment : forall text important, keeps R (append_to_block (Comment text important));
  st_static_value : keeps R parse_static_value
}.

(** What a run inside a bracket still has to undo: a pushed scope, a pushed
    block, a raised indentation. *)
Inductive debt : Type := pushed_scope | pushed_block | indented.

Definition settle_one {F : Foreign} (d : debt) (p : Parser) : Parser :=
  match d with
  | pushed_scope => out_of_scope p
  | pushed_block => set_block_stack (tl (block_stack p)) p
  | indented => set_indentation (indentation p - 1) p
  end.

Fixpoint settle {F : Foreign} (ds : list debt) (p : Parser) : Parser :=
  match ds with
  | [] => p
  | d :: ds => settle ds (settle_one d p)
  end.

(** The frame of a run that starts inside brackets and closes them. *)
Definition owes {F : Foreign} (ds : list debt) (p q : Parser) : Prop :=
  frame (settle ds p) q.

(** Every function of the expression grammar respects the relation, at the
    depth bound [n]. *)
Definition expression_grammar_respects {F : Foreign} {L : Lexicon} {X : Externals}
    (R : Parser -> Parser -> Prop) (n : nat) : Prop :=
  (forall delayed, keeps R (parse_list n delayed))
  /\ (forall delayed, keeps R (parse_comma_list n delayed))
  /\ (forall l, keeps R (comma_list_loop n l))
  /\ keeps R (parse_space_list n)
  /\ (forall l, keeps R (space_list_loop n l))
  /\ keeps R (parse_disjunction n)
  /\ (forall l, keeps R (disjunction_loop n l))
  /\ keeps R (parse_conjunction n)
  /\ (forall l, keeps R (conjunction_loop n l))
  /\ keeps R (parse_relation n)
  /\ (forall l o, keeps R (relation_loop n l o))
  /\ keeps R (parse_expression n)
  /\ (forall ws l o, keeps R (expression_loop n ws l o))
  /\ keeps R (parse_operators n)
  /\ (forall ws l o, keeps R (operators_loop n ws l o))
  /\ keeps R (parse_factor n)
  /\ keeps R (parse_map n)
  /\ (forall l, keeps R (map_loop n l))
  /\ keeps R (parse_bracket_list n)
  /\ (forall l, keeps R (bracket_list_loop n l))
  /\ keeps R (parse_function_call n)
  /\ keeps R (parse_function_call_schema n)
  /\ keeps R (parse_arguments n)
  /\ (forall l, keeps R (arguments_loop n l))
  /\ keeps R (parse_argument n).

(** Every function of the block grammar keeps the frame, at the depth bound
    [n]. *)
Definition block_grammar_frame {F : Foreign} {L : Lexicon} {X : Externals}
    (n : nat) : Prop :=
  (forall is_root, keeps frame (parse_block_nodes n is_root))
  /\ (forall is_root, keeps frame (parse_block_node n is_root))
  /\ (forall is_root, keeps frame (parse_css_block n is_root))
  /\ (forall is_root, keeps frame (parse_block n is_root))
  /\ (forall lookahead, keeps frame (parse_ruleset n lookahead))
  /\ (forall which, keeps frame (parse_definition n which))
  /\ (forall else_if, keeps frame (parse_if_directive n else_if))
  /\ keeps frame (parse_for_directive n)
  /\ keeps frame (parse_each_directive n)
  /\ keeps frame (parse_while_directive n).

(** A condition of [@supports] without a null operand. *)
Fixpoint complete_condition {F : Foreign} (c : Directives.Supports_Condition) : Prop :=
  match c with
  | Directives.Supports_Negation None => False
  | Directives.Supports_Negation (Some c) => complete_condition c
  | Directives.Supports_Operator l None _ => False
  | Directives.Supports_Operator l (Some r) _ => complete_condition l /\ complete_condition r
  | Directives.Supports_Interpolation _ => True
  | Directives.Supports_Declaration _ _ => True
  end.

(** A condition that is there is complete. *)
Definition complete_if_any {F : Foreign} (c : option Directives.Supports_Condition) : Prop :=
  match c with
  | Some c => complete_condition c
  | None => True
  end.

(** A condition is there, and complete. *)
Definition complete {F : Foreign} (c : option Directives.Supports_Condition) : Prop :=
  match c with
  | Some c => complete_condition c
  | None => False
  end.

(** Every function of the [@supports] grammar keeps the frame, at the depth
    bound [n]. *)
Definition supports_grammar_frame {F : Foreign} {L : Lexicon} {X : Externals}
    (n : nat) : Prop :=
  (forall top_level, keeps frame (Directives.parse_supports_condition n top_level))
  /\ keeps frame (Directives.parse_supports_negation n)
  /\ (forall top_level, keeps frame (Directives.parse_supports_operator n top_level))
  /\ (forall cond, keeps frame (Directives.supports_operator_loop n cond))
  /\ (forall required,
         keeps frame (Directives.parse_supports_condition_in_parens n required)).

(** What the functions of the [@supports] grammar return, at the depth bound
    [n]: with parentheses required or at top level a complete condition,
    otherwise none or a complete one. *)
Definition supports_grammar_complete {F : Foreign} {L : Lexicon} {X : Externals}
    (n : nat) : Prop :=
  returns complete (Directives.parse_supports_condition n true)
  /\ returns complete_if_any (Directives.parse_supports_condition n false)
  /\ returns complete_if_any (Directives.parse_supports_negation n)
  /\ returns complete (Directives.parse_supports_operator n true)
  /\ returns complete_if_any (Directives.parse_supports_operator n false)
  /\ (forall cond, complete_condition cond ->
                   returns complete_condition (Directives.supports_operator_loop n cond))
  /\ returns complete (Directives.parse_supports_condition_in_parens n true)
  /\ returns complete_if_any (Directives.parse_supports_condition_in_parens n false).

(** A media query names a media type or has an expression. *)
Definition media_query_is_not_empty {F : Foreign} (q : Directives.Media_Query) : Prop :=
  Directives.mq_media_type q <> None \/ Directives.mq_expressions q <> [].

(** A mixin call with block parameters has a block. *)
Definition parameters_come_with_a_block {F : Foreign} (c : Directives.Mixin_Call) : Prop :=
  Directives.mc_block_parameters c <> None -> Directives.mc_block c <> None.

(** The chain of binary nodes that nests to the left:
    [((base o1 x1) o2 x2) ...]. *)
Definition left_chain {F : Foreign} (base : Expression) (operands : list Expression)
    (ops : list Operand) : Expression :=
  fold_left (fun b xo => Binary_Expression no_flags (snd xo) b (fst xo))
            (combine operands ops) base.

(** A list node without elements. *)
Definition is_list_of_none {F : Foreign} (e : Expression) : bool :=
  match e with
  | List_ _ [] _ _ _ => true
  | _ => false
  end.

(** What the block grammar guarantees of a statement that stands in a block
    with the flag [root], and of a block.  The blocks of the control
    directives and the flag of a rule set inherit [root]; the alternative
    of [@else if] is a block of its own around the nested [@if]; [@each]
    has a variable, the predicate of [@while] is no empty list, a function
    is not called [and], [or] or [not], and an import statement has a
    [url(...)]. *)
Fixpoint well_formed_in {F : Foreign} (root : bool) (s : Statement) {struct s} : Prop :=
  match s with
  | If _ b alternative =>
      block_is_root b = root /\ well_formed_block b
      /\ match alternative with
         | None => True
         | Some a =>
             (block_is_root a = root /\ well_formed_block a)
             \/ match a with
                | Block_ [nested] _ => well_formed_in root nested
                | _ => False
                end
         end
  | For _ _ _ b _ => block_is_root b = root /\ well_formed_block b
  | Each variables _ b =>
      variables <> [] /\ block_is_root b = root /\ well_formed_block b
  | While predicate b =>
      is_list_of_none predicate = false /\ block_is_root b = root /\ well_formed_block b
  | Definition_ name _ b which =>
      (which = FUNCTION -> reserved_function_name name = false) /\ well_formed_block b
  | Ruleset _ _ b is_root => is_root = root /\ well_formed_block b
  | Declaration _ _ _ _ _ (Some b) => well_formed_block b
  | Import_Statement imp => urls imp <> []
  | _ => True
  end

with well_formed_block {F : Foreign} (b : Block) {struct b} : Prop :=
  match b with
  | Block_ elements root =>
      (fix all (l : list Statement) : Prop :=
         match l with
         | [] => True
         | s :: l => well_formed_in root s /\ all l
         end) elements
  end.

(** The blocks on the block stack are well formed and have the flags
    [roots], the top block first. *)
Definition well_formed_stack {F : Foreign} (roots : list bool) (p : Parser) : Prop :=
  Forall well_formed_block (block_stack p)
  /\ map block_is_root (block_stack p) = roots.

(** A run that leaves a well-formed block stack well formed, with the same
    flags. *)
Definition keeps_well_formed {F : Foreign} (p q : Parser) : Prop :=
  forall roots, well_formed_stack roots p -> well_formed_stack roots q.

(** A run from a well-formed block stack with the flags [roots] that returns
    leaves one with the flags [roots'], and its value satisfies [Q]. *)
Definition ensures {F : Foreign} {A : Type} (roots : list bool) (c : M A)
    (roots' : list bool) (Q : A -> Prop) : Prop :=
  forall p a p', well_formed_stack roots p -> c p = Ok a p' ->
                 well_formed_stack roots' p' /\ Q a.

(** The flag of the block on top of a stack with the flags [roots]. *)
Definition top_root (roots : list bool) : bool := hd false roots.

(** The calls of the abstract parsers whose statement [parse_block_node]
    appends. *)
Inductive statement_call {F : Foreign} {X : Externals} : M Statement -> Prop :=
| statement_parseMediaRule : statement_call parseMediaRule
| statement_parse_at_root_block : statement_call parse_at_root_block
| statement_parse_include_directive : statement_call parse_include_directive
| statement_parse_content_directive : statement_call parse_content_directive
| statement_parse_supports_directive : statement_call parse_supports_directive
| statement_parse_directive : statement_call parse_directive.

(** What the abstract parsers have to guarantee for the blocks to be well
    formed: every one keeps the block stack well formed, the statement
    parsers return statements that are well formed where they are
    appended, and the custom headers are a well-formed block. *)
Definition externals_are_well_formed {F : Foreign} {X : Externals} : Prop :=
  externals_keep keeps_well_formed
  /\ (forall roots c, statement_call c ->
                      ensures roots c roots (well_formed_in (top_root roots)))
  /\ (forall roots b, well_formed_block b ->
                      ensures roots (apply_custom_headers b) roots well_formed_block).

(** Every function of the block grammar returns well-formed nodes, at the
    depth bound [n]. *)
Definition block_grammar_well_formed {F : Foreign} {L : Lexicon} {X : Externals}
    (n : nat) : Prop :=
  (forall roots is_root,
      ensures roots (parse_block_nodes n is_root) roots (fun _ => True))
  /\ (forall roots is_root,
         ensures roots (parse_block_node n is_root) roots (fun _ => True))
  /\ (forall roots is_root,
         ensures roots (parse_css_block n is_root) roots
                 (fun b => well_formed_block b /\ block_is_root b = is_root))
  /\ (forall roots is_root,
         ensures roots (parse_block n is_root) roots
                 (fun b => well_formed_block b /\ block_is_root b = is_root))
  /\ (forall roots lookahead,
         ensures roots (parse_ruleset n lookahead) roots (well_formed_in (top_root roots)))
  /\ (forall roots which,
         ensures roots (parse_definition n which) roots (well_formed_in (top_root roots)))
  /\ (forall roots else_if,
         ensures roots (parse_if_directive n else_if) roots
                 (well_formed_in (top_root roots)))
  /\ (forall roots,
         ensures roots (parse_for_directive n) roots (well_formed_in (top_root roots)))
  /\ (forall roots,
         ensures roots (parse_each_directive n) roots (well_formed_in (top_root roots)))
  /\ (forall roots,
         ensures roots (parse_while_directive n) roots (well_formed_in (top_root roots))).

(** A statement that is well formed in every block. *)
Definition plain {F : Foreign} (s : Statement) : Prop :=
  forall root, well_formed_in root s.

(* ================================================================= *)
(** ** Properties *)

Section FoldProperties.
Context {F : Foreign} {L : Lexicon} {X : Externals}.

Lemma NESTING_GUARD_ok {A : Type} (body : M A) (p q : Parser) (a : A) :
  nestings p < MAX_NESTING ->
  body (entered p) = Ok a q ->
  NESTING_GUARD body p = Ok a (left_from p q).
Proof.
  intros Hn Hb. unfold NESTING_GUARD, entered in *. cbn [nestings set_nestings].
  destruct (Nat.ltb_spec MAX_NESTING (S (nestings p))) as [Hlt | _]; [lia |].
  now rewrite Hb.
Qed.

Lemma NESTING_GUARD_err {A : Type} (body : M A) (p : Parser) (e : Error) :
  nestings p < MAX_NESTING ->
  body (entered p) = Err e ->
  NESTING_GUARD body p = Err e.
Proof.
  intros Hn Hb. unfold NESTING_GUARD, entered in *. cbn [nestings set_nestings].
  destruct (Nat.ltb_spec MAX_NESTING (S (nestings p))) as [Hlt | _]; [lia |].
  now rewrite Hb.
Qed.


(** Folding nothing into a number or into a division of two numbers leaves
    it as it is: the outer levels of the grammar pass such a node on. *)
Lemma fold_operands_nil_number (fl : Flags) (v : double) (u : string) (z : bool) :
  fold_operands (Number fl v u z) [] [] = Number fl v u z.
Proof. reflexivity. Qed.




End FoldProperties.

Section DivisionExample.
#[local] Existing Instance Demo.types.
#[local] Existing Instance Demo.externals.
#[local] Existing Instance Css.lexicon.

(** The value of [font: 16px/24px Serif;], parsed as [parse_declaration]
    parses a value that goes to the expression parser. *)
Lemma font_shorthand_value :
  returned (parse_list Demo.fuel DELAYED (Demo.parser_on "16px/24px Serif;"))
  = Some (List_ no_flags
            [Binary_Expression (mkFlags true false) (mkOperand DIV false false)
               (Number lexed_flags "16" "px" true)
               (Number lexed_flags "24" "px" true);
             String_Constant no_flags "Serif"]
            SASS_SPACE false false).
Proof. vm_compute. reflexivity. Qed.

End DivisionExample.

(* ----------------------------------------------------------------- *)
(** *** What [lex] changes *)

Section LexProperties.
Context {F : Foreign} {L : Lexicon} {X : Externals}.

(** A committed token moves the cursor and the position tracker only. *)
Lemma lex_at_frame (m : matcher) (lazy force : bool) (p p' : Parser) :
  lex_at m lazy force p = Some p' ->
  ctx p' = ctx p /\ block_stack p' = block_stack p /\ stack p' = stack p
  /\ source p' = source p /\ end_ p' = end_ p /\ indentation p' = indentation p
  /\ nestings p' = nestings p /\ allow_parent p' = allow_parent p.
Proof.
  unfold lex_at. intros H.
  destruct (Ascii.eqb _ NUL); [discriminate |].
  destruct (match_at m p _) as [after |]; [| discriminate].
  destruct (Nat.ltb (end_ p) after); [discriminate |].
  destruct (negb force && Nat.eqb after _); [discriminate |].
  injection H as <-. cbn. repeat split.
Qed.

Lemma match_at_ge (m : matcher) (p : Parser) (i j : nat) :
  match_at m p i = Some j -> i <= j.
Proof.
  unfold match_at. destruct (m (text_at p i)); [| discriminate].
  intros [= <-]. lia.
Qed.

Lemma sneak_ge (m : matcher) (p : Parser) (i : nat) : i <= sneak m p i.
Proof.
  unfold sneak. destruct (white m); [lia |].
  destruct (match_at optional_css_whitespace p i) eqn:E; [| lia].
  now apply match_at_ge in E.
Qed.

(** A token that is not forced is not empty: the cursor advances. *)
Lemma lex_at_advances (m : matcher) (lazy : bool) (p p' : Parser) :
  lex_at m lazy false p = Some p' -> position p < position p'.
Proof.
  unfold lex_at. intros H.
  destruct (Ascii.eqb _ NUL); [discriminate |].
  destruct (match_at m p _) as [after |] eqn:E; [| discriminate].
  destruct (Nat.ltb (end_ p) after); [discriminate |].
  cbn [negb andb] in H.
  destruct (Nat.eqb_spec after (if lazy then sneak m p (position p) else position p))
    as [| Hne]; [discriminate |].
  injection H as <-. cbn [position].
  apply match_at_ge in E.
  assert (position p <= (if lazy then sneak m p (position p) else position p))
    by (destruct lazy; [apply sneak_ge | lia]).
  lia.
Qed.

(** After a token is committed, an error is reported where the token
    begins: at [before_token]. *)
Lemma lex_at_error_position (m : matcher) (lazy force : bool) (p p' : Parser) :
  lex_at m lazy force p = Some p' -> error_position p' = before_token p'.
Proof.
  unfold lex_at. intros H.
  destruct (Ascii.eqb _ NUL); [discriminate |].
  destruct (match_at m p _) as [after |]; [| discriminate].
  destruct (Nat.ltb (end_ p) after); [discriminate |].
  destruct (negb force && Nat.eqb after _); [discriminate |].
  injection H as <-. unfold error_position. cbn.
  now destruct (Nat.eqb _ 0).
Qed.

(** [before_token] is the position of the first byte of the token: the
    tracker moved over the bytes skipped in front of it. *)
Lemma lex_at_before_token (m : matcher) (lazy force : bool) (p p' : Parser) :
  lex_at m lazy force p = Some p' ->
  before_token p'
  = Offset_add (after_token p) (slice (source p) (position p) (tk_begin (lexed p'))).
Proof.
  unfold lex_at. intros H.
  destruct (Ascii.eqb _ NUL); [discriminate |].
  destruct (match_at m p _) as [after |]; [| discriminate].
  destruct (Nat.ltb (end_ p) after); [discriminate |].
  destruct (negb force && Nat.eqb after _); [discriminate |].
  injection H as <-. reflexivity.
Qed.

Lemma lex_frame (m : matcher) (lazy force : bool) (p p' : Parser) (b : bool) :
  lex m lazy force p = Ok b p' ->
  block_stack p' = block_stack p /\ stack p' = stack p.
Proof.
  unfold lex. destruct (lex_at m lazy force p) eqn:E; intros [= <- <-].
  - apply lex_at_frame in E. tauto.
  - tauto.
Qed.

Lemma css_error_is_error {A : Type} (msg prefix middle : string) (trim : bool) (p : Parser) :
  css_error (A := A) msg prefix middle trim p
  = Err (InvalidSass (error_position p)
           (msg ++ prefix ++ quote (fst (css_error_context p trim))
                ++ middle ++ quote (snd (css_error_context p trim)))).
Proof.
  unfold css_error. now destruct (css_error_context p trim).
Qed.

End LexProperties.

(* ----------------------------------------------------------------- *)
(** *** [content-exists] *)

Section ContentExists.
Context {F : Foreign} {L : Lexicon} {X : Externals}.

Lemma content_exists_outside_mixin (n : nat) (p p1 : Parser) (b : bool) (s : Scope) :
  lex identifier true false p = Ok b p1 ->
  normalize_underscores (lexed_string p1) = "content-exists" ->
  stack_back p = Some s ->
  s <> Mixin ->
  parse_function_call (S n) p = Err (InvalidSass (error_position p1) content_exists_message).
Proof.
  intros Hlex Hname Hscope Hs. simpl.
  run_with Hlex. unfold bind at 1, get_lexed at 1. unfold bind at 1, get at 1.
  rewrite Hname. cbn [String.eqb Ascii.eqb Bool.eqb andb].
  apply lex_frame in Hlex as [_ Hstack].
  unfold back_is_not, stack_back in *. rewrite Hstack, Hscope.
  destruct s; try reflexivity. now contradiction Hs.
Qed.

Lemma content_exists_inside_mixin (n : nat) (p p1 p2 : Parser) (b : bool)
    (args : list Argument) :
  lex identifier true false p = Ok b p1 ->
  normalize_underscores (lexed_string p1) = "content-exists" ->
  stack_back p = Some Mixin ->
  parse_arguments n p1 = Ok args p2 ->
  parse_function_call (S n) p = Ok (Function_Call no_flags (lexed_string p1) args) p2.
Proof.
  intros Hlex Hname Hscope Hargs. simpl.
  run_with Hlex. unfold bind at 1, get_lexed at 1. unfold bind at 1, get at 1.
  rewrite Hname. cbn [String.eqb Ascii.eqb Bool.eqb andb].
  apply lex_frame in Hlex as [_ Hstack].
  unfold back_is_not, stack_back in *. rewrite Hstack, Hscope. cbn [Scope_eqb negb].
  run_with Hargs. reflexivity.
Qed.

End ContentExists.

Section ContentExistsExamples.
#[local] Existing Instance Demo.types.
#[local] Existing Instance Demo.externals.
#[local] Existing Instance Css.lexicon.

Lemma content_exists_in_a_mixin :
  returned (parse Demo.fuel (Demo.parser_on "@mixin m { x: content-exists(); }"))
  = Some (Block_
            [Definition_ "m" []
               (Block_ [Declaration (String_Constant no_flags "x")
                          (Function_Call no_flags "content-exists" [])
                          false true 0 None] false)
               MIXIN] true).
Proof. vm_compute. reflexivity. Qed.

Lemma content_exists_in_a_function :
  parse Demo.fuel (Demo.parser_on "@function f() { @return content_exists(); }")
  = Err (InvalidSass (mkOffset 0 24) content_exists_message).
Proof. vm_compute. reflexivity. Qed.

Lemma content_exists_in_a_control_directive :
  parse Demo.fuel (Demo.parser_on "@mixin m { @if content-exists() { } }")
  = Err (InvalidSass (mkOffset 0 15) content_exists_message).
Proof. vm_compute. reflexivity. Qed.

End ContentExistsExamples.

Section ContentExistsClaim.
Context {F : Foreign} {L : Lexicon} {X : Externals}.

(** C6.  A call of the function whose normalized name is [content-exists]
    fails with "Cannot call content-exists() except within a mixin." when
    the innermost scope on the scope stack is not [Mixin] - the error is
    raised where the name was lexed -; when the innermost scope is [Mixin]
    and the arguments parse, the call is a [Function_Call] node with the
    name as written and these arguments. *)
Theorem content_exists_needs_mixin_scope (n : nat) (p p1 : Parser) (b : bool) :
  lex identifier true false p = Ok b p1 ->
  normalize_underscores (lexed_string p1) = "content-exists" ->
  (forall s : Scope,
      stack_back p = Some s -> s <> Mixin ->
      parse_function_call (S n) p
      = Err (InvalidSass (error_position p1) content_exists_message))
  /\ (forall (args : list Argument) (p2 : Parser),
         stack_back p = Some Mixin ->
         parse_arguments n p1 = Ok args p2 ->
         parse_function_call (S n) p
         = Ok (Function_Call no_flags (lexed_string p1) args) p2).
Proof.
  intros Hlex Hname. split.
  - intros s Hs Hne. eapply content_exists_outside_mixin; eassumption.
  - intros args p2 Hs Hargs. eapply content_exists_inside_mixin; eassumption.
Qed.

End ContentExistsClaim.

(** C6 at [content_exists()]: an error inside [@function], a call node
    inside [@mixin]. *)
Lemma content_exists_needs_mixin_scope_witness :
  parse_function_call (F := Demo.types) (L := Css.lexicon) (X := Demo.externals)
    9 (Demo.parser_in [Function] "content_exists()")
  = Err (InvalidSass (mkOffset 0 0) content_exists_message)
  /\ returned (parse_function_call (F := Demo.types) (L := Css.lexicon)
                 (X := Demo.externals) 9 (Demo.parser_in [Mixin] "content_exists()"))
     = Some (Function_Call no_flags "content_exists" []).
Proof.
  split.
  - edestruct (@content_exists_needs_mixin_scope
                 Demo.types Css.lexicon Demo.externals
                 8 (Demo.parser_in [Function] "content_exists()")) as [H _].
    + vm_compute. reflexivity.
    + vm_compute. reflexivity.
    + rewrite (H Function).
      * vm_compute. reflexivity.
      * vm_compute. reflexivity.
      * discriminate.
  - edestruct (@content_exists_needs_mixin_scope
                 Demo.types Css.lexicon Demo.externals
                 8 (Demo.parser_in [Mixin] "content_exists()")) as [_ H].
    + vm_compute. reflexivity.
    + vm_compute. reflexivity.
    + erewrite H.
      * vm_compute. reflexivity.
      * vm_compute. reflexivity.
      * vm_compute. reflexivity.
Defined.

(* ----------------------------------------------------------------- *)
(** *** Lists of one element *)

Section SingletonLists.
Context {F : Foreign} {L : Lexicon} {X : Externals}.

(** A comma list whose first element is not followed by a comma is that
    element: the node the space-list level returned, undelayed unless the
    list is parsed as delayed. *)
Lemma comma_list_without_comma (n : nat) (delayed : bool) (p p1 : Parser) (e : Expression) :
  nestings p < MAX_NESTING ->
  peek_css_at list_terminator (Some (position (entered p))) (entered p) = None ->
  parse_space_list n (entered p) = Ok e p1 ->
  peek_css_at (exactly ",") (Some (position p1)) p1 = None ->
  parse_comma_list (S n) delayed p
  = Ok (if delayed then e else set_delayed false e) (left_from p p1).
Proof.
  intros Hn Hterm He Hcomma. simpl.
  apply NESTING_GUARD_ok; [exact Hn |].
  lex_with Hterm. run_with He. lex_with Hcomma. reflexivity.
Qed.

(** A single element with a comma behind it and a list terminator behind
    that is a comma list of one element. *)
Lemma comma_list_with_trailing_comma (n : nat) (delayed : bool) (p p1 p2 : Parser)
    (e : Expression) (c t : nat) :
  nestings p < MAX_NESTING ->
  peek_css_at list_terminator (Some (position (entered p))) (entered p) = None ->
  parse_space_list (S n) (entered p) = Ok e p1 ->
  peek_css_at (exactly ",") (Some (position p1)) p1 = Some c ->
  lex_css_at (exactly ",") p1 = Some p2 ->
  peek_css_at list_terminator (Some (position p2)) p2 = Some t ->
  parse_comma_list (S (S n)) delayed p
  = Ok (List_ no_flags [e] SASS_COMMA false false) (left_from p p2).
Proof.
  intros Hn Hterm He Hcomma Hlex Hend.
  change (parse_comma_list (S (S n)) delayed)
    with (NESTING_GUARD (
            IfM found (peek_css_pos list_terminator)
            Then ret (List_ no_flags [] SASS_SPACE false false)
            Else
              list <- parse_space_list (S n) ;;
              IfM found (peek_css_pos (exactly ","))
              Then comma_list_loop (S n) [list]
              Else ret (if delayed then list else set_delayed false list))).
  apply NESTING_GUARD_ok; [exact Hn |].
  lex_with Hterm. run_with He. lex_with Hcomma. simpl.
  lex_with Hlex. lex_with Hend. reflexivity.
Qed.

(** A space list whose first element is followed by a terminator is that
    element. *)
Lemma space_list_of_one (n : nat) (p p1 : Parser) (e : Expression) (t : nat) :
  nestings p < MAX_NESTING ->
  parse_disjunction n (entered p) = Ok e p1 ->
  peek_css_at space_list_terminator (Some (position p1)) p1 = Some t ->
  parse_space_list (S n) p = Ok e (left_from p p1).
Proof.
  intros Hn He Hterm. simpl.
  apply NESTING_GUARD_ok; [exact Hn |].
  run_with He. lex_with Hterm. reflexivity.
Qed.

Lemma bracket_list_loop_bracketed (n : nat) (acc : list Expression) (p p' : Parser)
    (v : Expression) :
  bracket_list_loop n acc p = Ok v p' -> is_bracketed_list v.
Proof.
  revert acc p. induction n as [| n IH]; intros acc p; [discriminate |].
  simpl. unfold bind at 1, lex_css at 1.
  destruct (lex_css_at (exactly ",") p) as [p1 |].
  - unfold bind at 1, found at 1, bind at 1, peek_css_pos at 1, ret at 1.
    destruct (peek_css_at list_terminator _ p1).
    + intros [= <- <-]. now exists no_flags, acc, SASS_COMMA, false.
    + unfold bind at 1. destruct (parse_space_list n p1) as [e p2 | |]; try discriminate.
      apply IH.
  - intros [= <- <-]. now exists no_flags, acc, SASS_COMMA, false.
Qed.

(** Whatever stands between the brackets, [parse_bracket_list] returns a
    list node with the bracketed flag set. *)
Lemma bracket_list_is_bracketed (n : nat) (p p' : Parser) (v : Expression) :
  parse_bracket_list n p = Ok v p' -> is_bracketed_list v.
Proof.
  destruct n as [| n]; [discriminate |]. simpl.
  unfold NESTING_GUARD.
  destruct (Nat.ltb MAX_NESTING _); [discriminate |].
  match goal with |- match ?body with _ => _ end = _ -> _ =>
    destruct body as [v0 q | |] eqn:Hbody; try discriminate end.
  intros [= <- <-]. revert Hbody.
  unfold bind at 1, found at 1, bind at 1, peek_css_pos at 1, ret at 1.
  destruct (peek_css_at list_terminator _ _).
  - intros [= <- <-]. now exists no_flags, [], SASS_SPACE, false.
  - unfold bind at 1, found at 1, bind at 1, peek_css at 1, ret at 1.
    unfold bind at 1.
    destruct (parse_space_list n _) as [list p1 | |]; try discriminate.
    unfold bind at 1, found at 1, bind at 1, peek_css_pos at 1, ret at 1.
    destruct (peek_css_at (exactly ",") _ p1).
    + apply bracket_list_loop_bracketed.
    + destruct list as [fl es sep arg br | | | | | | | | | | | | | |];
        try (intros [= <- <-]; unfold is_bracketed_list; repeat eexists).
      destruct (br || _); intros [= <- <-].
      * now exists no_flags, [List_ fl es sep arg br], SASS_SPACE, false.
      * now exists fl, es, sep, arg.
Qed.

(** One element that is not itself a list is wrapped, never returned as it
    is. *)
Lemma bracket_list_of_one (n : nat) (p p1 : Parser) (e : Expression) :
  nestings p < MAX_NESTING ->
  peek_css_at list_terminator (Some (position (entered p))) (entered p) = None ->
  parse_space_list n (entered p) = Ok e p1 ->
  peek_css_at (exactly ",") (Some (position p1)) p1 = None ->
  is_list e = false ->
  parse_bracket_list (S n) p
  = Ok (List_ no_flags [e] SASS_SPACE false true) (left_from p p1).
Proof.
  intros Hn Hterm He Hcomma Hlist. simpl.
  apply NESTING_GUARD_ok; [exact Hn |].
  lex_with Hterm.
  unfold bind at 1, found at 1, bind at 1, peek_css at 1, ret at 1.
  run_with He. lex_with Hcomma.
  destruct e; try reflexivity. discriminate.
Qed.

End SingletonLists.

Section SingletonExamples.
#[local] Existing Instance Demo.types.
#[local] Existing Instance Demo.externals.
#[local] Existing Instance Css.lexicon.

(** [1,)] is parsed by the comma-list level into a list of one element:
    the parse finds one element and does not return it. *)
Lemma trailing_comma_gives_a_list_of_one :
  let parsed := returned (parse_comma_list Demo.fuel false (Demo.parser_on "1,)")) in
  parsed = Some (List_ no_flags [one] SASS_COMMA false false)
  /\ parsed <> Some one
  /\ parsed <> Some (set_delayed false one).
Proof. vm_compute. repeat split; discriminate. Qed.

Lemma singleton_lists_in_assignments :
  returned (parse Demo.fuel (Demo.parser_on "$a: (1); $b: (1,); $c: [1]; $d: [1 2];"))
  = Some (Block_
            [Assignment "$a" (set_delayed false one) false false;
             Assignment "$b" (List_ no_flags [one] SASS_COMMA false false) false false;
             Assignment "$c" (List_ no_flags [one] SASS_SPACE false true) false false;
             Assignment "$d" (List_ no_flags [one; Number lexed_flags "2" "" true]
                                    SASS_SPACE false true) false false]
            true).
Proof. vm_compute. reflexivity. Qed.

End SingletonExamples.

Section SingletonClaim.
Context {F : Foreign} {L : Lexicon} {X : Externals}.

(** C3, as amended.  A comma list whose first element is not followed by a
    comma, and a space list whose first element is followed by a terminator,
    is that element itself and not a list of one element (the comma-list
    level clears the element's delayed flag unless it parses a delayed
    list); a single element followed by a trailing comma is a comma list of
    one element.  Whatever [parse_bracket_list] returns is a list node with
    the bracketed flag set, and a single element that is not a list is
    wrapped in such a node. *)
Theorem singleton_is_unwrapped_unless_bracketed :
  (forall (n : nat) (delayed : bool) (p p1 : Parser) (e : Expression),
      nestings p < MAX_NESTING ->
      peek_css_at list_terminator (Some (position (entered p))) (entered p) = None ->
      parse_space_list n (entered p) = Ok e p1 ->
      peek_css_at (exactly ",") (Some (position p1)) p1 = None ->
      parse_comma_list (S n) delayed p
      = Ok (if delayed then e else set_delayed false e) (left_from p p1))
  /\ (forall (n : nat) (delayed : bool) (p p1 p2 : Parser) (e : Expression) (c t : nat),
         nestings p < MAX_NESTING ->
         peek_css_at list_terminator (Some (position (entered p))) (entered p) = None ->
         parse_space_list (S n) (entered p) = Ok e p1 ->
         peek_css_at (exactly ",") (Some (position p1)) p1 = Some c ->
         lex_css_at (exactly ",") p1 = Some p2 ->
         peek_css_at list_terminator (Some (position p2)) p2 = Some t ->
         parse_comma_list (S (S n)) delayed p
         = Ok (List_ no_flags [e] SASS_COMMA false false) (left_from p p2))
  /\ (forall (n : nat) (p p1 : Parser) (e : Expression) (t : nat),
         nestings p < MAX_NESTING ->
         parse_disjunction n (entered p) = Ok e p1 ->
         peek_css_at space_list_terminator (Some (position p1)) p1 = Some t ->
         parse_space_list (S n) p = Ok e (left_from p p1))
  /\ (forall (n : nat) (p p' : Parser) (v : Expression),
         parse_bracket_list n p = Ok v p' ->
         exists fl elements sep arglist, v = List_ fl elements sep arglist true)
  /\ (forall (n : nat) (p p1 : Parser) (e : Expression),
         nestings p < MAX_NESTING ->
         peek_css_at list_terminator (Some (position (entered p))) (entered p) = None ->
         parse_space_list n (entered p) = Ok e p1 ->
         peek_css_at (exactly ",") (Some (position p1)) p1 = None ->
         is_list e = false ->
         parse_bracket_list (S n) p
         = Ok (List_ no_flags [e] SASS_SPACE false true) (left_from p p1)).
Proof.
  repeat split.
  - intros. now apply comma_list_without_comma.
  - intros. eapply comma_list_with_trailing_comma; eassumption.
  - intros. eapply space_list_of_one; eassumption.
  - intros n p p' v H. exact (bracket_list_is_bracketed n p p' v H).
  - intros. now apply bracket_list_of_one.
Qed.

End SingletonClaim.

(** C3 at [1;] and at [1]]: the comma-list level returns the number, the
    bracket level a bracketed list that holds it. *)
Lemma singleton_is_unwrapped_unless_bracketed_witness :
  returned (parse_comma_list (F := Demo.types) (L := Css.lexicon) (X := Demo.externals)
              40 true (Demo.parser_on "1;"))
  = Some one
  /\ returned (parse_bracket_list (F := Demo.types) (L := Css.lexicon)
                 (X := Demo.externals) 40 (Demo.parser_on "1]"))
     = Some (List_ no_flags [one] SASS_SPACE false true).
Proof.
  split.
  - erewrite (proj1 (@singleton_is_unwrapped_unless_bracketed
                       Demo.types Css.lexicon Demo.externals)
                39 true (Demo.parser_on "1;")).
    all: cycle 1.
    + vm_compute. lia.
    + vm_compute. reflexivity.
    + vm_compute. reflexivity.
    + vm_compute. reflexivity.
    + vm_compute. reflexivity.
  - erewrite (proj2 (proj2 (proj2 (proj2 (@singleton_is_unwrapped_unless_bracketed
                                            Demo.types Css.lexicon Demo.externals))))
                39 (Demo.parser_on "1]")).
    all: cycle 1.
    + vm_compute. lia.
    + vm_compute. reflexivity.
    + vm_compute. reflexivity.
    + vm_compute. reflexivity.
    + vm_compute. reflexivity.
    + vm_compute. reflexivity.
Defined.

(* ----------------------------------------------------------------- *)
(** *** Map literals *)

Section Maps.
Context {F : Foreign} {L : Lexicon} {X : Externals}.

Lemma map_entries_even (n : nat) (p p' : Parser) (rest : list Expression) :
  map_entries n p rest p' -> Nat.Even (List.length rest).
Proof.
  induction 1 as [| | n p p1 p2 p3 p4 p5 key value rest _ _ _ _ _ _ [k Hk]].
  - now exists 0.
  - now exists 0.
  - exists (S k). cbn [List.length]. lia.
Qed.

(** The loop returns the hash list of the pairs read before it and the
    entries it reads. *)
Lemma map_loop_entries (n : nat) (p p' : Parser) (rest : list Expression) :
  map_entries n p rest p' ->
  forall map : list Expression,
    map_loop n map p = Ok (List_ no_flags (map ++ rest) SASS_HASH false false) p'.
Proof.
  induction 1 as [n p Hend | n p p1 closing Hcomma Hclose
                 | n p p1 p2 p3 p4 p5 key value rest Hcomma Hclose Hkey Hcolon Hvalue _ IH];
    intros map; simpl.
  - lex_with Hend. now rewrite app_nil_r.
  - lex_with Hcomma. lex_with Hclose. now rewrite app_nil_r.
  - lex_with Hcomma. lex_with Hclose. run_with Hkey. lex_with Hcolon. run_with Hvalue.
    rewrite IH. now rewrite <- app_assoc.
Qed.

(** Conversely, what the loop returns is such a list. *)
Lemma map_loop_returns_entries (n : nat) (map : list Expression) (p p' : Parser)
    (v : Expression) :
  map_loop n map p = Ok v p' ->
  exists rest, map_entries n p rest p'
               /\ v = List_ no_flags (map ++ rest) SASS_HASH false false.
Proof.
  revert map p. induction n as [| n IH]; intros map p; [discriminate |].
  simpl. unfold bind at 1, lex_css at 1.
  destruct (lex_css_at (exactly ",") p) as [p1 |] eqn:Hcomma.
  - unfold bind at 1, found at 1, bind at 1, peek_css_pos at 1, ret at 1.
    destruct (peek_css_at (exactly ")") _ p1) as [closing |] eqn:Hclose.
    + intros [= <- <-]. exists []. split.
      * eapply entries_trailing_comma; eassumption.
      * now rewrite app_nil_r.
    + unfold bind at 1.
      destruct (parse_space_list n p1) as [key p2 | |] eqn:Hkey; try discriminate.
      unfold bind at 1, lex at 1.
      destruct (lex_at (exactly ":") true false p2) as [p3 |] eqn:Hcolon.
      * unfold bind at 1.
        destruct (parse_space_list n p3) as [value p4 | |] eqn:Hvalue; try discriminate.
        intros Hloop. apply IH in Hloop as [rest [Hrest ->]].
        exists (key :: value :: rest). split.
        -- eapply entries_pair; eassumption.
        -- now rewrite <- app_assoc.
      * unfold expected_colon. now rewrite css_error_is_error.
  - intros [= <- <-]. exists []. split.
    + now apply entries_end.
    + now rewrite app_nil_r.
Qed.

(** A parenthesized list whose first element is followed by [:] is a hash
    list: the first key, the first value and the entries of the loop. *)
Lemma parse_map_is_map (n : nat) (p p1 p2 p3 p4 : Parser) (key value : Expression)
    (rest : list Expression) :
  nestings p < MAX_NESTING ->
  parse_list n false (entered p) = Ok key p1 ->
  lex_css_at (exactly ":") p1 = Some p2 ->
  is_comma_list key = false ->
  parse_space_list n p2 = Ok value p3 ->
  map_entries n p3 rest p4 ->
  parse_map (S n) p
  = Ok (List_ no_flags (key :: value :: rest) SASS_HASH false false) (left_from p p4).
Proof.
  intros Hn Hkey Hcolon Hnot Hvalue Hrest. simpl.
  apply NESTING_GUARD_ok; [exact Hn |].
  run_with Hkey. lex_with Hcolon. rewrite Hnot.
  run_with Hvalue. now rewrite (map_loop_entries n p3 p4 rest Hrest).
Qed.

(** A comma list in front of the first [:] is an error. *)
Lemma parse_map_rejects_comma_key (n : nat) (p p1 p2 : Parser) (key : Expression) :
  nestings p < MAX_NESTING ->
  parse_list n false (entered p) = Ok key p1 ->
  lex_css_at (exactly ":") p1 = Some p2 ->
  is_comma_list key = true ->
  parse_map (S n) p = expected_closing_paren p2.
Proof.
  intros Hn Hkey Hcolon Hcomma. simpl.
  unfold expected_closing_paren. rewrite css_error_is_error.
  apply NESTING_GUARD_err; [exact Hn |].
  run_with Hkey. lex_with Hcolon. rewrite Hcomma.
  unfold expected_closing_paren. now rewrite css_error_is_error.
Qed.

(** Without a [:] the parenthesized expression is the list itself. *)
Lemma parse_map_without_colon (n : nat) (p p1 : Parser) (key : Expression) :
  nestings p < MAX_NESTING ->
  parse_list n false (entered p) = Ok key p1 ->
  lex_css_at (exactly ":") p1 = None ->
  parse_map (S n) p = Ok key (left_from p p1).
Proof.
  intros Hn Hkey Hcolon. simpl.
  apply NESTING_GUARD_ok; [exact Hn |].
  run_with Hkey. lex_with Hcolon. reflexivity.
Qed.

(** The first key is what the space-list level returns, with its delayed
    flag cleared, whenever the map does not start with a list terminator. *)
Lemma first_key_is_a_space_list (n : nat) (p p1 : Parser) (key : Expression) :
  parse_list (S (S n)) false p = Ok key p1 ->
  is_comma_list key = false ->
  (key = List_ no_flags [] SASS_SPACE false false
   /\ peek_css_at list_terminator (Some (position (entered (entered p))))
                  (entered (entered p)) <> None)
  \/ exists e q, parse_space_list n (entered (entered p)) = Ok e q
                 /\ key = set_delayed false e.
Proof.
  simpl. unfold NESTING_GUARD at 1.
  destruct (Nat.ltb MAX_NESTING _); [discriminate |].
  fold (entered p).
  unfold NESTING_GUARD at 1.
  destruct (Nat.ltb MAX_NESTING (nestings (set_nestings _ (entered p)))); [discriminate |].
  fold (entered (entered p)).
  unfold bind at 1, found at 1, bind at 1, peek_css_pos at 1, ret at 1.
  destruct (peek_css_at list_terminator _ _) as [t |] eqn:Hterm.
  - intros [= <- <-] _. left. split; [reflexivity | discriminate].
  - unfold bind at 1.
    destruct (parse_space_list n _) as [e q | |] eqn:He; try discriminate.
    unfold bind at 1, found at 1, bind at 1, peek_css_pos at 1, ret at 1.
    destruct (peek_css_at (exactly ",") _ q).
    + destruct (comma_list_loop n [e] q) as [v q' | |] eqn:Hloop; try discriminate.
      intros [= <- <-] Hnot. exfalso.
      assert (Hc : forall m acc s v0 s', comma_list_loop m acc s = Ok v0 s' ->
                                       is_comma_list v0 = true).
      { clear. induction m as [| m IH]; intros acc s v0 s'; [discriminate |].
        simpl. unfold bind at 1, lex_css at 1.
        destruct (lex_css_at (exactly ",") s) as [s1 |].
        - unfold bind at 1, found at 1, bind at 1, peek_css_pos at 1, ret at 1.
          destruct (peek_css_at list_terminator _ s1).
          + now intros [= <- <-].
          + unfold bind at 1.
            destruct (parse_space_list m s1) as [e1 s2 | |]; try discriminate.
            apply IH.
        - now intros [= <- <-]. }
      apply Hc in Hloop. congruence.
    + intros [= <- <-] _. right. now exists e, q.
Qed.

(** When the first element is followed by [:], whatever [parse_map] returns
    is such a hash list. *)
Lemma parse_map_returns_map (n : nat) (p p1 p2 p' : Parser) (key v : Expression) :
  parse_list n false (entered p) = Ok key p1 ->
  lex_css_at (exactly ":") p1 = Some p2 ->
  parse_map (S n) p = Ok v p' ->
  is_comma_list key = false
  /\ exists value p3 rest p4,
       parse_space_list n p2 = Ok value p3
       /\ map_entries n p3 rest p4
       /\ v = List_ no_flags (key :: value :: rest) SASS_HASH false false
       /\ p' = left_from p p4.
Proof.
  intros Hkey Hcolon. simpl. unfold NESTING_GUARD.
  destruct (Nat.ltb MAX_NESTING _); [discriminate |].
  fold (entered p). run_with Hkey. lex_with Hcolon.
  destruct (is_comma_list key).
  - unfold expected_closing_paren. now rewrite css_error_is_error.
  - unfold bind at 1.
    destruct (parse_space_list n p2) as [value p3 | |]; try discriminate.
    destruct (map_loop n [key; value] p3) as [m p4 | |] eqn:Hloop; try discriminate.
    intros [= <- <-]. split; [reflexivity |].
    apply map_loop_returns_entries in Hloop as [rest [Hrest ->]].
    now exists value, p3, rest, p4.
Qed.

End Maps.

Section MapExamples.
#[local] Existing Instance Demo.types.
#[local] Existing Instance Demo.externals.
#[local] Existing Instance Css.lexicon.

Lemma map_with_trailing_comma :
  returned (parse Demo.fuel (Demo.parser_on "$m: (a: 1, b: 2,);"))
  = Some (Block_ [Assignment "$m" two_entry_map false false] true).
Proof. vm_compute. reflexivity. Qed.

Lemma map_with_comma_list_key :
  exists at_ msg,
    parse Demo.fuel (Demo.parser_on "$m: (a, b: 1);") = Err (InvalidSass at_ msg).
Proof. vm_compute. eauto. Qed.

(** The first key of a map is not read as a space list.  In [(: 1)] the
    text behind the parenthesis starts with a list terminator:
    [parse_space_list] fails there, and [parse_map], which reads the first
    key with [parse_list], returns a map whose first key is the empty list.
    In [(1/2: 1, 1/2: 2)] the first key is the division with its delayed
    flags cleared, and the second key, which [parse_space_list] returns, is
    the same division delayed. *)
Lemma first_key_is_read_as_a_list :
  (exists at_ msg,
      parse_space_list Demo.fuel (Demo.parser_on ": 1)") = Err (InvalidSass at_ msg))
  /\ returned (parse_map Demo.fuel (Demo.parser_on ": 1)"))
     = Some (List_ no_flags [List_ no_flags [] SASS_SPACE false false; one]
                   SASS_HASH false false)
  /\ returned (parse Demo.fuel (Demo.parser_on "$m: (: 1);"))
     = Some (Block_ [Assignment "$m"
                       (List_ no_flags [List_ no_flags [] SASS_SPACE false false; one]
                              SASS_HASH false false)
                       false false] true)
  /\ returned (parse_space_list Demo.fuel (Demo.parser_on "1/2: 1, 1/2: 2)"))
     = Some half_delayed
  /\ returned (parse_map Demo.fuel (Demo.parser_on "1/2: 1, 1/2: 2)"))
     = Some (List_ no_flags
                   [set_delayed false half_delayed; one;
                    half_delayed; Number lexed_flags "2" "" true]
                   SASS_HASH false false)
  /\ set_delayed false half_delayed <> half_delayed.
Proof.
  split; [vm_compute; eauto |].
  repeat (split; [vm_compute; reflexivity |]).
  vm_compute. discriminate.
Qed.

End MapExamples.

Section MapClaim.
Context {F : Foreign} {L : Lexicon} {X : Externals}.

(** C4, as amended.  A parenthesized expression whose first element, as
    [parse_list] returns it, is followed by [:] is parsed into a hash list:
    the first key,
    the first value and, for every comma that is not directly followed by
    [)], one more key and value, each of them returned by
    [parse_space_list] (the first key is what [parse_space_list] returns with
    its delayed flag cleared, or the empty list when the expression starts
    with a list terminator).  A comma directly in front of [)] ends the map
    without an error.  Whatever [parse_map] returns behind such a first
    element is a hash list of this shape, with an even number of
    expressions.  When the expression in front of the first [:] is a comma
    list the parse fails with the error that expects a closing
    parenthesis. *)
Theorem parenthesized_pairs_are_a_map :
  (forall (n : nat) (p p1 p2 p3 p4 : Parser) (key value : Expression)
          (rest : list Expression),
      nestings p < MAX_NESTING ->
      parse_list n false (entered p) = Ok key p1 ->
      lex_css_at (exactly ":") p1 = Some p2 ->
      is_comma_list key = false ->
      parse_space_list n p2 = Ok value p3 ->
      map_entries n p3 rest p4 ->
      parse_map (S n) p
      = Ok (List_ no_flags (key :: value :: rest) SASS_HASH false false) (left_from p p4))
  /\ (forall (n : nat) (p p1 p2 p' : Parser) (key v : Expression),
         parse_list n false (entered p) = Ok key p1 ->
         lex_css_at (exactly ":") p1 = Some p2 ->
         parse_map (S n) p = Ok v p' ->
         is_comma_list key = false
         /\ exists value p3 rest p4,
              parse_space_list n p2 = Ok value p3
              /\ map_entries n p3 rest p4
              /\ Nat.Even (List.length (key :: value :: rest))
              /\ v = List_ no_flags (key :: value :: rest) SASS_HASH false false
              /\ p' = left_from p p4)
  /\ (forall (n : nat) (p p1 : Parser) (closing : nat),
         lex_css_at (exactly ",") p = Some p1 ->
         peek_css_at (exactly ")") (Some (position p1)) p1 = Some closing ->
         forall map : list Expression,
           map_loop (S n) map p = Ok (List_ no_flags map SASS_HASH false false) p1)
  /\ (forall (n : nat) (p p1 : Parser) (key : Expression),
         parse_list (S (S n)) false p = Ok key p1 ->
         is_comma_list key = false ->
         (key = List_ no_flags [] SASS_SPACE false false
          /\ peek_css_at list_terminator (Some (position (entered (entered p))))
                         (entered (entered p)) <> None)
         \/ exists e q, parse_space_list n (entered (entered p)) = Ok e q
                        /\ key = set_delayed false e)
  /\ (forall (n : nat) (p p1 p2 : Parser) (key : Expression),
         nestings p < MAX_NESTING ->
         parse_list n false (entered p) = Ok key p1 ->
         lex_css_at (exactly ":") p1 = Some p2 ->
         is_comma_list key = true ->
         exists at_ left right,
           parse_map (S n) p
           = Err (InvalidSass at_
                    ("Invalid CSS" ++ " after " ++ quote left
                     ++ (": expected " ++ dquote ++ ")" ++ dquote ++ ", was ")
                     ++ quote right))).
Proof.
  split; [| split; [| split; [| split]]].
  - intros. eapply parse_map_is_map; eassumption.
  - intros n p p1 p2 p' key v Hkey Hcolon Hmap.
    destruct (parse_map_returns_map n p p1 p2 p' key v Hkey Hcolon Hmap)
      as [Hnot [value [p3 [rest [p4 [Hvalue [Hrest [-> ->]]]]]]]].
    split; [exact Hnot |].
    exists value, p3, rest, p4. repeat split; try assumption.
    destruct (map_entries_even n p3 p4 rest Hrest) as [k Hk].
    exists (S k). cbn [List.length]. lia.
  - intros n p p1 closing Hcomma Hclose map.
    rewrite (map_loop_entries (S n) p p1 [] (entries_trailing_comma n p p1 closing Hcomma Hclose)).
    now rewrite app_nil_r.
  - intros. eapply first_key_is_a_space_list; eassumption.
  - intros n p p1 p2 key Hn Hkey Hcolon Hcomma.
    rewrite (parse_map_rejects_comma_key n p p1 p2 key Hn Hkey Hcolon Hcomma).
    unfold expected_closing_paren. rewrite css_error_is_error. eauto.
Qed.

End MapClaim.

(** C4 at [a: 1, b: 2,)], the text behind the opening parenthesis of
    [$m: (a: 1, b: 2,);]: a map of two entries. *)
Lemma parenthesized_pairs_are_a_map_witness :
  returned (parse_map (F := Demo.types) (L := Css.lexicon) (X := Demo.externals)
              40 (Demo.parser_on "a: 1, b: 2,)"))
  = Some two_entry_map.
Proof.
  erewrite (proj1 (@parenthesized_pairs_are_a_map Demo.types Css.lexicon Demo.externals)
              39 (Demo.parser_on "a: 1, b: 2,)")).
  all: cycle 1.
  - vm_compute. lia.
  - vm_compute. reflexivity.
  - vm_compute. reflexivity.
  - vm_compute. reflexivity.
  - vm_compute. reflexivity.
  - eapply entries_pair.
    + vm_compute. reflexivity.
    + vm_compute. reflexivity.
    + vm_compute. reflexivity.
    + vm_compute. reflexivity.
    + vm_compute. reflexivity.
    + eapply entries_trailing_comma.
      * vm_compute. reflexivity.
      * vm_compute. reflexivity.
  - vm_compute. reflexivity.
Defined.

(* ----------------------------------------------------------------- *)
(** *** The dispatch of [parse_block_node] *)

Section DispatchProperties.
Context {F : Foreign} {L : Lexicon} {X : Externals}.


End DispatchProperties.

(* ----------------------------------------------------------------- *)
(** *** [@if] and [@else] *)

Section IfDirective.
Context {F : Foreign} {L : Lexicon} {X : Externals}.




(** Neither of them: no alternative. *)
Lemma if_without_else (n : nat) (else_if : bool) (p p1 p2 : Parser)
    (predicate : Expression) (block : Block) :
  parse_list n false (in_scope Control p) = Ok predicate p1 ->
  parse_block n (back_is_root p) p1 = Ok block p2 ->
  lex_css_at elseif_directive p2 = None ->
  lex_css_at kwd_else_directive p2 = None ->
  parse_if_directive (S n) else_if p = Ok (If predicate block None) (out_of_scope p2).
Proof.
  intros Hpred Hblock Helseif Helse. simpl.
  unfold bind at 1, push_scope at 1, modify at 1. fold (in_scope Control p).
  unfold bind at 1, get at 1.
  run_with Hpred.
  change (back_is_root (in_scope Control p)) with (back_is_root p).
  run_with Hblock.
  unfold bind at 1. lex_with Helseif. lex_with Helse. reflexivity.
Qed.


End IfDirective.

Section IfExamples.
#[local] Existing Instance Demo.types.
#[local] Existing Instance Demo.externals.
#[local] Existing Instance Css.lexicon.

Lemma if_else_if_else_chain :
  returned (parse Demo.fuel
              (Demo.parser_on "@if $a { $x: 1; } @else if $b { $x: 2; } @else { $x: 3; }"))
  = Some (Block_
            [If (Variable_ no_flags "$a") (Block_ [assign "$x" "1"] true)
                (Some (Block_
                         [If (Variable_ no_flags "$b") (Block_ [assign "$x" "2"] true)
                             (Some (Block_ [assign "$x" "3"] true))]
                         false))]
            true).
Proof. vm_compute. reflexivity. Qed.

Lemma free_standing_else :
  parse Demo.fuel (Demo.parser_on "@else { }")
  = Err (InvalidSass (mkOffset 0 0) "Invalid CSS: @else must come after @if").
Proof. vm_compute. reflexivity. Qed.

(** A statement between the block of the [@if] and the [@else] leaves the
    directive without alternative and the [@else] in dispatch position. *)
Lemma else_behind_another_statement :
  parse Demo.fuel (Demo.parser_on "@if $a { } $x: 1; @else { }")
  = Err (InvalidSass (mkOffset 0 18) "Invalid CSS: @else must come after @if").
Proof. vm_compute. reflexivity. Qed.

End IfExamples.

Section ElseClaim.
Context {F : Foreign} {L : Lexicon} {X : Externals}.


End ElseClaim.


(* ----------------------------------------------------------------- *)
(** *** [@import] and the enclosing scope *)

Section ImportGuard.
Context {F : Foreign} {L : Lexicon} {X : Externals}.

Lemma import_is_guarded_spec (s : Scope) :
  import_is_guarded s
  = negb (Scope_eqb s Function) && negb (Scope_eqb s Root)
    && negb (Scope_eqb s Rules) && negb (Scope_eqb s Media).
Proof. now destruct s. Qed.

(** The run of [parse_block_node] up to the [@import] keyword. *)
Lemma import_dispatch (n : nat) (is_root : bool) (p p0 p1 : Parser) (s : Scope) :
  dispatches_at n p p0 ->
  refused before_import p0 ->
  lex_at kwd_import true false p0 = Some p1 ->
  stack_back p0 = Some s ->
  parse_block_node (S n) is_root p
  = if import_is_guarded s
       && match peek_css_at uri_prefix (Some (position p1)) p1 with
          | Some _ => false
          | None => true
          end
    then Err (InvalidSass (before_token p1) import_message)
    else import_nodes n p1.
Proof.
  intros [pa [b [Hcomments Hspace]]] H1 Himport Hscope.
  unfold before_import in *. refused_heads.
  simpl. run_with Hcomments. run_with Hspace.
  repeat skip_lex.
  unfold bind at 1, lex at 1. rewrite Himport. cbv beta iota.
  unfold bind at 1, get at 1.
  unfold bind at 1, found at 1, bind at 1, peek_css_pos at 1, ret at 1.
  assert (Hstack : stack_back p1 = Some s).
  { unfold stack_back in *. apply lex_at_frame in Himport.
    destruct Himport as [_ [_ [-> _]]]. exact Hscope. }
  rewrite Hstack, import_is_guarded_spec.
  destruct (peek_css_at uri_prefix (Some (position p1)) p1);
    destruct (negb (Scope_eqb s Function) && negb (Scope_eqb s Root)
              && negb (Scope_eqb s Rules) && negb (Scope_eqb s Media));
    cbn [negb andb]; try reflexivity.
  unfold error. now rewrite (lex_at_error_position _ _ _ _ _ Himport).
Qed.

End ImportGuard.

Section ImportExamples.
#[local] Existing Instance Demo.types.
#[local] Existing Instance Demo.externals.
#[local] Existing Instance Css.lexicon.

(** An [@import] in the body of a function is parsed: the block of the
    function holds the stub of the imported resource, and no error is
    raised. *)
Lemma import_inside_a_function_is_parsed :
  parse Demo.fuel (Demo.parser_on import_in_a_function)
  <> Err (InvalidSass (mkOffset 0 16) import_message)
  /\ returned (parse Demo.fuel (Demo.parser_on import_in_a_function))
     = Some (Block_ [Definition_ "f" [] (Block_ [Import_Stub "x"] false) FUNCTION] true).
Proof. vm_compute. split; [discriminate | reflexivity]. Qed.

Lemma import_inside_a_mixin :
  parse Demo.fuel (Demo.parser_on ("@mixin m { @import " ++ quoted "x" ++ "; }"))
  = Err (InvalidSass (mkOffset 0 11) import_message).
Proof. vm_compute. reflexivity. Qed.

Lemma import_inside_control_directives :
  parse Demo.fuel (Demo.parser_on "@if $a { @import 'x'; }")
  = Err (InvalidSass (mkOffset 0 9) import_message)
  /\ parse Demo.fuel (Demo.parser_on "@while $a { @import 'x'; }")
     = Err (InvalidSass (mkOffset 0 12) import_message)
  /\ parse Demo.fuel (Demo.parser_on "@each $i in $a { @import 'x'; }")
     = Err (InvalidSass (mkOffset 0 17) import_message)
  /\ parse Demo.fuel (Demo.parser_on "@for $i from 1 to 2 { @import 'x'; }")
     = Err (InvalidSass (mkOffset 0 22) import_message).
Proof. vm_compute. repeat split. Qed.

End ImportExamples.

Section ImportClaim.
Context {F : Foreign} {L : Lexicon} {X : Externals}.

(** C2, as amended.  An [@import] in dispatch position whose innermost
    scope is [Control] or [Mixin] (or [Properties] or [AtRoot]) and whose
    target does not start with [url(] fails the parse with the error
    "Import directives may not be used within control directives or
    mixins.", reported at the first byte of the [@import] token.  In the
    scope [Function], as in [Root], [Rules] and [Media], the import is not
    rejected by this rule: the parse goes on with [parse_import] and appends
    the nodes of the import. *)
Theorem import_is_rejected_in_control_and_mixin
    (n : nat) (is_root : bool) (p p0 p1 : Parser) (s : Scope) :
  dispatches_at n p p0 ->
  refused before_import p0 ->
  lex_at kwd_import true false p0 = Some p1 ->
  stack_back p0 = Some s ->
  (In s [Control; Mixin; Properties; AtRoot] ->
   peek_css_at uri_prefix (Some (position p1)) p1 = None ->
   parse_block_node (S n) is_root p = Err (InvalidSass (before_token p1) import_message)
   /\ before_token p1
      = Offset_add (after_token p0) (slice (source p0) (position p0) (tk_begin (lexed p1))))
  /\ (In s [Function; Root; Rules; Media] ->
      parse_block_node (S n) is_root p = import_nodes n p1).
Proof.
  intros Hdispatch Hrefused Himport Hscope.
  rewrite (import_dispatch n is_root p p0 p1 s Hdispatch Hrefused Himport Hscope).
  split.
  - intros Hin Huri. rewrite Huri. split.
    + cbn in Hin. now destruct Hin as [<- | [<- | [<- | [<- | []]]]].
    + exact (lex_at_before_token _ _ _ _ _ Himport).
  - intros Hin. cbn in Hin. now destruct Hin as [<- | [<- | [<- | [<- | []]]]].
Qed.

End ImportClaim.

(** C2 at [@import 'x';] inside a mixin: the error is reported at the
    keyword, in column 2. *)
Lemma import_is_rejected_in_control_and_mixin_witness :
  parse_block_node (F := Demo.types) (L := Css.lexicon) (X := Demo.externals)
    40 false (Demo.parser_in [Mixin] "  @import 'x';")
  = Err (InvalidSass (mkOffset 0 2) import_message).
Proof.
  edestruct (@import_is_rejected_in_control_and_mixin
               Demo.types Css.lexicon Demo.externals
               39 false (Demo.parser_in [Mixin] "  @import 'x';")) as [H _].
  - eexists. eexists. split; vm_compute; reflexivity.
  - unfold refused, before_import. repeat (constructor; [vm_compute; reflexivity |]).
    constructor.
  - vm_compute. reflexivity.
  - vm_compute. reflexivity.
  - destruct H as [H _].
    + cbn. tauto.
    + vm_compute. reflexivity.
    + rewrite H. vm_compute. reflexivity.
Defined.

(* ----------------------------------------------------------------- *)
(** *** [@charset] *)

Section Charset.
Context {F : Foreign} {L : Lexicon} {X : Externals}.

(** Without a block comment at the cursor [parse_block_comments] does
    nothing. *)
Lemma no_block_comment (n : nat) (store : bool) (p : Parser) :
  lex_at block_comment true false p = None ->
  parse_block_comments (S n) store p = Ok tt p.
Proof. intros H. simpl. unfold bind at 1, lex at 1. now rewrite H. Qed.

(** The run of [parse_block_node] on a [@charset] directive. *)
Lemma charset_dispatch (n : nat) (is_root : bool) (p p0 p1 p2 : Parser) :
  dispatches_at n p p0 ->
  refused before_import p0 ->
  refused [kwd_import; kwd_extend] p0 ->
  no_ruleset p0 ->
  refused before_charset p0 ->
  lex_at kwd_charset_directive true false p0 = Some p1 ->
  lex_at charset_tail true false p1 = Some p2 ->
  parse_block_node (S n) is_root p = Ok true p2.
Proof.
  intros [pa [b [Hcomments Hspace]]] H1 H2 [rv [Hla Hrefuse]] H3 Hcharset Htail.
  unfold before_import, before_charset in *. refused_heads.
  simpl. run_with Hcomments. run_with Hspace.
  repeat skip_lex.
  unfold bind at 1, here at 1. unfold bind at 1. rewrite Hla. cbv beta iota.
  rewrite Hrefuse.
  repeat skip_lex.
  unfold bind at 1, lex at 1. rewrite Hcharset. cbv beta iota.
  unfold bind at 1, parse_charset_directive at 1.
  unfold bind at 1, lex at 1. fold charset_tail. now rewrite Htail.
Qed.

End Charset.

Section CharsetExamples.
#[local] Existing Instance Demo.types.
#[local] Existing Instance Demo.externals.
#[local] Existing Instance Css.lexicon.

Lemma charset_leaves_no_node :
  returned (parse Demo.fuel (Demo.parser_on charset_and_assignment))
  = returned (parse Demo.fuel (Demo.parser_on "$a: 1;"))
  /\ returned (parse Demo.fuel (Demo.parser_on charset_and_assignment))
     = Some (Block_ [Assignment "$a" (set_delayed false (Number lexed_flags "1" "" true))
                                false false] true).
Proof. vm_compute. split; reflexivity. Qed.

Lemma charset_inside_a_ruleset_block :
  returned (parse_block Demo.fuel false (Demo.parser_in [Rules] "{ @charset 'x'; }"))
  = Some (Block_ [] false).
Proof. vm_compute. reflexivity. Qed.

End CharsetExamples.

Section CharsetClaim.
Context {F : Foreign} {L : Lexicon} {X : Externals}.

(** C10.  When [parse_block_node] dispatches on a [@charset] directive, the
    keyword followed by a quoted string, optional spaces and [;], it
    consumes the directive and reports a match, and the blocks of the
    parser, the enclosing block among them, are the same behind the
    directive as in front of it; with no block comment in front of the
    directive they are the same as when [parse_block_node] was called. *)
Theorem charset_adds_no_node (n : nat) (is_root : bool) (p p0 p1 p2 : Parser) :
  dispatches_at n p p0 ->
  refused before_import p0 ->
  refused [kwd_import; kwd_extend] p0 ->
  no_ruleset p0 ->
  refused before_charset p0 ->
  lex_at kwd_charset_directive true false p0 = Some p1 ->
  lex_at charset_tail true false p1 = Some p2 ->
  parse_block_node (S n) is_root p = Ok true p2
  /\ block_stack p2 = block_stack p0
  /\ position p0 < position p1 < position p2
  /\ (lex_at block_comment true false p = None -> 0 < n ->
      block_stack p2 = block_stack p).
Proof.
  intros Hdispatch H1 H2 Hla H3 Hcharset Htail.
  split; [eapply charset_dispatch; eassumption |].
  pose proof (lex_at_frame _ _ _ _ _ Hcharset) as [_ [Hb1 _]].
  pose proof (lex_at_frame _ _ _ _ _ Htail) as [_ [Hb2 _]].
  split; [congruence |].
  split; [split; eapply lex_at_advances; eassumption |].
  intros Hcomment Hn.
  destruct Hdispatch as [pa [b [Hcomments Hspace]]].
  destruct n as [| n]; [lia |].
  rewrite (no_block_comment n true p Hcomment) in Hcomments.
  injection Hcomments as <-.
  apply lex_frame in Hspace as [Hb0 _]. congruence.
Qed.

End CharsetClaim.

(** C10 at [@charset 'UTF-8'; $a: 1;]: the directive is consumed, the cursor
    stands behind its semicolon and the root block is still empty. *)
Lemma charset_adds_no_node_witness :
  let r := parse_block_node (F := Demo.types) (L := Css.lexicon) (X := Demo.externals)
             40 true (Demo.parser_on "@charset 'UTF-8'; $a: 1;") in
  match r with
  | Ok matched p => matched = true /\ position p = 17 /\ block_stack p = [Block_ [] true]
  | _ => False
  end.
Proof.
  edestruct (@charset_adds_no_node Demo.types Css.lexicon Demo.externals
               39 true (Demo.parser_on "@charset 'UTF-8'; $a: 1;")) as [H _].
  - eexists. eexists. split; vm_compute; reflexivity.
  - unfold refused, before_import. repeat (constructor; [vm_compute; reflexivity |]).
    constructor.
  - unfold refused. repeat (constructor; [vm_compute; reflexivity |]). constructor.
  - eexists. split; vm_compute; reflexivity.
  - unfold refused, before_charset. repeat (constructor; [vm_compute; reflexivity |]).
    constructor.
  - vm_compute. reflexivity.
  - vm_compute. reflexivity.
  - cbv zeta. rewrite H. vm_compute. repeat split.
Defined.

(* ----------------------------------------------------------------- *)
(** *** The look-ahead scans *)

Section LookaheadFrame.
Context {F : Foreign} {L : Lexicon} {X : Externals}.

(** A peek from a given pointer reads the buffer and its end, nothing else
    of the parser. *)
Lemma peek_at_reads (m : matcher) (s : nat) (p p' : Parser) :
  source p = source p' -> end_ p = end_ p' ->
  peek_at m (Some s) p = peek_at m (Some s) p'.
Proof.
  intros Hs He. unfold peek_at, sneak, match_at, text_at. now rewrite Hs, He.
Qed.

Lemma selector_scan_reads (p p' : Parser) (n a q : nat) (b c d : bool) :
  source p = source p' -> end_ p = end_ p' ->
  selector_scan p n a q b c d = selector_scan p' n a q b c d.
Proof.
  intros Hs He. revert a c d.
  induction n as [| n IH]; intros a c d; [reflexivity |].
  cbn [selector_scan]. rewrite Hs, (peek_at_reads space (a + 1) p p' Hs He).
  destruct (_ && _); [reflexivity |]. apply IH.
Qed.

Lemma value_scan_reads (p p' : Parser) (n a : nat) :
  source p = source p' -> value_scan p n a = value_scan p' n a.
Proof.
  intros Hs. revert a. induction n as [| n IH]; intros a; [reflexivity |].
  cbn [value_scan]. rewrite Hs. destruct (_ && _); [reflexivity |]. apply IH.
Qed.

(** The scans return, and leave the parser as it is. *)
Lemma lookahead_for_selector_frame (start : option nat) (p : Parser) :
  exists rv, lookahead_for_selector start p = Ok rv p.
Proof.
  cbv beta iota zeta delta [lookahead_for_selector bind get peek found ret].
  destruct (peek_at re_selector_list _ p); eexists; reflexivity.
Qed.

Lemma lookahead_for_value_frame (start : option nat) (p : Parser) :
  exists rv, lookahead_for_value start p = Ok rv p.
Proof.
  cbv beta iota zeta delta [lookahead_for_value bind get peek found ret].
  destruct (peek_at value_lookahead _ p) as [q |]; [| eexists; reflexivity].
  destruct (Nat.eqb _ q); eexists; reflexivity.
Qed.

Lemma lookahead_for_include_frame (start : option nat) (p : Parser) :
  exists rv, lookahead_for_include start p = Ok rv p.
Proof.
  unfold lookahead_for_include. unfold bind at 1.
  destruct (lookahead_for_selector_frame start p) as [rv ->].
  destruct (la_position rv) as [q |]; [| eexists; reflexivity].
  cbv beta iota delta [bind peek found ret].
  destruct (peek_at (exactly ";") (Some q) p);
    destruct (peek_at (exactly "}") (Some q) p); eexists; reflexivity.
Qed.

(** From a given pointer the result is a function of the buffer and its
    end. *)
Lemma lookahead_for_selector_reads (s : nat) (p p' : Parser) :
  source p = source p' -> end_ p = end_ p' ->
  returned (lookahead_for_selector (Some s) p)
  = returned (lookahead_for_selector (Some s) p').
Proof.
  intros Hs He.
  cbv beta iota zeta delta [lookahead_for_selector bind get peek found ret].
  rewrite (peek_at_reads re_selector_list s p p' Hs He).
  destruct (peek_at re_selector_list (Some s) p') as [q |]; [| reflexivity].
  rewrite (peek_at_reads _ s p p' Hs He), (peek_at_reads (exactly "{") q p p' Hs He),
    (peek_at_reads (exactly "(") q p p' Hs He), Hs.
  now rewrite (selector_scan_reads p p' _ _ _ _ _ _ Hs He).
Qed.

Lemma lookahead_for_value_reads (s : nat) (p p' : Parser) :
  source p = source p' -> end_ p = end_ p' ->
  returned (lookahead_for_value (Some s) p) = returned (lookahead_for_value (Some s) p').
Proof.
  intros Hs He.
  cbv beta iota zeta delta [lookahead_for_value bind get peek found ret].
  rewrite (peek_at_reads value_lookahead s p p' Hs He).
  destruct (peek_at value_lookahead (Some s) p') as [q |]; [| reflexivity].
  destruct (Nat.eqb s q); [reflexivity |].
  rewrite (peek_at_reads (exactly "{") q p p' Hs He),
    (peek_at_reads (exactly ";") q p p' Hs He),
    (peek_at_reads (exactly "}") q p p' Hs He).
  now rewrite (value_scan_reads p p' _ _ Hs).
Qed.

End LookaheadFrame.

Section LookaheadExamples.
#[local] Existing Instance Demo.types.
#[local] Existing Instance Demo.externals.
#[local] Existing Instance Css.lexicon.

Lemma lookahead_for_a_ruleset :
  lookahead_for_selector None (Demo.parser_on "a b { c: d; }")
  = Ok (mkLookahead (Some 4) None (Some 4) true false false)
       (Demo.parser_on "a b { c: d; }").
Proof. vm_compute. reflexivity. Qed.

Lemma lookahead_for_an_interpolated_value :
  lookahead_for_value (Some 3) (Demo.parser_on "c: #{$d}px;")
  = Ok (mkLookahead (Some 10) None (Some 10) false true false)
       (Demo.parser_on "c: #{$d}px;").
Proof. vm_compute. reflexivity. Qed.

End LookaheadExamples.

Section LookaheadClaim.
Context {F : Foreign} {L : Lexicon} {X : Externals}.

(** C9.  From every starting pointer and in every state of the parser,
    [lookahead_for_selector] and [lookahead_for_value] return a result and
    leave the parser in the state they were called in: cursor, position
    tracker and everything else.  Their result from a given pointer does not
    depend on the cursor, on the position tracker or on the last token: it is
    the same wherever they stand. *)
Theorem lookahead_leaves_the_parser_unchanged :
  (forall (start : option nat) (p : Parser),
      exists rv, lookahead_for_selector start p = Ok rv p)
  /\ (forall (start : option nat) (p : Parser),
         exists rv, lookahead_for_value start p = Ok rv p)
  /\ (forall (s cursor : nat) (before after : Offset) (tracker : ParserState)
             (token : Token) (p : Parser),
         let p' := mkParser (ctx p) (block_stack p) (stack p) (source p) cursor (end_ p)
                            before after tracker (indentation p) (nestings p)
                            (allow_parent p) token in
         returned (lookahead_for_selector (Some s) p')
         = returned (lookahead_for_selector (Some s) p)
         /\ returned (lookahead_for_value (Some s) p')
            = returned (lookahead_for_value (Some s) p)).
Proof.
  split; [| split].
  - apply lookahead_for_selector_frame.
  - apply lookahead_for_value_frame.
  - intros s cursor before after tracker token p p'. split.
    + now apply lookahead_for_selector_reads.
    + now apply lookahead_for_value_reads.
Qed.

End LookaheadClaim.

(* ----------------------------------------------------------------- *)
(** *** Byte-order marks *)

Section Bom.
Context {F : Foreign} {L : Lexicon} {X : Externals}.

Lemma bom_matches_spec (buffer : string) (bom : list nat) (len i : nat) :
  bom_matches buffer 0 bom i len
  = forallb (fun j => Nat.eqb (byte (deref buffer j)) (nth j bom 0)) (seq i len).
Proof.
  revert i. induction len as [| len IH]; intros i; [reflexivity |].
  cbn [bom_matches seq forallb Nat.add]. now rewrite IH.
Qed.

(** [check_bom_chars] returns the length of the mark the buffer begins
    with, and 0 when it does not begin with it. *)
Lemma check_bom_chars_begins (p : Parser) (bom : list nat) :
  check_bom_chars (source p) 0 (end_ p) bom (List.length bom)
  = if begins_with p bom then List.length bom else 0.
Proof.
  unfold check_bom_chars, begins_with. rewrite bom_matches_spec.
  cbn [Nat.add]. unfold Nat.ltb.
  destruct (Nat.leb_spec (List.length bom) (end_ p)) as [Hle | Hlt];
    destruct (Nat.leb_spec (S (end_ p)) (List.length bom)) as [Hle' | Hlt'];
    try lia; reflexivity.
Qed.

Lemma begins_with_first (p : Parser) (b : nat) (rest : list nat) :
  begins_with p (b :: rest) = true -> byte (deref (source p) 0) = b.
Proof.
  unfold begins_with. cbn [List.length seq forallb nth].
  intros H. apply andb_prop in H as [_ H]. apply andb_prop in H as [H _].
  now apply Nat.eqb_eq.
Qed.

(** The mark of UTF-32 (little endian) begins with the one of UTF-16
    (little endian). *)
Lemma utf_32_le_begins_with_utf_16_le (p : Parser) :
  begins_with p utf_32_bom_le = true -> begins_with p utf_16_bom_le = true.
Proof.
  unfold begins_with, utf_32_bom_le, utf_16_bom_le.
  cbn [List.length seq forallb nth].
  intros H. apply andb_prop in H as [Hlen H].
  apply andb_prop in H as [H0 H]. apply andb_prop in H as [H1 _].
  rewrite H0, H1. apply Nat.leb_le in Hlen.
  now replace (Nat.leb 2 (end_ p)) with true by (symmetry; apply Nat.leb_le; lia).
Qed.

(** [detect_bom] in terms of the marks the buffer begins with. *)
Lemma detect_bom_begins (p : Parser) :
  detect_bom p
  = let check := fun bom => if begins_with p bom then List.length bom else 0 in
    let first := byte (deref (source p) 0) in
    if Nat.eqb first 239 then (check utf_8_bom, "UTF-8", true)
    else if Nat.eqb first 254 then (check utf_16_bom_be, "UTF-16 (big endian)", false)
    else if Nat.eqb first 255 then
      let skip := check utf_16_bom_le in
      let skip := skip + (if Nat.eqb skip 0 then 0 else check utf_32_bom_le) in
      (skip, if Nat.eqb skip 2 then "UTF-16 (little endian)" else "UTF-32 (little endian)",
       false)
    else if Nat.eqb first 0 then (check utf_32_bom_be, "UTF-32 (big endian)", false)
    else if Nat.eqb first 43 then
      (Nat.lor (check utf_7_bom_1)
         (Nat.lor (check utf_7_bom_2)
            (Nat.lor (check utf_7_bom_3)
               (Nat.lor (check utf_7_bom_4) (check utf_7_bom_5)))),
       "UTF-7", false)
    else if Nat.eqb first 247 then (check utf_1_bom, "UTF-1", false)
    else if Nat.eqb first 221 then (check utf_ebcdic_bom, "UTF-EBCDIC", false)
    else if Nat.eqb first 14 then (check scsu_bom, "SCSU", false)
    else if Nat.eqb first 251 then (check bocu_1_bom, "BOCU-1", false)
    else if Nat.eqb first 132 then (check gb_18030_bom, "GB-18030", false)
    else (0, "", false).
Proof.
  unfold detect_bom. cbv zeta.
  rewrite <- (check_bom_chars_begins p utf_8_bom), <- (check_bom_chars_begins p utf_16_bom_be),
    <- (check_bom_chars_begins p utf_16_bom_le), <- (check_bom_chars_begins p utf_32_bom_le),
    <- (check_bom_chars_begins p utf_32_bom_be), <- (check_bom_chars_begins p utf_7_bom_1),
    <- (check_bom_chars_begins p utf_7_bom_2), <- (check_bom_chars_begins p utf_7_bom_3),
    <- (check_bom_chars_begins p utf_7_bom_4), <- (check_bom_chars_begins p utf_7_bom_5),
    <- (check_bom_chars_begins p utf_1_bom), <- (check_bom_chars_begins p utf_ebcdic_bom),
    <- (check_bom_chars_begins p scsu_bom), <- (check_bom_chars_begins p bocu_1_bom),
    <- (check_bom_chars_begins p gb_18030_bom).
  reflexivity.
Qed.

Lemma set_position_same (p : Parser) : set_position (position p + 0) p = p.
Proof. destruct p. unfold set_position. cbn. now rewrite Nat.add_0_r. Qed.

(** A mark of UTF-8 is skipped. *)
Lemma read_bom_utf_8 (p : Parser) :
  begins_with p utf_8_bom = true ->
  read_bom p = Ok tt (set_position (position p + 3) p).
Proof.
  intros H. unfold read_bom, bind, get. rewrite detect_bom_begins. cbv beta zeta.
  rewrite (begins_with_first p _ _ H), H. reflexivity.
Qed.

(** The leading run of a parse. *)
Ltac read_bom_of H :=
  unfold read_bom, bind, get; rewrite detect_bom_begins; cbv beta zeta;
  rewrite (begins_with_first _ _ _ H); cbn [Nat.eqb]; rewrite ?H.

Lemma read_bom_foreign (p : Parser) (bom : list nat) (encoding : string) :
  In (bom, encoding) foreign_boms ->
  begins_with p bom = true ->
  read_bom p = Err (InvalidSass (error_position p) (bom_message encoding)).
Proof.
  intros Hin H. unfold foreign_boms in Hin. cbn [In] in Hin.
  repeat (destruct Hin as [[= <- <-] | Hin]); try contradiction.
  - read_bom_of H. reflexivity.
  - read_bom_of H. rewrite (utf_32_le_begins_with_utf_16_le p H). reflexivity.
  - read_bom_of H. reflexivity.
  - read_bom_of H. repeat destruct (begins_with p _); reflexivity.
  - read_bom_of H. repeat destruct (begins_with p _); reflexivity.
  - read_bom_of H. repeat destruct (begins_with p _); reflexivity.
  - read_bom_of H. repeat destruct (begins_with p _); reflexivity.
  - read_bom_of H. repeat destruct (begins_with p _); reflexivity.
  - read_bom_of H. reflexivity.
  - read_bom_of H. reflexivity.
  - read_bom_of H. reflexivity.
  - read_bom_of H. reflexivity.
  - read_bom_of H. reflexivity.
Qed.

Lemma read_bom_utf_16_le (p : Parser) :
  begins_with p utf_16_bom_le = true ->
  read_bom p
  = Err (InvalidSass (error_position p)
           (bom_message (if begins_with p utf_32_bom_le
                         then "UTF-32 (little endian)"
                         else "UTF-16 (little endian)"))).
Proof.
  intros H. read_bom_of H. destruct (begins_with p utf_32_bom_le); reflexivity.
Qed.

(** Without a mark the parser is left as it is. *)
Lemma detect_bom_none (p : Parser) :
  (forall bom, In bom all_boms -> begins_with p bom = false) ->
  exists encoding utf_8, detect_bom p = (0, encoding, utf_8).
Proof.
  intros H. rewrite detect_bom_begins. cbv beta zeta.
  rewrite !H by (cbn; tauto). cbv beta iota.
  repeat match goal with
         | |- context [if Nat.eqb (byte ?c) ?k then _ else _] =>
             destruct (Nat.eqb (byte c) k)
         end;
    eexists; eexists; reflexivity.
Qed.

Lemma read_bom_none (p : Parser) :
  (forall bom, In bom all_boms -> begins_with p bom = false) ->
  read_bom p = Ok tt p.
Proof.
  intros H. destruct (detect_bom_none p H) as [encoding [utf_8 Hnone]].
  unfold read_bom, bind, get. rewrite Hnone. cbn [Nat.ltb Nat.leb andb].
  unfold modify. now rewrite set_position_same.
Qed.

(** An error of [read_bom] is the error of the parse. *)
Lemma parse_fails_with_read_bom (n : nat) (p : Parser) (e : Error) :
  read_bom p = Err e -> parse n p = Err e.
Proof. intros H. unfold parse. unfold bind at 1. now rewrite H. Qed.

(** When [read_bom] returns, the parse goes on in the state it leaves. *)
Lemma parse_proceeds_behind_read_bom (n : nat) (p q : Parser) :
  read_bom p = Ok tt q -> parse n p = parse_behind_bom n q.
Proof. intros H. unfold parse. unfold bind at 1. now rewrite H. Qed.

End Bom.

Section BomExamples.
#[local] Existing Instance Demo.types.
#[local] Existing Instance Demo.externals.
#[local] Existing Instance Css.lexicon.

Lemma utf_8_bom_is_skipped :
  returned (parse Demo.fuel (Demo.parser_on (bytes utf_8_bom ++ "$a: 1;")))
  = returned (parse Demo.fuel (Demo.parser_on "$a: 1;")).
Proof. vm_compute. reflexivity. Qed.

Lemma utf_16_be_bom_is_rejected :
  parse Demo.fuel (Demo.parser_on (bytes utf_16_bom_be ++ "$a: 1;"))
  = Err (InvalidSass (mkOffset 0 0) (bom_message "UTF-16 (big endian)")).
Proof. vm_compute. reflexivity. Qed.

Lemma utf_32_le_bom_is_rejected :
  parse Demo.fuel (parser_on_bytes (bytes utf_32_bom_le ++ "$a: 1;") 10)
  = Err (InvalidSass (mkOffset 0 0) (bom_message "UTF-32 (little endian)")).
Proof. vm_compute. reflexivity. Qed.

Lemma utf_32_be_bom_is_rejected :
  parse Demo.fuel (parser_on_bytes (bytes utf_32_bom_be ++ "$a: 1;") 10)
  = Err (InvalidSass (mkOffset 0 0) (bom_message "UTF-32 (big endian)")).
Proof. vm_compute. reflexivity. Qed.

(** [from_c_str] without an end takes the buffer to stop at its first NUL
    byte: a text that starts with the mark of UTF-32 (big endian) is the
    empty buffer there, and a text with the mark of UTF-32 (little endian)
    is reported as UTF-16. *)
Lemma utf_32_boms_in_a_c_string :
  end_ (Demo.parser_on (bytes utf_32_bom_be ++ "$a: 1;")) = 0
  /\ begins_with (Demo.parser_on (bytes utf_32_bom_be ++ "$a: 1;")) utf_32_bom_be = false
  /\ returned (parse Demo.fuel (Demo.parser_on (bytes utf_32_bom_be ++ "$a: 1;")))
     = Some (Block_ [] true)
  /\ parse Demo.fuel (Demo.parser_on (bytes utf_32_bom_le ++ "$a: 1;"))
     = Err (InvalidSass (mkOffset 0 0) (bom_message "UTF-16 (little endian)")).
Proof. vm_compute. repeat split. Qed.

End BomExamples.

Section BomClaim.
Context {F : Foreign} {L : Lexicon} {X : Externals}.

(** C8, as amended.  A byte-order mark counts when all its bytes lie in the
    buffer, from its first byte to [end].  When the buffer begins with the
    mark of UTF-8, [read_bom], the first step of [parse], moves the cursor
    by three bytes and changes nothing else, and the parse proceeds from
    there: it is the scan for invalid UTF-8, the root block and the final
    test of [parse] run behind the mark.  When the buffer begins with the
    mark of UTF-16 (big or little endian), UTF-32 (big or little endian),
    UTF-7, UTF-1, UTF-EBCDIC, SCSU, BOCU-1 or GB-18030, [read_bom] fails,
    and so does the parse, with the message "only UTF-8 documents are
    currently supported; your document appears to be " followed by the name
    of the encoding (the mark of UTF-16 (little endian) followed in the
    buffer by two NUL bytes is the mark of UTF-32 (little endian) and is
    named so).  When the buffer begins with none of the marks the parser is
    left unchanged and the parse proceeds from the state it was given. *)
Theorem bom_is_skipped_or_rejected :
  (forall (n : nat) (p : Parser),
      begins_with p utf_8_bom = true ->
      read_bom p = Ok tt (set_position (position p + 3) p)
      /\ parse n p = parse_behind_bom n (set_position (position p + 3) p))
  /\ (forall (n : nat) (p : Parser) (bom : list nat) (encoding : string),
         In (bom, encoding) foreign_boms ->
         begins_with p bom = true ->
         read_bom p = Err (InvalidSass (error_position p) (bom_message encoding))
         /\ parse n p = Err (InvalidSass (error_position p) (bom_message encoding)))
  /\ (forall (n : nat) (p : Parser),
         begins_with p utf_16_bom_le = true ->
         let encoding := if begins_with p utf_32_bom_le
                         then "UTF-32 (little endian)"
                         else "UTF-16 (little endian)" in
         read_bom p = Err (InvalidSass (error_position p) (bom_message encoding))
         /\ parse n p = Err (InvalidSass (error_position p) (bom_message encoding)))
  /\ (forall (n : nat) (p : Parser),
         (forall bom, In bom all_boms -> begins_with p bom = false) ->
         read_bom p = Ok tt p
         /\ parse n p = parse_behind_bom n p).
Proof.
  split; [| split; [| split]].
  - intros n p H.
    pose proof (read_bom_utf_8 p H) as Hr.
    split; [exact Hr | now apply parse_proceeds_behind_read_bom].
  - intros n p bom encoding Hin H.
    pose proof (read_bom_foreign p bom encoding Hin H) as Hr.
    split; [exact Hr | now apply parse_fails_with_read_bom].
  - intros n p H encoding.
    pose proof (read_bom_utf_16_le p H) as Hr.
    split; [exact Hr | now apply parse_fails_with_read_bom].
  - intros n p H.
    pose proof (read_bom_none p H) as Hr.
    split; [exact Hr | now apply parse_proceeds_behind_read_bom].
Qed.

End BomClaim.

(** C8 at a buffer of the mark of UTF-8 and [$a: 1;], which is parsed as
    [$a: 1;] is, at a buffer of the mark of GB-18030 and [a{}], and at a
    buffer of ten bytes, given with its end, that begins with the mark of
    UTF-32 (big endian). *)
Lemma bom_is_skipped_or_rejected_witness :
  read_bom (F := Demo.types) (Demo.parser_on (bytes utf_8_bom ++ "$a: 1;"))
  = Ok tt (set_position 3 (Demo.parser_on (bytes utf_8_bom ++ "$a: 1;")))
  /\ returned (parse (F := Demo.types) (L := Css.lexicon) (X := Demo.externals)
                 Demo.fuel (Demo.parser_on (bytes utf_8_bom ++ "$a: 1;")))
     = Some (Block_ [assign "$a" "1"] true)
  /\ parse (F := Demo.types) (L := Css.lexicon) (X := Demo.externals)
       Demo.fuel (Demo.parser_on (bytes gb_18030_bom ++ "a{}"))
     = Err (InvalidSass (mkOffset 0 0) (bom_message "GB-18030"))
  /\ parse (F := Demo.types) (L := Css.lexicon) (X := Demo.externals)
       Demo.fuel (parser_on_bytes (bytes utf_32_bom_be ++ "$a: 1;") 10)
     = Err (InvalidSass (mkOffset 0 0) (bom_message "UTF-32 (big endian)")).
Proof.
  split; [| split; [| split]].
  - rewrite (proj1 (proj1 (@bom_is_skipped_or_rejected Demo.types Css.lexicon Demo.externals)
                      Demo.fuel (Demo.parser_on (bytes utf_8_bom ++ "$a: 1;"))
                      ltac:(vm_compute; reflexivity))).
    reflexivity.
  - rewrite (proj2 (proj1 (@bom_is_skipped_or_rejected Demo.types Css.lexicon Demo.externals)
                      Demo.fuel (Demo.parser_on (bytes utf_8_bom ++ "$a: 1;"))
                      ltac:(vm_compute; reflexivity))).
    vm_compute. reflexivity.
  - destruct (proj1 (proj2 (@bom_is_skipped_or_rejected
                              Demo.types Css.lexicon Demo.externals))
                Demo.fuel (Demo.parser_on (bytes gb_18030_bom ++ "a{}"))
                gb_18030_bom "GB-18030") as [_ H].
    + unfold foreign_boms. cbn [In]. tauto.
    + vm_compute. reflexivity.
    + rewrite H. vm_compute. reflexivity.
  - destruct (proj1 (proj2 (@bom_is_skipped_or_rejected
                              Demo.types Css.lexicon Demo.externals))
                Demo.fuel (parser_on_bytes (bytes utf_32_bom_be ++ "$a: 1;") 10)
                utf_32_bom_be "UTF-32 (big endian)") as [_ H].
    + unfold foreign_boms. cbn [In]. tauto.
    + vm_compute. reflexivity.
    + rewrite H. vm_compute. reflexivity.
Defined.

(* ----------------------------------------------------------------- *)
(** *** The leading-zero flag of a lexed number *)

Section Numbers.
Context {F : Foreign} {L : Lexicon} {X : Externals}.

(** [number_has_zero] is false exactly for the texts that begin with [.],
    [0.], [-.] or [-0.]. *)
Lemma number_has_zero_prefixes (parsed : string) :
  number_has_zero parsed = negb (begins_with_a_bare_fraction parsed).
Proof.
  unfold number_has_zero, begins_with_a_bare_fraction, substr.
  destruct parsed as [| c1 [| c2 [| c3 s]]];
    cbn [drop take String.length Nat.ltb Nat.leb starts_with String.eqb andb orb negb];
    rewrite ?(Ascii.eqb_sym c1), ?(Ascii.eqb_sym c2), ?(Ascii.eqb_sym c3);
    repeat match goal with
           | |- context [Ascii.eqb ?a ?b] => destruct (Ascii.eqb a b)
           end;
    reflexivity.
Qed.

End Numbers.

Section NumberExamples.
#[local] Existing Instance Demo.types.
#[local] Existing Instance Demo.externals.
#[local] Existing Instance Css.lexicon.

Lemma numbers_in_a_value :
  returned (parse_space_list Demo.fuel (Demo.parser_on ".5 0.5 5 .5px 1.5em 0.5% 10;"))
  = Some (List_ no_flags
            [Number lexed_flags ".5" "" false;
             Number lexed_flags "0.5" "" false;
             Number lexed_flags "5" "" true;
             Number lexed_flags ".5" "px" false;
             Number lexed_flags "1.5" "em" true;
             Number lexed_flags "0.5%" "%" true;
             Number lexed_flags "10" "" true]
            SASS_SPACE false false).
Proof. vm_compute. reflexivity. Qed.

(** C7.  The text [.5%] begins with [.], so that [number_has_zero] is false
    for it, and the node [lexed_percentage] builds from it has the
    leading-zero flag set: [$a: .5%;] is parsed into a number whose flag is
    true.  The flag of a percentage is the constant [true] and is not
    computed from the lexed text, where [lexed_number] and [lexed_dimension]
    store what [number_has_zero] computes: the flag is false in the nodes of
    [$a: .5;] and [$a: .5px;]. *)
Theorem percentage_flag_is_not_computed_from_the_text :
  begins_with_a_bare_fraction ".5%" = true
  /\ number_has_zero ".5%" = false
  /\ number_zero (lexed_percentage ".5%") = Some true
  /\ returned (parse Demo.fuel (Demo.parser_on "$a: .5%;"))
     = Some (Block_ [Assignment "$a" (Number no_flags ".5%" "%" true) false false] true)
  /\ number_zero (lexed_number ".5") = Some (number_has_zero ".5")
  /\ number_zero (lexed_dimension ".5px") = Some (number_has_zero ".5px")
  /\ returned (parse Demo.fuel (Demo.parser_on "$a: .5;"))
     = Some (Block_ [Assignment "$a" (Number no_flags ".5" "" false) false false] true)
  /\ returned (parse Demo.fuel (Demo.parser_on "$a: .5px;"))
     = Some (Block_ [Assignment "$a" (Number no_flags ".5" "px" false) false false] true).
Proof. vm_compute. repeat split. Qed.

End NumberExamples.

(* ----------------------------------------------------------------- *)
(** *** The value of a declaration *)

Section Declarations.
Context {F : Foreign} {L : Lexicon} {X : Externals}.




End Declarations.

Section DeclarationExamples.
#[local] Existing Instance Demo.types.
#[local] Existing Instance Demo.externals.
#[local] Existing Instance Css.lexicon.


(** With a variable in it the value is not static. *)
Lemma font_shorthand_with_a_variable :
  returned (parse_declaration Demo.fuel (Demo.parser_on "font: 16px/24px $f;"))
  = Some (Declaration (String_Constant no_flags "font")
            (List_ no_flags [division_of_16px_by_24px; Variable_ no_flags "$f"]
                   SASS_SPACE false false)
            false true 0 None).
Proof. vm_compute. reflexivity. Qed.

(** A second operator takes the delayed flag from the division again. *)
Lemma division_followed_by_a_product :
  returned (parse_operators Demo.fuel (Demo.parser_on "16px/2*3;"))
  = Some (Binary_Expression no_flags (mkOperand MUL false false)
            (Binary_Expression no_flags (mkOperand DIV false false)
               (Number no_flags "16" "px" true) (Number no_flags "2" "" true))
            (Number no_flags "3" "" true)).
Proof. vm_compute. reflexivity. Qed.

End DeclarationExamples.

Section DivisionClaim.
Context {F : Foreign} {L : Lexicon} {X : Externals}.


End DivisionClaim.


(* ----------------------------------------------------------------- *)
(** *** Hexadecimal colours *)

Section HexColours.
Context {F : Foreign} {L : Lexicon} {X : Externals}.








End HexColours.


(* ----------------------------------------------------------------- *)
(** *** Folding more than one operand *)

Section FoldNested.
Context {F : Foreign} {L : Lexicon} {X : Externals}.

Lemma is_delayed_undelayed (e : Expression) : is_delayed (set_delayed false e) = false.
Proof. destruct e; reflexivity. Qed.

Lemma is_binary_undelayed (e : Expression) :
  is_binary (set_delayed false e) = is_binary e.
Proof. destruct e; reflexivity. Qed.

(** What [undelay_nested] returns for a binary node whose left operand is a
    binary node. *)
Lemma undelay_nested_left (fl : Flags) (o : Operand) (l r : Expression) :
  is_binary l = true ->
  is_delayed (undelay_nested (Binary_Expression fl o l r)) = false
  /\ is_binary (undelay_nested (Binary_Expression fl o l r)) = true.
Proof.
  intros Hl. unfold undelay_nested. rewrite Hl.
  destruct (is_binary r); split; reflexivity.
Qed.

(** The loop of [fold_operands] over operands that are no interpolated
    schemas, started on a binary node. *)
Lemma fold_operands_loop_nested
    (self : Expression -> list Expression -> list Operand -> nat -> Expression)
    (operands : list Expression) (ops : list Operand) (n : nat) :
  forall (base : Expression) (i : nat),
    is_binary base = true ->
    0 < n ->
    i + n <= List.length operands ->
    forallb (fun e => negb (schema_with_interpolants e)) operands = true ->
    is_delayed (fold_operands_loop self n base operands ops i) = false
    /\ is_binary (fold_operands_loop self n base operands ops i) = true.
Proof.
  induction n as [| n IH]; intros base i Hbase Hn Hlen Hplain; [lia |].
  cbn [fold_operands_loop]. cbv zeta.
  assert (Hi : schema_with_interpolants (nth i operands base) = false).
  { rewrite forallb_forall in Hplain.
    assert (Hlt : i < List.length operands) by lia.
    specialize (Hplain (nth i operands base) (nth_In operands base Hlt)).
    now apply negb_true_iff in Hplain. }
  rewrite Hi.
  destruct n as [| n].
  - cbn [fold_operands_loop].
    destruct (Sass_OP_eqb _ DIV && is_delayed base && is_delayed (nth i operands base));
      cbn [set_is_delayed with_flags]; now apply undelay_nested_left.
  - apply IH; try lia; try assumption.
    destruct (Sass_OP_eqb _ DIV && is_delayed base && is_delayed (nth i operands base));
      reflexivity.
Qed.

(** X2.  "Nested binary expressions are never to be delayed": folding two
    or more operands, none of them (nor the base) an interpolated string
    schema, gives a binary node that is not delayed, whatever the operators
    are. *)
Theorem folded_chain_is_not_delayed (base : Expression) (operands : list Expression)
    (ops : list Operand) :
  2 <= List.length operands ->
  schema_with_interpolants base = false ->
  forallb (fun e => negb (schema_with_interpolants e)) operands = true ->
  is_delayed (fold_operands base operands ops) = false
  /\ is_binary (fold_operands base operands ops) = true.
Proof.
  intros Hlen Hbase Hplain.
  unfold fold_operands. cbn [fold_operands_from]. rewrite Hbase. cbn [andb].
  rewrite Nat.sub_0_r.
  destruct (List.length operands) as [| n] eqn:Hn; [lia |].
  cbn [fold_operands_loop]. cbv zeta.
  assert (H0 : schema_with_interpolants (nth 0 operands base) = false).
  { rewrite forallb_forall in Hplain.
    assert (Hlt : 0 < List.length operands) by lia.
    specialize (Hplain (nth 0 operands base) (nth_In operands base Hlt)).
    now apply negb_true_iff in Hplain. }
  rewrite H0.
  apply fold_operands_loop_nested; try lia; try assumption.
  destruct (Sass_OP_eqb _ DIV && is_delayed base && is_delayed (nth 0 operands base));
    reflexivity.
Qed.

End FoldNested.

(** X2 at the operands of [16px/2*3]. *)
Lemma folded_chain_is_not_delayed_witness :
  is_delayed
    (fold_operands (F := Demo.types)
       (Number (F := Demo.types) lexed_flags "16"%string "px" true)
       [Number (F := Demo.types) lexed_flags "2"%string "" true;
        Number (F := Demo.types) lexed_flags "3"%string "" true]
       [mkOperand DIV false false; mkOperand MUL false false])
  = false.
Proof.
  apply (@folded_chain_is_not_delayed Demo.types).
  - cbn. lia.
  - reflexivity.
  - reflexivity.
Defined.

(* ----------------------------------------------------------------- *)
(** *** Reasoning on runs *)

Section Runs.
Context {F : Foreign}.

Lemma returns_ret {A : Type} (P : A -> Prop) (a : A) : P a -> returns P (ret a).
Proof. intros H p a' p' [= <- <-]. exact H. Qed.

Lemma returns_bind {A B : Type} (P : B -> Prop) (c : M A) (k : A -> M B) :
  (forall a, returns P (k a)) -> returns P (bind c k).
Proof.
  intros Hk p b p'. unfold bind. destruct (c p) as [a q | |]; try discriminate.
  apply Hk.
Qed.

Lemma returns_bind_with {A B : Type} (Q : A -> Prop) (P : B -> Prop) (c : M A)
    (k : A -> M B) :
  returns Q c -> (forall a, Q a -> returns P (k a)) -> returns P (bind c k).
Proof.
  intros Hc Hk p b p'. unfold bind. destruct (c p) as [a q | |] eqn:E; try discriminate.
  apply (Hk a (Hc p a q E)).
Qed.

Lemma returns_error {A : Type} (P : A -> Prop) (msg : string) : returns P (error msg).
Proof. intros p a p'. discriminate. Qed.

Lemma returns_throw {A : Type} (P : A -> Prop) (e : Error) : returns P (throw e).
Proof. intros p a p'. discriminate. Qed.

Lemma returns_out_of_fuel {A : Type} (P : A -> Prop) : returns P out_of_fuel.
Proof. intros p a p'. discriminate. Qed.

Lemma keeps_ret {A : Type} (R : Parser -> Parser -> Prop) (a : A) :
  (forall p, R p p) -> keeps R (ret a).
Proof. intros H p a' p' [= _ <-]. apply H. Qed.

Lemma keeps_bind {A B : Type} (R : Parser -> Parser -> Prop) (c : M A) (k : A -> M B) :
  (forall p q r, R p q -> R q r -> R p r) ->
  keeps R c -> (forall a, keeps R (k a)) -> keeps R (bind c k).
Proof.
  intros Htrans Hc Hk p b p'. unfold bind.
  destruct (c p) as [a q | |] eqn:E; try discriminate.
  intros H. exact (Htrans p q p' (Hc p a q E) (Hk a q b p' H)).
Qed.

Lemma keeps_error {A : Type} (R : Parser -> Parser -> Prop) (msg : string) :
  keeps (A := A) R (error msg).
Proof. intros p a p'. discriminate. Qed.

Lemma keeps_throw {A : Type} (R : Parser -> Parser -> Prop) (e : Error) :
  keeps (A := A) R (throw e).
Proof. intros p a p'. discriminate. Qed.

Lemma keeps_out_of_fuel {A : Type} (R : Parser -> Parser -> Prop) :
  keeps (A := A) R out_of_fuel.
Proof. intros p a p'. discriminate. Qed.

End Runs.

Section RunsOfErrors.
Context {F : Foreign} {L : Lexicon} {X : Externals}.

Lemma returns_css_error {A : Type} (P : A -> Prop) (msg prefix middle : string)
    (trim : bool) :
  returns P (css_error msg prefix middle trim).
Proof. intros p a p'. now rewrite css_error_is_error. Qed.

Lemma keeps_css_error {A : Type} (R : Parser -> Parser -> Prop)
    (msg prefix middle : string) (trim : bool) :
  keeps (A := A) R (css_error msg prefix middle trim).
Proof. intros p a p'. now rewrite css_error_is_error. Qed.

End RunsOfErrors.

(** The value predicate of a run, by the shape of the run. *)
Ltac returns_step :=
  lazymatch goal with
  | |- returns _ (ret _) => apply returns_ret
  | |- returns _ (error _) => apply returns_error
  | |- returns _ (throw _) => apply returns_throw
  | |- returns _ out_of_fuel => apply returns_out_of_fuel
  | |- returns _ (css_error _ _ _ _) => apply returns_css_error
  | |- returns _ expected_expression => apply returns_css_error
  | |- returns _ expected_closing_paren => apply returns_css_error
  | |- returns _ expected_colon => apply returns_css_error
  | |- returns _ (css_error_expected _) => apply returns_css_error
  | |- returns _ (bind _ _) => apply returns_bind; intro
  | |- returns _ (if ?c then _ else _) => destruct c
  | |- returns _ (match ?x with _ => _ end) => destruct x
  end.

(* ----------------------------------------------------------------- *)
(** *** Parameters and arguments *)

Section ParametersAndArguments.
Context {F : Foreign} {L : Lexicon} {X : Externals}.

Lemma parse_parameter_kind (n : nat) : returns rest_has_no_default (parse_parameter n).
Proof.
  unfold parse_parameter. cbv zeta. repeat returns_step; cbn; intros; congruence.
Qed.

Lemma parameters_loop_kind (n : nat) :
  forall params : list Parameter_,
    Forall rest_has_no_default params ->
    returns (Forall rest_has_no_default) (parameters_loop n params).
Proof.
  induction n as [| n IH]; intros params H; simpl; [returns_step |].
  apply returns_bind. intros [|]; [returns_step; exact H |].
  apply returns_bind_with with (Q := rest_has_no_default);
    [apply parse_parameter_kind |].
  intros a Ha.
  assert (H' : Forall rest_has_no_default (params ++ [a]))
    by (apply Forall_app; split; [exact H | now constructor]).
  apply returns_bind. intros [|]; [now apply IH | now returns_step].
Qed.

Lemma parse_parameters_kind (n : nat) :
  returns (Forall rest_has_no_default) (parse_parameters n).
Proof.
  unfold parse_parameters. apply returns_bind. intros [|]; [| now returns_step].
  apply returns_bind_with with (Q := Forall rest_has_no_default).
  - apply returns_bind. intros [|]; [now returns_step |].
    now apply parameters_loop_kind.
  - intros params H. apply returns_bind. intros [|]; now returns_step.
Qed.

Lemma parse_argument_kind (n : nat) : returns argument_kind_is_one (parse_argument n).
Proof.
  destruct n as [| n]; simpl; cbv zeta; repeat returns_step; cbn;
    (split; [reflexivity | intros H; split; congruence]).
Qed.

Lemma arguments_loop_kind (n : nat) :
  forall args : list Argument,
    Forall argument_kind_is_one args ->
    returns (Forall argument_kind_is_one) (arguments_loop n args).
Proof.
  induction n as [| n IH]; intros args H; simpl; [returns_step |].
  apply returns_bind. intros [|]; [returns_step; exact H |].
  apply returns_bind_with with (Q := argument_kind_is_one);
    [apply parse_argument_kind |].
  intros a Ha.
  assert (H' : Forall argument_kind_is_one (args ++ [a]))
    by (apply Forall_app; split; [exact H | now constructor]).
  apply returns_bind. intros [|]; [now apply IH | now returns_step].
Qed.

Lemma parse_arguments_kind (n : nat) :
  returns (Forall argument_kind_is_one) (parse_arguments n).
Proof.
  destruct n as [| n]; simpl; [returns_step |].
  apply returns_bind. intros [|]; [| now returns_step].
  apply returns_bind_with with (Q := Forall argument_kind_is_one).
  - apply returns_bind. intros [|]; [now returns_step |].
    now apply arguments_loop_kind.
  - intros args H. apply returns_bind. intros [|]; now returns_step.
Qed.

(** X3.  Every parameter list [parse_parameters] returns holds no rest
    parameter with a default value, and every argument list
    [parse_arguments] returns holds no argument that is both a rest and a
    keyword argument, and no named argument that is either. *)
Theorem parameters_and_arguments_have_one_kind (n : nat) (p p' : Parser) :
  (forall params : list Parameter_,
      parse_parameters n p = Ok params p' -> Forall rest_has_no_default params)
  /\ (forall args : list Argument,
         parse_arguments n p = Ok args p' -> Forall argument_kind_is_one args).
Proof.
  split.
  - intros params H. exact (parse_parameters_kind n p params p' H).
  - intros args H. exact (parse_arguments_kind n p args p' H).
Qed.

End ParametersAndArguments.

(* ----------------------------------------------------------------- *)
(** *** What the block parsers report *)

Section BlockNodes.
Context {F : Foreign} {L : Lexicon} {X : Externals}.

Lemma parse_block_node_reports_a_match (n : nat) (is_root : bool) :
  returns (fun matched => matched = true) (parse_block_node n is_root).
Proof.
  destruct n as [| n]; simpl; cbv zeta; repeat returns_step; reflexivity.
Qed.

Lemma parse_block_nodes_reports_success (n : nat) (is_root : bool) :
  returns (fun ok => ok = true) (parse_block_nodes n is_root).
Proof.
  induction n as [| n IH]; simpl; [returns_step |].
  apply returns_bind. intros p0.
  destruct (Nat.ltb (position p0) (end_ p0)); [| now returns_step].
  do 2 (apply returns_bind; intro).
  apply returns_bind. intros [|]; [exact IH |].
  apply returns_bind. intros [|]; [now returns_step |].
  apply returns_bind. intros [|]; [now returns_step |].
  apply returns_bind_with with (Q := fun matched => matched = true);
    [apply parse_block_node_reports_a_match |].
  intros matched ->. exact IH.
Qed.

(** X4.  [parse_block_node] and [parse_block_nodes] return [true] whenever
    they return: a statement that is not recognized is an error that is
    thrown, never the result [false], so the "illegal sass" exit of
    [parse_block_nodes] is not taken. *)
Theorem block_parsers_never_return_false (n : nat) (is_root : bool) (p p' : Parser)
    (b : bool) :
  (parse_block_node n is_root p = Ok b p' -> b = true)
  /\ (parse_block_nodes n is_root p = Ok b p' -> b = true).
Proof.
  split.
  - exact (parse_block_node_reports_a_match n is_root p b p').
  - exact (parse_block_nodes_reports_success n is_root p b p').
Qed.

End BlockNodes.

(** X3 at the parameters [($a, $b: 1, $c...)]. *)
Lemma parameters_and_arguments_have_one_kind_witness :
  Forall (rest_has_no_default (F := Demo.types))
         [mkParameter "$a" None false;
          mkParameter "$b" (Some (Number (F := Demo.types) lexed_flags "1"%string ""
                                          true)) false;
          mkParameter "$c" None true].
Proof.
  eapply (proj1 (@parameters_and_arguments_have_one_kind
                   Demo.types Css.lexicon Demo.externals
                   40 (Demo.parser_on "($a, $b: 1, $c...)") _)).
  vm_compute. reflexivity.
Defined.

(** X4 at [$a: 1;]: the statement is matched. *)
Lemma block_parsers_never_return_false_witness :
  match parse_block_node (F := Demo.types) (L := Css.lexicon) (X := Demo.externals)
          40 true (Demo.parser_on "$a: 1;") with
  | Ok matched _ => matched
  | _ => false
  end = true.
Proof.
  eapply (proj1 (@block_parsers_never_return_false
                   Demo.types Css.lexicon Demo.externals
                   40 true (Demo.parser_on "$a: 1;") _ _)).
  vm_compute. reflexivity.
Defined.

(* ----------------------------------------------------------------- *)
(** *** [@warn], [@error] and [@debug] *)

Section Messages.
Context {F : Foreign} {L : Lexicon} {X : Externals}.

Lemma check_not_in_properties_spec (p : Parser) (s : Scope) :
  stack_back p = Some s ->
  check_not_in_properties p
  = if nests_messages s then Ok tt p
    else Err (InvalidSass (error_position p) illegal_nesting_message).
Proof.
  intros H. unfold check_not_in_properties, bind, get, back_is_not. rewrite H.
  now destruct s.
Qed.

(** X5.  [@warn], [@error] and [@debug] are parsed where the innermost
    scope is [Root], [Function], [Mixin], [Control] or [Rules]: their value
    is then the delayed list that follows.  In the scopes [Properties],
    [Media] and [AtRoot] they fail with "Illegal nesting: Only properties
    may be nested beneath properties." before anything is read. *)
Theorem messages_need_a_nesting_scope (n : nat) (p : Parser) (s : Scope) :
  stack_back p = Some s ->
  (In s [Properties; Media; AtRoot] ->
   parse_warning n p = Err (InvalidSass (error_position p) illegal_nesting_message)
   /\ parse_error n p = Err (InvalidSass (error_position p) illegal_nesting_message)
   /\ parse_debug n p = Err (InvalidSass (error_position p) illegal_nesting_message))
  /\ (In s [Root; Function; Mixin; Control; Rules] ->
      parse_warning n p = (e <- parse_list n DELAYED ;; ret (Warning e)) p
      /\ parse_error n p = (e <- parse_list n DELAYED ;; ret (Error_ e)) p
      /\ parse_debug n p = (e <- parse_list n DELAYED ;; ret (Debug_ e)) p).
Proof.
  intros H. pose proof (check_not_in_properties_spec p s H) as Hc.
  split; intros Hin.
  - assert (Hs : nests_messages s = false)
      by (cbn [In] in Hin; now destruct Hin as [<- | [<- | [<- | []]]]).
    rewrite Hs in Hc.
    unfold parse_warning, parse_error, parse_debug.
    repeat split; unfold bind at 1; now rewrite Hc.
  - assert (Hs : nests_messages s = true)
      by (cbn [In] in Hin; now destruct Hin as [<- | [<- | [<- | [<- | [<- | []]]]]]).
    rewrite Hs in Hc.
    unfold parse_warning, parse_error, parse_debug.
    repeat split; unfold bind at 1; now rewrite Hc.
Qed.

End Messages.

(** X5 at [@warn] inside a property block: nothing of [1] is read. *)
Lemma messages_need_a_nesting_scope_witness :
  parse_warning (F := Demo.types) (L := Css.lexicon) (X := Demo.externals)
    40 (Demo.parser_in [Properties] " 1;")
  = Err (InvalidSass (mkOffset 0 0) illegal_nesting_message).
Proof.
  edestruct (@messages_need_a_nesting_scope Demo.types Css.lexicon Demo.externals
               40 (Demo.parser_in [Properties] " 1;") Properties) as [H _].
  - reflexivity.
  - destruct H as [H _]; [cbn; tauto |]. rewrite H. reflexivity.
Defined.

(* ----------------------------------------------------------------- *)
(** *** [@mixin] and [@function] *)

Section Definitions.
Context {F : Foreign} {L : Lexicon} {X : Externals}.

(** X6.  A definition needs a name: without an identifier behind the
    keyword [parse_definition] fails with "invalid name in ... definition",
    which quotes the keyword.  A function may not be called [and], [or] or
    [not]; a mixin may.  Otherwise the parameters are parsed, then the body
    in the scope [Mixin] or [Function], and the scope is left again. *)
Theorem definition_names_are_checked (n : nat) (which : Definition_Type) (p : Parser) :
  (lex_at identifier true false p = None ->
   parse_definition (S n) which p
   = Err (InvalidSass (error_position p)
            ("invalid name in " ++ lexed_string p ++ " definition")))
  /\ (forall p1 : Parser,
         lex_at identifier true false p = Some p1 ->
         reserved_function_name (normalize_underscores (lexed_string p1)) = true ->
         parse_definition (S n) FUNCTION p
         = Err (InvalidSass (error_position p1)
                  ("Invalid function name "
                   ++ quoted (normalize_underscores (lexed_string p1)) ++ ".")))
  /\ (forall (p1 p2 p3 : Parser) (params : list Parameter_) (body : Block),
         lex_at identifier true false p = Some p1 ->
         (which = FUNCTION ->
          reserved_function_name (normalize_underscores (lexed_string p1)) = false) ->
         parse_parameters n p1 = Ok params p2 ->
         parse_block n false
           (in_scope (match which with MIXIN => Mixin | FUNCTION => Function end) p2)
         = Ok body p3 ->
         parse_definition (S n) which p
         = Ok (Definition_ (normalize_underscores (lexed_string p1)) params body which)
              (out_of_scope p3)).
Proof.
  split; [| split].
  - intros Hlex. simpl. unfold bind at 1, get_lexed at 1.
    unfold bind at 1, lex at 1. now rewrite Hlex.
  - intros p1 Hlex Hname. simpl. unfold bind at 1, get_lexed at 1.
    unfold bind at 1, lex at 1. rewrite Hlex. cbv beta iota.
    unfold bind at 1, get_lexed at 1. cbv zeta.
    unfold reserved_function_name in Hname. unfold bind at 1. now rewrite Hname.
  - intros p1 p2 p3 params body Hlex Hname Hparams Hbody. simpl.
    unfold bind at 1, get_lexed at 1.
    unfold bind at 1, lex at 1. rewrite Hlex. cbv beta iota.
    unfold bind at 1, get_lexed at 1. cbv zeta.
    unfold reserved_function_name in Hname.
    destruct which.
    + unfold bind at 1, ret at 1.
      run_with Hparams.
      unfold bind at 1, push_scope at 1, modify at 1. fold (in_scope Mixin p2).
      run_with Hbody. reflexivity.
    + unfold bind at 1. rewrite (Hname eq_refl). unfold ret at 1.
      run_with Hparams.
      unfold bind at 1, push_scope at 1, modify at 1. fold (in_scope Function p2).
    run_with Hbody. reflexivity.
Qed.

End Definitions.

(** X6 at [and() { }] behind [@function]. *)
Lemma definition_names_are_checked_witness :
  parse_definition (F := Demo.types) (L := Css.lexicon) (X := Demo.externals)
    40 FUNCTION (Demo.parser_on " and() { }")
  = Err (InvalidSass (mkOffset 0 1) ("Invalid function name " ++ quoted "and" ++ ".")).
Proof.
  erewrite (proj1 (proj2 (@definition_names_are_checked
                            Demo.types Css.lexicon Demo.externals
                            39 FUNCTION (Demo.parser_on " and() { }")))).
  all: cycle 1.
  - vm_compute. reflexivity.
  - vm_compute. reflexivity.
  - vm_compute. reflexivity.
Defined.

(* ----------------------------------------------------------------- *)
(** *** [@for] *)

Section ForDirective.
Context {F : Foreign} {L : Lexicon} {X : Externals}.

Lemma for_directive_head (n : nat) (p p1 : Parser) :
  lex_variable (in_scope Control p) = Ok tt p1 ->
  parse_for_directive (S n) p
  = (let var := normalize_underscores (lexed_string p1) in
     IfM lex kwd_from true false
     Then (lower_bound <- parse_expression n ;;
           inclusive <- (IfM lex kwd_through true false Then ret true Else
                         IfM lex kwd_to true false Then ret false Else
                         error "expected 'through' or 'to' keyword in @for directive") ;;
           upper_bound <- parse_expression n ;;
           body <- parse_block n (back_is_root p) ;;
           pop_scope ;;;
           ret (For var lower_bound upper_bound body inclusive))
     Else error "expected 'from' keyword in @for directive") p1.
Proof.
  intros Hvar. simpl.
  unfold bind at 1, push_scope at 1, modify at 1. fold (in_scope Control p).
  unfold bind at 1, get at 1.
  change (back_is_root (in_scope Control p)) with (back_is_root p).
  run_with Hvar. unfold bind at 1, get_lexed at 1. reflexivity.
Qed.

(** X7.  Behind the variable of [@for] the keyword [from] is required, and
    behind the lower bound [through] or [to]: without them the parse fails
    with the error that names the missing keyword.  [through] makes the
    loop inclusive, [to] exclusive; the body is parsed in the scope
    [Control], which is left again. *)
Theorem for_needs_from_and_through_or_to (n : nat) (p p1 : Parser) :
  lex_variable (in_scope Control p) = Ok tt p1 ->
  (lex_at kwd_from true false p1 = None ->
   parse_for_directive (S n) p
   = Err (InvalidSass (error_position p1) "expected 'from' keyword in @for directive"))
  /\ (forall (p2 p3 : Parser) (lower : Expression),
         lex_at kwd_from true false p1 = Some p2 ->
         parse_expression n p2 = Ok lower p3 ->
         (lex_at kwd_through true false p3 = None ->
          lex_at kwd_to true false p3 = None ->
          parse_for_directive (S n) p
          = Err (InvalidSass (error_position p3)
                   "expected 'through' or 'to' keyword in @for directive"))
         /\ (forall (p4 p5 p6 : Parser) (upper : Expression) (body : Block)
                    (inclusive : bool),
                (if inclusive
                 then lex_at kwd_through true false p3 = Some p4
                 else lex_at kwd_through true false p3 = None
                      /\ lex_at kwd_to true false p3 = Some p4) ->
                parse_expression n p4 = Ok upper p5 ->
                parse_block n (back_is_root p) p5 = Ok body p6 ->
                parse_for_directive (S n) p
                = Ok (For (normalize_underscores (lexed_string p1)) lower upper body
                          inclusive)
                     (out_of_scope p6))).
Proof.
  intros Hvar. rewrite (for_directive_head n p p1 Hvar). cbv zeta.
  split.
  - intros Hfrom. lex_with Hfrom. reflexivity.
  - intros p2 p3 lower Hfrom Hlower.
    split.
    + intros Hthrough Hto. lex_with Hfrom. run_with Hlower.
      unfold bind at 1. lex_with Hthrough. lex_with Hto.
      reflexivity.
    + intros p4 p5 p6 upper body [|] Hkey Hupper Hbody; cbv beta iota in Hkey;
        lex_with Hfrom; run_with Hlower.
      * unfold bind at 1. lex_with Hkey. unfold ret at 1.
        run_with Hupper. run_with Hbody. reflexivity.
      * destruct Hkey as [Hthrough Hto].
        unfold bind at 1. lex_with Hthrough. lex_with Hto. unfold ret at 1.
        run_with Hupper. run_with Hbody. reflexivity.
Qed.

End ForDirective.

(** X7 at [$i 1 to 3 { }] behind [@for]: the keyword [from] is missing. *)
Lemma for_needs_from_and_through_or_to_witness :
  parse_for_directive (F := Demo.types) (L := Css.lexicon) (X := Demo.externals)
    40 (Demo.parser_on " $i 1 to 3 { }")
  = Err (InvalidSass (mkOffset 0 1) "expected 'from' keyword in @for directive").
Proof.
  edestruct (@for_needs_from_and_through_or_to Demo.types Css.lexicon Demo.externals
               39 (Demo.parser_on " $i 1 to 3 { }")) as [H _].
  - vm_compute. reflexivity.
  - rewrite H; [reflexivity | vm_compute; reflexivity].
Defined.

(* ----------------------------------------------------------------- *)
(** *** Statements that need a value *)

Section EmptyValues.
Context {F : Foreign} {L : Lexicon} {X : Externals}.

(** X8.  A variable assignment, [@return] and [@while] need a value: when
    the assignment is directly followed by [;] or the end of the input,
    [@return] by [;], [}] or the end of the input, or when the predicate
    of [@while] is an empty list, the parse fails with "Invalid CSS after
    ...: expected expression (e.g. 1px, bold), was ...". *)
Theorem statements_need_a_value (n : nat) (p : Parser) :
  (forall (p1 : Parser) (stop : nat),
      lex_at (exactly ":") true false p = Some p1 ->
      peek_css_at (alternatives [exactly ";"; end_of_file]) None p1 = Some stop ->
      parse_assignment n p = Err (expected_expression_error p1 true))
  /\ (forall stop : nat,
         peek_css_at (alternatives [exactly ";"; exactly "}"; end_of_file]) None p
         = Some stop ->
         parse_return_directive n p = Err (expected_expression_error p true))
  /\ (forall (p1 : Parser) (fl : Flags) (sep : Sass_Separator) (arglist bracketed : bool),
         parse_list n false (in_scope Control p) = Ok (List_ fl [] sep arglist bracketed) p1 ->
         parse_while_directive (S n) p = Err (expected_expression_error p1 false)).
Proof.
  split; [| split].
  - intros p1 stop Hcolon Hend. unfold parse_assignment.
    unfold bind at 1, get_lexed at 1. cbv zeta.
    lex_with Hcolon. lex_with Hend.
    unfold expected_expression. now rewrite css_error_is_error.
  - intros stop Hend. unfold parse_return_directive.
    lex_with Hend. unfold expected_expression. now rewrite css_error_is_error.
  - intros p1 fl sep arglist bracketed Hpred. simpl.
    unfold bind at 1, push_scope at 1, modify at 1. fold (in_scope Control p).
    unfold bind at 1, get at 1. run_with Hpred.
    now rewrite css_error_is_error.
Qed.

End EmptyValues.

(** X8 at [: ;] behind a variable. *)
Lemma statements_need_a_value_witness :
  exists msg,
    parse_assignment (F := Demo.types) (L := Css.lexicon) (X := Demo.externals)
      40 (Demo.parser_on ": ;")
    = Err (InvalidSass (mkOffset 0 0) msg).
Proof.
  eexists.
  erewrite (proj1 (@statements_need_a_value Demo.types Css.lexicon Demo.externals
                     40 (Demo.parser_on ": ;"))).
  all: cycle 1.
  - vm_compute. reflexivity.
  - vm_compute. reflexivity.
  - vm_compute. reflexivity.
Defined.

(* ----------------------------------------------------------------- *)
(** *** What the look-ahead scans report *)

Section LookaheadResults.
Context {F : Foreign} {L : Lexicon} {X : Externals}.

(** A peek from a pointer ends between that pointer and the end of the
    buffer. *)
Lemma peek_at_bounds (m : matcher) (s : nat) (p : Parser) (q : nat) :
  peek_at m (Some s) p = Some q -> s <= q <= end_ p.
Proof.
  unfold peek_at.
  destruct (match_at m p (sneak m p s)) as [e |] eqn:E; [| discriminate].
  destruct (Nat.leb_spec e (end_ p)) as [Hle | _]; [| discriminate].
  intros [= <-]. apply match_at_ge in E. pose proof (sneak_ge m p s). lia.
Qed.

Lemma lookahead_for_selector_result (start : option nat) (p p' : Parser) (rv : Lookahead) :
  lookahead_for_selector start p = Ok rv p' ->
  la_parsable rv = negb (la_has_interpolants rv)
  /\ (forall q, la_found rv = Some q ->
                la_position rv = Some q /\ la_error rv = None
                /\ start_pointer start p <= q <= end_ p)
  /\ (la_position rv = None ->
      la_found rv = None /\ la_error rv = Some (start_pointer start p)).
Proof.
  cbv beta iota zeta delta [lookahead_for_selector bind get peek found ret].
  fold (start_pointer start p).
  destruct (peek_at re_selector_list (Some (start_pointer start p)) p) as [q |] eqn:Hq.
  - intros [= <- _]. cbn [la_parsable la_has_interpolants la_found la_position la_error].
    split; [reflexivity |]. split; [| discriminate].
    intros q'.
    destruct (match peek_at (exactly "{") (Some q) p with Some _ => true | None => false end
              || match peek_at (exactly "(") (Some q) p with Some _ => true | None => false end);
      [| discriminate].
    intros [= <-]. cbn [is_some orb]. repeat split; try reflexivity;
      apply (peek_at_bounds _ _ _ _ Hq).
  - intros [= <- _]. cbn. repeat split; try reflexivity; discriminate.
Qed.

Lemma lookahead_for_include_result (start : option nat) (p p' : Parser) (rv : Lookahead) :
  lookahead_for_include start p = Ok rv p' ->
  la_parsable rv = negb (la_has_interpolants rv)
  /\ (forall q, la_found rv = Some q ->
                la_position rv = Some q /\ start_pointer start p <= q <= end_ p).
Proof.
  unfold lookahead_for_include. unfold bind at 1.
  destruct (lookahead_for_selector start p) as [rv0 p0 | |] eqn:E; try discriminate.
  assert (Hp0 : p0 = p).
  { revert E. cbv beta iota zeta delta [lookahead_for_selector bind get peek found ret].
    destruct (peek_at re_selector_list _ p); now intros [= _ <-]. }
  subst p0.
  destruct (lookahead_for_selector_result start p p rv0 E) as [Hparsable [Hfound Hnone]].
  destruct (la_position rv0) as [q0 |] eqn:Hpos.
  - cbv beta iota zeta delta [bind get peek found ret].
    destruct (_ || _).
    + intros [= <- _]. cbn [la_parsable la_has_interpolants la_found la_position].
      split; [exact Hparsable |]. intros q [= <-]. split; [reflexivity |].
      destruct (la_found rv0) as [q1 |] eqn:Hf.
      * destruct (Hfound q1 eq_refl) as [Hq [_ Hb]]. congruence.
      * revert E Hpos Hf.
        cbv beta iota zeta delta [lookahead_for_selector bind get peek found ret].
        fold (start_pointer start p).
        destruct (peek_at re_selector_list (Some (start_pointer start p)) p) as [q |] eqn:Hq.
        -- intros [= <-]. cbn [la_position]. intros [= <-] _.
           apply (peek_at_bounds _ _ _ _ Hq).
        -- intros [= <-]. discriminate.
    + intros [= <- _]. split; [exact Hparsable |]. intros q Hq.
      destruct (Hfound q Hq) as [H1 [_ H2]]. split; [congruence | exact H2].
  - unfold ret. intros [= <- _]. split; [exact Hparsable |]. intros q Hq.
    destruct (Hfound q Hq) as [H1 [_ H2]]. split; [congruence | exact H2].
Qed.

Lemma lookahead_for_value_result (start : option nat) (p p' : Parser) (rv : Lookahead) :
  lookahead_for_value start p = Ok rv p' ->
  forall q, la_found rv = Some q ->
            la_position rv = Some q /\ start_pointer start p < q <= end_ p.
Proof.
  cbv beta iota zeta delta [lookahead_for_value bind get peek found ret].
  fold (start_pointer start p).
  destruct (peek_at value_lookahead (Some (start_pointer start p)) p) as [q |] eqn:Hq.
  - destruct (Nat.eqb_spec (start_pointer start p) q) as [E | Hne].
    + intros [= <- _]. cbn. discriminate.
    + intros [= <- _]. cbn [la_found la_position].
      destruct (_ || _); [| discriminate].
      intros q' [= <-]. pose proof (peek_at_bounds _ _ _ _ Hq).
      split; [reflexivity | lia].
  - intros [= <- _]. cbn. discriminate.
Qed.

(** X9.  What the look-ahead scans report is consistent.  A selector
    look-ahead is parsable exactly when it saw no interpolant; a pointer it
    reports as found is the position where the scan stopped, lies between
    the start and the end of the buffer, and comes with no error; when the
    selector pattern does not match at all, the error is the start itself.
    The include look-ahead keeps the first two facts although it has more
    ways to find its end.  What a value look-ahead finds is where its scan
    stopped, strictly behind the start: it never reports an empty match. *)
Theorem lookahead_results_are_consistent (start : option nat) (p p' : Parser)
    (rv : Lookahead) :
  (lookahead_for_selector start p = Ok rv p' ->
   la_parsable rv = negb (la_has_interpolants rv)
   /\ (forall q, la_found rv = Some q ->
                 la_position rv = Some q /\ la_error rv = None
                 /\ start_pointer start p <= q <= end_ p)
   /\ (la_position rv = None ->
       la_found rv = None /\ la_error rv = Some (start_pointer start p)))
  /\ (lookahead_for_include start p = Ok rv p' ->
      la_parsable rv = negb (la_has_interpolants rv)
      /\ (forall q, la_found rv = Some q ->
                    la_position rv = Some q /\ start_pointer start p <= q <= end_ p))
  /\ (lookahead_for_value start p = Ok rv p' ->
      forall q, la_found rv = Some q ->
                la_position rv = Some q /\ start_pointer start p < q <= end_ p).
Proof.
  split; [| split].
  - apply lookahead_for_selector_result.
  - apply lookahead_for_include_result.
  - apply lookahead_for_value_result.
Qed.

End LookaheadResults.

(** X9 at the selector [a b] of [a b { c: d; }]. *)
Lemma lookahead_results_are_consistent_witness :
  la_parsable (mkLookahead (Some 4) None (Some 4) true false false)
  = negb (la_has_interpolants (mkLookahead (Some 4) None (Some 4) true false false))
  /\ 0 <= 4 <= 13.
Proof.
  destruct (proj1 (@lookahead_results_are_consistent Demo.types Css.lexicon
                     None (Demo.parser_on "a b { c: d; }") (Demo.parser_on "a b { c: d; }")
                     (mkLookahead (Some 4) None (Some 4) true false false)))
    as [Hp [Hf _]].
  - vm_compute. reflexivity.
  - split; [exact Hp |]. exact (proj2 (proj2 (Hf 4 eq_refl))).
Defined.

(* ----------------------------------------------------------------- *)
(** *** The entry point *)

Section EntryPoint.
Context {F : Foreign} {L : Lexicon} {X : Externals}.

(** X10.  When [parse] returns, the whole buffer is consumed: the cursor
    stands at its end.  Input that is left over is the error "expected
    selector or at-rule", and a buffer in which [utf8::find_invalid] finds
    an invalid sequence is rejected with "Invalid UTF-8 sequence" before
    anything is parsed. *)
Theorem parse_consumes_the_buffer (n : nat) (p : Parser) :
  (forall (root : Block) (p' : Parser),
      parse n p = Ok root p' -> position p' = end_ p')
  /\ (forall p0 : Parser,
         read_bom p = Ok tt p0 ->
         find_invalid (source p0) (position p0) (end_ p0) <> end_ p0 ->
         exists at_, parse n p = Err (InvalidSass at_ "Invalid UTF-8 sequence")).
Proof.
  split.
  - intros root p'. unfold parse.
    unfold bind at 1. destruct (read_bom p) as [[] p0 | |]; try discriminate.
    unfold bind at 1, get at 1.
    destruct (negb (Nat.eqb _ (end_ p0))); [discriminate |].
    unfold bind at 1.
    match goal with |- match ?c p0 with _ => _ end = _ -> _ =>
      destruct (c p0) as [root0 p1 | |]; try discriminate end.
    unfold bind at 1, push_block at 1, modify at 1.
    unfold bind at 1.
    match goal with |- match parse_block_nodes n true ?q with _ => _ end = _ -> _ =>
      destruct (parse_block_nodes n true q) as [ok p2 | |]; try discriminate end.
    unfold bind at 1.
    destruct (pop_block p2) as [root1 p3 | |]; try discriminate.
    unfold bind at 1, get at 1.
    destruct (Nat.eqb_spec (position p3) (end_ p3)) as [E | Hne]; cbn [negb].
    + now intros [= _ <-].
    + now rewrite css_error_is_error.
  - intros p0 Hbom Hinvalid. unfold parse.
    unfold bind at 1. rewrite Hbom. unfold bind at 1, get at 1.
    destruct (Nat.eqb_spec (find_invalid (source p0) (position p0) (end_ p0)) (end_ p0))
      as [E | _]; [contradiction |].
    cbn [negb]. unfold throw. eauto.
Qed.

(** The length of a C string that is cut by a NUL byte. *)
Lemma c_str_cut (text rest : string) :
  mem_char NUL text = false ->
  c_str (text ++ String NUL rest) = text /\ c_str text = text.
Proof.
  induction text as [| c text IH]; intros H.
  - split; reflexivity.
  - change (mem_char NUL (String c text)) with (Ascii.eqb NUL c || mem_char NUL text) in H.
    apply orb_false_elim in H as [Hc Hrest].
    cbn [append c_str]. rewrite (Ascii.eqb_sym c NUL), Hc.
    destruct (IH Hrest) as [-> ->]. now split.
Qed.

(** X11.  [from_c_str] without an end pointer takes the buffer to end at
    its first NUL byte: what stands behind a NUL is outside the buffer.  The
    parser it makes stands at the first byte, in the scope [Root], with an
    empty root block on the block stack. *)
Theorem c_string_buffer_ends_at_nul (text rest : string) (c : Context) (ps : ParserState)
    (allow : bool) :
  mem_char NUL text = false ->
  end_ (from_c_str (text ++ String NUL rest) c ps allow) = String.length text
  /\ end_ (from_c_str text c ps allow) = String.length text
  /\ position (from_c_str (text ++ String NUL rest) c ps allow) = 0
  /\ stack (from_c_str (text ++ String NUL rest) c ps allow) = [Root]
  /\ block_stack (from_c_str (text ++ String NUL rest) c ps allow) = [Block_ [] true].
Proof.
  intros H. destruct (c_str_cut text rest H) as [H1 H2].
  unfold from_c_str. cbn [end_ position stack block_stack new_Parser Nat.add].
  unfold strlen. cbn [drop]. rewrite H1, H2. repeat split.
Qed.

End EntryPoint.

(** X10 at the buffer [$a: 1;]. *)
Lemma parse_consumes_the_buffer_witness :
  exists root p',
    parse (F := Demo.types) (L := Css.lexicon) (X := Demo.externals)
          Demo.fuel (Demo.parser_on "$a: 1;") = Ok root p'
    /\ position p' = end_ p'.
Proof.
  assert (H : exists root p',
             parse (F := Demo.types) (L := Css.lexicon) (X := Demo.externals)
                   Demo.fuel (Demo.parser_on "$a: 1;") = Ok root p')
    by (vm_compute; eauto).
  destruct H as (root & p' & H). exists root, p'. split; [exact H |].
  exact (proj1 (@parse_consumes_the_buffer Demo.types Css.lexicon Demo.externals
                  Demo.fuel (Demo.parser_on "$a: 1;")) root p' H).
Defined.

(** X11 at [a{}] followed by a NUL byte and more text. *)
Lemma c_string_buffer_ends_at_nul_witness :
  end_ (from_c_str (F := Demo.types) ("a{}" ++ String NUL "b{}") tt
          (mkParserState (mkOffset 0 0) (mkOffset 0 0)) true) = 3.
Proof.
  apply (@c_string_buffer_ends_at_nul Demo.types "a{}" "b{}" tt
           (mkParserState (mkOffset 0 0) (mkOffset 0 0)) true).
  reflexivity.
Defined.

(* ----------------------------------------------------------------- *)
(** *** Relations every run of the expression parser respects *)

Section LexingInvariants.
Context {F : Foreign} {L : Lexicon} {X : Externals}.
Variable R : Parser -> Parser -> Prop.
Hypothesis HR : lexing_invariant R.
Hypothesis HX : values_keep R.

Lemma keeps_unchanged {A : Type} (c : M A) :
  (forall p a p', c p = Ok a p' -> p' = p) -> keeps R c.
Proof. intros H p a p' E. rewrite (H p a p' E). apply (inv_refl R HR). Qed.

Lemma keeps_return {A : Type} (a : A) : keeps R (ret a).
Proof. apply keeps_ret, (inv_refl R HR). Qed.

Lemma keeps_then {A B : Type} (c : M A) (k : A -> M B) :
  keeps R c -> (forall a, keeps R (k a)) -> keeps R (bind c k).
Proof. apply keeps_bind, (inv_trans R HR). Qed.

Lemma keeps_lex (m : matcher) (lazy force : bool) : keeps R (lex m lazy force).
Proof.
  intros p a p'. unfold lex. destruct (lex_at m lazy force p) as [q |] eqn:E.
  - intros [= _ <-]. apply (inv_lex R HR _ _ _ _ _ E).
  - intros [= _ <-]. apply (inv_refl R HR).
Qed.

Lemma keeps_lex_css (m : matcher) : keeps R (lex_css m).
Proof.
  intros p a p'. unfold lex_css, lex_css_at.
  destruct (lex_at css_comments true false p) as [p1 |] eqn:E1.
  - destruct (lex_at m true false p1) as [q |] eqn:E.
    + intros [= _ <-]. apply (inv_trans R HR _ p1).
      * apply (inv_lex R HR _ _ _ _ _ E1).
      * apply (inv_lex R HR _ _ _ _ _ E).
    + intros [= _ <-]. apply (inv_refl R HR).
  - destruct (lex_at m true false p) as [q |] eqn:E.
    + intros [= _ <-]. apply (inv_lex R HR _ _ _ _ _ E).
    + intros [= _ <-]. apply (inv_refl R HR).
Qed.

Lemma keeps_peek (m : matcher) (start : option nat) : keeps R (peek m start).
Proof. apply keeps_unchanged. unfold peek. now intros p a p' [= _ <-]. Qed.

Lemma keeps_peek_css (m : matcher) (start : option nat) : keeps R (peek_css m start).
Proof. apply keeps_unchanged. unfold peek_css. now intros p a p' [= _ <-]. Qed.

Lemma keeps_peek_pos (m : matcher) : keeps R (peek_pos m).
Proof. apply keeps_unchanged. unfold peek_pos. now intros p a p' [= _ <-]. Qed.

Lemma keeps_peek_css_pos (m : matcher) : keeps R (peek_css_pos m).
Proof. apply keeps_unchanged. unfold peek_css_pos. now intros p a p' [= _ <-]. Qed.

Lemma keeps_get : keeps R get.
Proof. apply keeps_unchanged. unfold get. now intros p a p' [= _ <-]. Qed.

Lemma keeps_get_lexed : keeps R get_lexed.
Proof. apply keeps_unchanged. unfold get_lexed. now intros p a p' [= _ <-]. Qed.

Lemma keeps_here : keeps R here.
Proof. apply keeps_unchanged. unfold here. now intros p a p' [= _ <-]. Qed.

Lemma keeps_found {A : Type} (c : M (option A)) : keeps R c -> keeps R (found c).
Proof. intros H. unfold found. apply keeps_then; [exact H | intros a; apply keeps_return]. Qed.

Lemma keeps_advanceToNextToken : keeps R advanceToNextToken.
Proof.
  unfold advanceToNextToken. apply keeps_then; [apply keeps_lex |].
  intros _ p a p'. unfold modify. intros [= _ <-]. apply (inv_pstate R HR).
Qed.

Lemma keeps_NESTING_GUARD {A : Type} (body : M A) :
  keeps R body -> keeps R (NESTING_GUARD body).
Proof.
  intros H p a p'. unfold NESTING_GUARD. cbv zeta.
  destruct (Nat.ltb MAX_NESTING _); [discriminate |].
  destruct (body _) as [a0 p2 | |] eqn:E; try discriminate.
  intros [= _ <-].
  apply (inv_trans R HR _ (set_nestings (S (nestings p)) p)); [apply (inv_nestings R HR) |].
  apply (inv_trans R HR _ p2); [exact (H _ _ _ E) | apply (inv_nestings R HR)].
Qed.

Lemma keeps_LOCAL_FLAG_allow_parent {A : Type} (b : bool) (body : M A) :
  keeps R body -> keeps R (LOCAL_FLAG_allow_parent b body).
Proof.
  intros H p a p'. unfold LOCAL_FLAG_allow_parent.
  destruct (body _) as [a0 p2 | |] eqn:E; try discriminate.
  intros [= _ <-].
  apply (inv_trans R HR _ (set_allow_parent b p)); [apply (inv_allow_parent R HR) |].
  apply (inv_trans R HR _ p2); [exact (H _ _ _ E) | apply (inv_allow_parent R HR)].
Qed.

(** A step that is followed by an error on every path returns nothing. *)
Lemma keeps_before_css_error {A B : Type} (c : M A) (msg prefix middle : string)
    (trim : bool) :
  keeps (A := B) R (c ;;; css_error msg prefix middle trim).
Proof.
  intros p a p'. unfold bind. destruct (c p); try discriminate.
  now rewrite css_error_is_error.
Qed.


(** The look-ahead scans leave the parser as it is. *)
Lemma keeps_lookahead_for_selector (start : option nat) :
  keeps R (lookahead_for_selector start).
Proof.
  intros p a p'. destruct (lookahead_for_selector_frame start p) as [rv ->].
  intros [= _ <-]. apply (inv_refl R HR).
Qed.

Lemma keeps_lookahead_for_include (start : option nat) :
  keeps R (lookahead_for_include start).
Proof.
  intros p a p'. destruct (lookahead_for_include_frame start p) as [rv ->].
  intros [= _ <-]. apply (inv_refl R HR).
Qed.

Lemma keeps_lookahead_for_value (start : option nat) :
  keeps R (lookahead_for_value start).
Proof.
  intros p a p'. destruct (lookahead_for_value_frame start p) as [rv ->].
  intros [= _ <-]. apply (inv_refl R HR).
Qed.

End LexingInvariants.

Lemma externals_keep_values {F : Foreign} {X : Externals}
    (R : Parser -> Parser -> Prop) :
  externals_keep R -> values_keep R.
Proof. intros H A c Hc. apply H. now constructor. Qed.

(** One step of the proof that a run respects a relation, by the shape of
    the run. *)
Ltac keeps_step :=
  lazymatch goal with
  | |- keeps _ (ret _) => apply keeps_return; assumption
  | |- keeps _ (error _) => apply keeps_error
  | |- keeps _ (throw _) => apply keeps_throw
  | |- keeps _ out_of_fuel => apply keeps_out_of_fuel
  | |- keeps _ (css_error _ _ _ _) => apply keeps_css_error
  | |- keeps _ expected_expression => apply keeps_css_error
  | |- keeps _ expected_closing_paren => apply keeps_css_error
  | |- keeps _ expected_colon => apply keeps_css_error
  | |- keeps _ (css_error_expected _) => apply keeps_css_error
  | |- keeps _ (bind (modify _) (fun _ => expected_expression)) =>
      apply keeps_before_css_error
  | |- keeps _ (bind _ _) => apply keeps_then; [assumption | | intro]
  | |- keeps _ (found _) => apply keeps_found; [assumption |]
  | |- keeps _ (lex _ _ _) => apply keeps_lex; assumption
  | |- keeps _ (lex_css _) => apply keeps_lex_css; assumption
  | |- keeps _ (peek _ _) => apply keeps_peek; assumption
  | |- keeps _ (peek_css _ _) => apply keeps_peek_css; assumption
  | |- keeps _ (peek_pos _) => apply keeps_peek_pos; assumption
  | |- keeps _ (peek_css_pos _) => apply keeps_peek_css_pos; assumption
  | |- keeps _ get => apply keeps_get; assumption
  | |- keeps _ get_lexed => apply keeps_get_lexed; assumption
  | |- keeps _ here => apply keeps_here; assumption
  | |- keeps _ advanceToNextToken => apply keeps_advanceToNextToken; assumption
  | |- keeps _ (NESTING_GUARD _) => apply keeps_NESTING_GUARD; [assumption |]
  | |- keeps _ (LOCAL_FLAG_allow_parent _ _) =>
      apply keeps_LOCAL_FLAG_allow_parent; [assumption |]
  | |- keeps _ (lookahead_for_selector _) =>
      apply keeps_lookahead_for_selector; assumption
  | |- keeps _ (lookahead_for_include _) =>
      apply keeps_lookahead_for_include; assumption
  | |- keeps _ (lookahead_for_value _) =>
      apply keeps_lookahead_for_value; assumption
  | |- keeps _ (if ?c then _ else _) => destruct c
  | |- keeps _ (match ?x with _ => _ end) => destruct x
  | |- keeps _ _ =>
      first [ assumption
            | match goal with H : values_keep _ |- _ => apply H; constructor end
            | match goal with
              | H : externals_keep _ |- _ =>
                  apply H; first [solve [constructor] | constructor; constructor]
              end
            | match goal with H : _ |- _ => solve [apply H] end ]
  end.

Section ExpressionInvariants.
Context {F : Foreign} {L : Lexicon} {X : Externals}.
Variable R : Parser -> Parser -> Prop.
Hypothesis HR : lexing_invariant R.
Hypothesis HX : values_keep R.

Lemma keeps_parse_string : keeps R parse_string.
Proof. unfold parse_string. repeat keeps_step. Qed.

Lemma keeps_return_hex_color : keeps R return_hex_color.
Proof. unfold return_hex_color. repeat keeps_step. Qed.

Lemma keeps_parse_value : keeps R parse_value.
Proof.
  pose proof keeps_parse_string. pose proof keeps_return_hex_color.
  unfold parse_value. repeat keeps_step.
Qed.

Lemma keeps_lex_relation_op : keeps R lex_relation_op.
Proof. unfold lex_relation_op. repeat keeps_step. Qed.

End ExpressionInvariants.

Section ExpressionGrammar.
Context {F : Foreign} {L : Lexicon} {X : Externals}.
Variable R : Parser -> Parser -> Prop.
Hypothesis HR : lexing_invariant R.
Hypothesis HX : values_keep R.

Lemma expression_grammar_keeps (n : nat) : expression_grammar_respects R n.
Proof.
  pose proof (keeps_parse_value R HR HX) as Hvalue.
  pose proof (keeps_lex_relation_op R HR) as Hop.
  induction n as [| n IH].
  - unfold expression_grammar_respects. repeat split; intros; apply keeps_out_of_fuel.
  - destruct IH as (I1 & I2 & I3 & I4 & I5 & I6 & I7 & I8 & I9 & I10 & I11 & I12 & I13
                    & I14 & I15 & I16 & I17 & I18 & I19 & I20 & I21 & I22 & I23 & I24 & I25).
    unfold expression_grammar_respects.
    repeat split; intros; simpl; cbv zeta; repeat keeps_step.
Qed.

End ExpressionGrammar.

(* ----------------------------------------------------------------- *)
(** *** Relations the statement parsers respect *)

(** The facts of a statement invariant, for the steps to find. *)
Ltac statement_facts HS :=
  pose proof (st_lexing _ HS) as HR;
  pose proof (st_externals _ HS) as HX;
  pose proof (st_comment _ HS) as Hcomment;
  pose proof (st_static_value _ HS) as Hstatic.

Section StatementInvariants.
Context {F : Foreign} {L : Lexicon} {X : Externals}.
Variable R : Parser -> Parser -> Prop.
Hypothesis HS : statement_invariant R.

Lemma keeps_lex_while (n : nat) (m : matcher) : keeps R (lex_while n m).
Proof. statement_facts HS. induction n as [| n IH]; simpl; repeat keeps_step. Qed.

Lemma keeps_parse_block_comments (n : nat) (store : bool) :
  keeps R (parse_block_comments n store).
Proof.
  statement_facts HS. induction n as [| n IH]; simpl; cbv zeta; repeat keeps_step.
Qed.

Lemma keeps_parse_charset_directive : keeps R parse_charset_directive.
Proof. statement_facts HS. unfold parse_charset_directive. repeat keeps_step. Qed.

Lemma keeps_check_not_in_properties : keeps R check_not_in_properties.
Proof. statement_facts HS. unfold check_not_in_properties. repeat keeps_step. Qed.

Lemma keeps_lex_variable : keeps R lex_variable.
Proof. statement_facts HS. unfold lex_variable. repeat keeps_step. Qed.

Lemma keeps_assignment_flags (n : nat) (d g : bool) : keeps R (assignment_flags n d g).
Proof.
  statement_facts HS. revert d g.
  induction n as [| n IH]; intros d g; simpl; repeat keeps_step.
Qed.

(** The facts about the relation that the steps below find in the
    context. *)
Ltac grammar_facts n :=
  statement_facts HS;
  pose proof (expression_grammar_keeps R (st_lexing R HS)
                (externals_keep_values R (st_externals R HS)) n)
    as (E1 & E2 & E3 & E4 & E5 & E6 & E7 & E8 & E9 & E10 & E11 & E12 & E13
        & E14 & E15 & E16 & E17 & E18 & E19 & E20 & E21 & E22 & E23 & E24 & E25);
  pose proof keeps_lex_while as Hwhile;
  pose proof keeps_parse_block_comments as Hcomments;
  pose proof keeps_parse_charset_directive as Hcharset;
  pose proof keeps_check_not_in_properties as Hcheck;
  pose proof keeps_lex_variable as Hvariable;
  pose proof keeps_assignment_flags as Hflags.

Lemma keeps_parse_messages (n : nat) :
  keeps R (parse_warning n) /\ keeps R (parse_error n)
  /\ keeps R (parse_debug n) /\ keeps R (parse_return_directive n).
Proof.
  grammar_facts n. unfold parse_warning, parse_error, parse_debug, parse_return_directive.
  split; [| split; [| split]]; repeat keeps_step.
Qed.

Lemma keeps_parse_assignment (n : nat) : keeps R (parse_assignment n).
Proof. grammar_facts n. unfold parse_assignment. cbv zeta. repeat keeps_step. Qed.

Lemma keeps_parse_parameter (n : nat) : keeps R (parse_parameter n).
Proof. grammar_facts n. unfold parse_parameter. cbv zeta. repeat keeps_step. Qed.

Lemma keeps_parameters_loop (n : nat) (params : list Parameter_) :
  keeps R (parameters_loop n params).
Proof.
  statement_facts HS. revert params.
  induction n as [| n IH]; intros params; simpl; [repeat keeps_step |].
  pose proof (keeps_parse_parameter n). repeat keeps_step.
Qed.

Lemma keeps_parse_parameters (n : nat) : keeps R (parse_parameters n).
Proof.
  statement_facts HS. pose proof (keeps_parameters_loop n).
  unfold parse_parameters. repeat keeps_step.
Qed.

Lemma keeps_import_targets (n : nat) (first : bool)
    (to_import : list (string * option Expression)) :
  keeps R (import_targets n first to_import).
Proof.
  revert first to_import.
  induction n as [| n IH]; intros first to_import; simpl; [apply keeps_out_of_fuel |].
  grammar_facts n.
  pose proof (keeps_parse_string R (st_lexing R HS)
                (externals_keep_values R (st_externals R HS))).
  cbv zeta. repeat keeps_step.
Qed.

Lemma keeps_resolve_imports (to_import : list (string * option Expression)) (imp : Import_) :
  keeps R (resolve_imports to_import imp).
Proof.
  statement_facts HS. revert imp.
  induction to_import as [| [path [url |]] rest IH]; intros imp; simpl; repeat keeps_step.
Qed.

Lemma keeps_parse_import (n : nat) : keeps R (parse_import n).
Proof.
  statement_facts HS.
  pose proof (keeps_import_targets n). pose proof keeps_resolve_imports.
  unfold parse_import. repeat keeps_step.
Qed.

Lemma keeps_parse_declaration (n : nat) : keeps R (parse_declaration n).
Proof. grammar_facts n. unfold parse_declaration. cbv zeta. repeat keeps_step. Qed.

Lemma keeps_parse_extend : keeps R parse_extend.
Proof. statement_facts HS. unfold parse_extend. repeat keeps_step. Qed.

End StatementInvariants.

(* ----------------------------------------------------------------- *)
(** *** The frame and the cursor *)

Section Frame.
Context {F : Foreign} {L : Lexicon} {X : Externals}.

Lemma grows_refl (b : Block) : grows b b.
Proof. split; [reflexivity |]. exists []. now rewrite app_nil_r. Qed.

Lemma grows_trans (a b c : Block) : grows a b -> grows b c -> grows a c.
Proof.
  intros [Hr [x Hx]] [Hr' [y Hy]]. split; [congruence |].
  exists (x ++ y). now rewrite Hy, Hx, app_assoc.
Qed.

Lemma blocks_grow_refl (bs : list Block) : blocks_grow bs bs.
Proof. destruct bs; cbn; [exact I |]. split; [apply grows_refl | reflexivity]. Qed.

Lemma blocks_grow_trans (a b c : list Block) :
  blocks_grow a b -> blocks_grow b c -> blocks_grow a c.
Proof.
  destruct a as [| x a], b as [| y b], c as [| z c]; cbn; try tauto.
  intros [H1 ->] [H2 ->]. split; [exact (grows_trans _ _ _ H1 H2) | reflexivity].
Qed.

Lemma blocks_grow_tl (a b : list Block) : blocks_grow a b -> tl b = tl a.
Proof. destruct a, b; cbn; tauto. Qed.

Lemma frame_refl (p : Parser) : frame p p.
Proof. unfold frame. repeat split. apply blocks_grow_refl. Qed.

Lemma frame_trans (p q r : Parser) : frame p q -> frame q r -> frame p r.
Proof.
  unfold frame. intros (H1 & H2 & H3 & H4 & H5) (G1 & G2 & G3 & G4 & G5).
  repeat split; try congruence. exact (blocks_grow_trans _ _ _ H5 G5).
Qed.

Lemma same_frame_by_fields (p q : Parser) :
  stack q = stack p -> source q = source p -> end_ q = end_ p ->
  indentation q = indentation p -> block_stack q = block_stack p -> same_frame p q.
Proof. intros. unfold same_frame. tauto. Qed.

Lemma same_frame_is_a_frame (p q : Parser) : same_frame p q -> frame p q.
Proof.
  unfold same_frame, frame. intros (H1 & H2 & H3 & H4 & H5). rewrite H5.
  repeat split; try assumption. apply blocks_grow_refl.
Qed.

(** The fields of the frame decide it. *)
Lemma frame_by_fields (p q : Parser) :
  stack q = stack p -> source q = source p -> end_ q = end_ p ->
  indentation q = indentation p -> block_stack q = block_stack p -> frame p q.
Proof. intros. now apply same_frame_is_a_frame, same_frame_by_fields. Qed.

Lemma same_frame_is_a_lexing_invariant : lexing_invariant same_frame.
Proof.
  split.
  - intros p. apply same_frame_by_fields; reflexivity.
  - unfold same_frame. intros p q r (H1 & H2 & H3 & H4 & H5) (G1 & G2 & G3 & G4 & G5).
    repeat split; congruence.
  - intros m lazy force p q H. apply lex_at_frame in H.
    apply same_frame_by_fields; tauto.
  - intros ps p. apply same_frame_by_fields; reflexivity.
  - intros n p. apply same_frame_by_fields; reflexivity.
  - intros b p. apply same_frame_by_fields; reflexivity.
Qed.

Lemma frame_is_a_lexing_invariant : lexing_invariant frame.
Proof.
  split.
  - apply frame_refl.
  - apply frame_trans.
  - intros m lazy force p q H. apply lex_at_frame in H.
    apply frame_by_fields; tauto.
  - intros ps p. apply frame_by_fields; reflexivity.
  - intros n p. apply frame_by_fields; reflexivity.
  - intros b p. apply frame_by_fields; reflexivity.
Qed.

(** A committed token ends inside the buffer, not before the cursor. *)
Lemma lex_at_within (m : matcher) (lazy force : bool) (p q : Parser) :
  lex_at m lazy force p = Some q -> position p <= position q <= end_ q.
Proof.
  unfold lex_at. intros H.
  destruct (Ascii.eqb _ NUL); [discriminate |].
  destruct (match_at m p _) as [after |] eqn:E; [| discriminate].
  destruct (Nat.ltb_spec (end_ p) after) as [| Hle]; [discriminate |].
  destruct (negb force && Nat.eqb after _); [discriminate |].
  injection H as <-. cbn [position end_]. apply match_at_ge in E.
  split; [| exact Hle].
  destruct lazy; [| exact E]. pose proof (sneak_ge m p (position p)). lia.
Qed.

Lemma advances_is_a_lexing_invariant : lexing_invariant advances.
Proof.
  split; unfold advances.
  - intros p. split; [lia | tauto].
  - intros p q r [H1 H2] [G1 G2]. split; [lia | tauto].
  - intros m lazy force p q H. apply lex_at_within in H. split; [lia | intros _; lia].
  - intros ps p. cbn. split; [lia | tauto].
  - intros n p. cbn. split; [lia | tauto].
  - intros b p. cbn. split; [lia | tauto].
Qed.

Lemma both_are_a_lexing_invariant (R1 R2 : Parser -> Parser -> Prop) :
  lexing_invariant R1 -> lexing_invariant R2 ->
  lexing_invariant (fun p q => R1 p q /\ R2 p q).
Proof.
  intros H1 H2. split.
  - intros p. split; [apply (inv_refl R1 H1) | apply (inv_refl R2 H2)].
  - intros p q r [A1 A2] [B1 B2].
    split; [exact (inv_trans R1 H1 _ _ _ A1 B1) | exact (inv_trans R2 H2 _ _ _ A2 B2)].
  - intros m lazy force p q H.
    split; [exact (inv_lex R1 H1 _ _ _ _ _ H) | exact (inv_lex R2 H2 _ _ _ _ _ H)].
  - intros ps p. split; [apply (inv_pstate R1 H1) | apply (inv_pstate R2 H2)].
  - intros n p. split; [apply (inv_nestings R1 H1) | apply (inv_nestings R2 H2)].
  - intros b p. split; [apply (inv_allow_parent R1 H1) | apply (inv_allow_parent R2 H2)].
Qed.


End Frame.

(* ----------------------------------------------------------------- *)
(** *** Brackets: what is pushed is popped *)

Section Brackets.
Context {F : Foreign} {L : Lexicon} {X : Externals}.

Lemma settle_one_frame (d : debt) (p q : Parser) :
  frame p q -> frame (settle_one d p) (settle_one d q).
Proof.
  unfold frame. intros (H1 & H2 & H3 & H4 & H5).
  destruct d; cbn; rewrite ?H1, ?H4; repeat split; try assumption.
  rewrite (blocks_grow_tl _ _ H5). apply blocks_grow_refl.
Qed.

Lemma settle_frame (ds : list debt) (p q : Parser) :
  frame p q -> frame (settle ds p) (settle ds q).
Proof.
  revert p q. induction ds as [| d ds IH]; intros p q H; [exact H |].
  cbn [settle]. apply IH, settle_one_frame, H.
Qed.

Lemma owes_nothing {A : Type} (c : M A) : keeps frame c -> keeps (owes []) c.
Proof. intros H. exact H. Qed.

Lemma frame_of_owes {A : Type} (c : M A) : keeps (owes []) c -> keeps frame c.
Proof. intros H. exact H. Qed.

Lemma owes_step {A B : Type} (ds : list debt) (c : M A) (k : A -> M B) :
  keeps frame c -> (forall a, keeps (owes ds) (k a)) -> keeps (owes ds) (bind c k).
Proof.
  intros Hc Hk p b p'. unfold bind. destruct (c p) as [a q | |] eqn:E; try discriminate.
  intros H. unfold owes.
  exact (frame_trans _ _ _ (settle_frame ds _ _ (Hc _ _ _ E)) (Hk a _ _ _ H)).
Qed.

(** A modification that the debt [d] undoes opens a bracket. *)
Lemma owes_after {A : Type} (d : debt) (ds : list debt) (f : Parser -> Parser) (k : M A) :
  (forall p, frame p (settle_one d (f p))) ->
  keeps (owes (d :: ds)) k -> keeps (owes ds) (modify f ;;; k).
Proof.
  intros Hf Hk p a p'. unfold bind, modify. intros H. unfold owes.
  exact (frame_trans _ _ _ (settle_frame ds _ _ (Hf p)) (Hk _ _ _ H)).
Qed.

Lemma owes_push_scope {A : Type} (s : Scope) (ds : list debt) (k : M A) :
  keeps (owes (pushed_scope :: ds)) k -> keeps (owes ds) (push_scope s ;;; k).
Proof.
  apply owes_after. intros p. apply frame_by_fields; reflexivity.
Qed.

Lemma owes_push_block {A : Type} (b : Block) (ds : list debt) (k : M A) :
  keeps (owes (pushed_block :: ds)) k -> keeps (owes ds) (push_block b ;;; k).
Proof.
  apply owes_after. intros p. apply frame_by_fields; reflexivity.
Qed.

Lemma owes_indent {A : Type} (ds : list debt) (k : M A) :
  keeps (owes (indented :: ds)) k ->
  keeps (owes ds) (modify (fun p => set_indentation (S (indentation p)) p) ;;; k).
Proof.
  apply owes_after. intros p. apply frame_by_fields; try reflexivity.
  cbn. lia.
Qed.

Lemma owes_pop_scope {A : Type} (ds : list debt) (k : M A) :
  keeps (owes ds) k -> keeps (owes (pushed_scope :: ds)) (pop_scope ;;; k).
Proof. intros Hk p a p'. unfold bind, pop_scope, modify. apply Hk. Qed.

Lemma owes_unindent {A : Type} (ds : list debt) (k : M A) :
  keeps (owes ds) k ->
  keeps (owes (indented :: ds))
        (modify (fun p => set_indentation (indentation p - 1) p) ;;; k).
Proof. intros Hk p a p'. unfold bind, modify. apply Hk. Qed.

Lemma owes_pop_block {A : Type} (ds : list debt) (k : Block -> M A) :
  (forall b, keeps (owes ds) (k b)) -> keeps (owes (pushed_block :: ds)) (bind pop_block k).
Proof.
  intros Hk p a p'. unfold bind, pop_block.
  destruct (block_stack p) as [| b bs] eqn:E; [discriminate |].
  intros H. apply Hk in H. unfold owes in *. cbn [settle settle_one]. now rewrite E.
Qed.

Lemma owes_pop_block_last : keeps (owes [pushed_block]) pop_block.
Proof.
  intros p a p'. unfold pop_block.
  destruct (block_stack p) as [| b bs] eqn:E; [discriminate |].
  intros [= _ <-]. unfold owes. cbn [settle settle_one]. rewrite E. apply frame_refl.
Qed.

Lemma keeps_append_to_block (s : Statement) : keeps frame (append_to_block s).
Proof.
  intros p a p'. unfold append_to_block, modify. intros [= _ <-].
  destruct (block_stack p) as [| b bs] eqn:E; [apply frame_refl |].
  unfold frame. cbn. rewrite E. repeat split.
  - destruct b; reflexivity.
  - destruct b as [es r]. now exists [s].
Qed.

Lemma keeps_parse_static_value : keeps frame parse_static_value.
Proof.
  intros p a p'. unfold parse_static_value, bind, get, modify, ret.
  destruct (lex static_value true false p) as [b q | |] eqn:E; try discriminate.
  intros [= _ <-].
  apply (frame_trans _ q); [| apply frame_by_fields; reflexivity].
  exact (keeps_lex frame frame_is_a_lexing_invariant _ _ _ _ _ _ E).
Qed.

Lemma keeps_import_stubs (incs : list Include) (c : M unit) :
  keeps frame c ->
  keeps frame (fold_left (fun acc inc => acc ;;; append_to_block (Import_Stub inc)) incs c).
Proof.
  revert c. induction incs as [| inc incs IH]; intros c Hc; simpl; [exact Hc |].
  apply IH. apply (keeps_then frame frame_is_a_lexing_invariant); [exact Hc |].
  intros _. apply keeps_append_to_block.
Qed.

Lemma frame_is_a_statement_invariant :
  externals_keep frame -> statement_invariant frame.
Proof.
  intros HX. split.
  - apply frame_is_a_lexing_invariant.
  - exact HX.
  - intros text important. apply keeps_append_to_block.
  - apply keeps_parse_static_value.
Qed.

End Brackets.

(** One step of the proof that a run keeps the frame: the brackets are
    followed, every other step is a step of [keeps]. *)
Ltac frame_step :=
  lazymatch goal with
  | |- keeps frame (bind _ _) => apply frame_of_owes
  | |- keeps frame (append_to_block _) => apply keeps_append_to_block
  | |- keeps frame parse_static_value => apply keeps_parse_static_value
  | |- keeps frame (fold_left _ _ _) => apply keeps_import_stubs
  | |- keeps frame _ => keeps_step
  | |- keeps (owes _) (bind (push_scope _) _) => apply owes_push_scope
  | |- keeps (owes _) (bind pop_scope _) => apply owes_pop_scope
  | |- keeps (owes _) (bind (push_block _) _) => apply owes_push_block
  | |- keeps (owes _) (bind pop_block _) => apply owes_pop_block; intro
  | |- keeps (owes _) pop_block => apply owes_pop_block_last
  | |- keeps (owes _) (bind (modify (fun p => set_indentation (S _) p)) _) =>
      apply owes_indent
  | |- keeps (owes _) (bind (modify (fun p => set_indentation (_ - 1) p)) _) =>
      apply owes_unindent
  | |- keeps (owes _) (bind (if ?c then modify _ else _) _) => destruct c
  | |- keeps (owes _) (bind _ _) => apply owes_step; [| intro]
  | |- keeps (owes _) (if ?c then _ else _) => destruct c
  | |- keeps (owes _) (match ?x with _ => _ end) => destruct x
  | |- keeps (owes _) (error _) => apply keeps_error
  | |- keeps (owes _) (throw _) => apply keeps_throw
  | |- keeps (owes _) out_of_fuel => apply keeps_out_of_fuel
  | |- keeps (owes _) (css_error _ _ _ _) => apply keeps_css_error
  | |- keeps (owes _) expected_expression => apply keeps_css_error
  | |- keeps (owes _) (css_error_expected _) => apply keeps_css_error
  | |- keeps (owes []) _ => apply owes_nothing
  end.

Section BlockGrammarFrame.
Context {F : Foreign} {L : Lexicon} {X : Externals}.
Hypothesis HX : externals_keep frame.

Lemma block_grammar_keeps_frame (n : nat) : block_grammar_frame n.
Proof.
  induction n as [| n IH].
  - unfold block_grammar_frame.
    repeat match goal with |- _ /\ _ => split end; intros; apply keeps_out_of_fuel.
  - destruct IH as (I1 & I2 & I3 & I4 & I5 & I6 & I7 & I8 & I9 & I10).
    pose proof (frame_is_a_statement_invariant HX) as HS.
    pose proof frame_is_a_lexing_invariant as HR.
    pose proof (expression_grammar_keeps frame HR (externals_keep_values frame HX) n)
      as (E1 & _ & _ & E4 & _ & _ & _ & _ & _ & _ & _ & E12 & _).
    pose proof (keeps_parse_block_comments frame HS) as Hcomments.
    pose proof (keeps_parse_charset_directive frame HS) as Hcharset.
    pose proof (keeps_lex_variable frame HS) as Hvariable.
    pose proof (keeps_parse_messages frame HS n) as (Hwarning & Herror & Hdebug & Hreturn).
    pose proof (keeps_parse_assignment frame HS n) as Hassignment.
    pose proof (keeps_parse_parameters frame HS n) as Hparameters.
    pose proof (keeps_parse_import frame HS n) as Himport.
    pose proof (keeps_parse_declaration frame HS n) as Hdeclaration.
    pose proof (keeps_parse_extend frame HS) as Hextend.
    unfold block_grammar_frame.
    repeat match goal with |- _ /\ _ => split end; intros; simpl; cbv zeta.
    all: repeat frame_step.
    match goal with
    | |- keeps frame (_ ?k ?vars) =>
        generalize vars; generalize k; intros k'; induction k' as [| k' IHk]; intros vars';
        repeat frame_step
    end.
Qed.

End BlockGrammarFrame.

Section EntryPointFrame.
Context {F : Foreign} {L : Lexicon} {X : Externals}.
Hypothesis HX : externals_keep frame.

Lemma keeps_read_bom : keeps frame read_bom.
Proof.
  intros p a p'. unfold read_bom, bind, get, modify.
  destruct (detect_bom p) as [[skip encoding] utf_8].
  destruct (Nat.ltb 0 skip && negb utf_8); [discriminate |].
  intros [= _ <-]. apply frame_by_fields; reflexivity.
Qed.

Lemma keeps_parse (n : nat) : keeps frame (parse n).
Proof.
  pose proof frame_is_a_lexing_invariant as HR.
  pose proof keeps_read_bom as Hbom.
  pose proof (block_grammar_keeps_frame HX n) as (I1 & _).
  unfold parse. cbv zeta. repeat frame_step.
Qed.

(** A block parser gives the block stack back as it found it, and the block
    it returns has the flag it was called with. *)
Lemma parse_css_block_restores (n : nat) (is_root : bool) (p p' : Parser) (b : Block) :
  parse_css_block n is_root p = Ok b p' ->
  block_stack p' = block_stack p /\ block_is_root b = is_root.
Proof.
  pose proof (keeps_lex_css same_frame same_frame_is_a_lexing_invariant) as Hlex.
  destruct n as [| n]; simpl; [discriminate |].
  unfold bind at 1.
  destruct (lex_css (exactly "{") p) as [[|] p1 | |] eqn:E1; try discriminate;
    [| unfold css_error_expected; now rewrite css_error_is_error].
  apply Hlex in E1. destruct E1 as (_ & _ & _ & _ & E1).
  unfold bind at 1, push_block at 1, modify at 1. unfold bind at 1.
  match goal with
  | |- match parse_block_nodes n is_root ?q with _ => _ end = _ -> _ =>
      destruct (parse_block_nodes n is_root q) as [[|] p2 | |] eqn:E2; try discriminate
  end; [| unfold css_error_expected; now rewrite css_error_is_error].
  apply (proj1 (block_grammar_keeps_frame HX n)) in E2.
  destruct E2 as (_ & _ & _ & _ & E2). cbn [block_stack set_block_stack] in E2.
  unfold bind at 1.
  destruct (lex_css (exactly "}") p2) as [[|] p3 | |] eqn:E3; try discriminate;
    [| unfold css_error_expected; now rewrite css_error_is_error].
  apply Hlex in E3. destruct E3 as (_ & _ & _ & _ & E3).
  unfold pop_block. rewrite E3.
  destruct (block_stack p2) as [| top below]; [contradiction |].
  destruct E2 as [[Hroot _] ->]. intros [= <- <-]. cbn. split; [exact E1 | exact Hroot].
Qed.

End EntryPointFrame.

Section ExpressionFrame.
Context {F : Foreign} {L : Lexicon} {X : Externals}.

(** X12.  [parse_list], [parse_expression] and [parse_arguments], when they
    return, have left the scope stack, the block stack, the buffer, its end
    and the indentation as they were, and the cursor stands at or behind
    the place it started from and, if that was inside the buffer, inside
    the buffer; provided the abstract value parsers that the expression
    grammar calls do the same. *)
Theorem expression_parsers_leave_the_frame (n : nat) (p p' : Parser) :
  values_keep (fun p q => same_frame p q /\ advances p q) ->
  (forall delayed e, parse_list n delayed p = Ok e p' ->
                     same_frame p p' /\ advances p p')
  /\ (forall e, parse_expression n p = Ok e p' -> same_frame p p' /\ advances p p')
  /\ (forall args, parse_arguments n p = Ok args p' ->
                   same_frame p p' /\ advances p p').
Proof.
  intros HX.
  pose proof (both_are_a_lexing_invariant _ _ same_frame_is_a_lexing_invariant
                advances_is_a_lexing_invariant) as HR.
  pose proof (expression_grammar_keeps _ HR HX n)
    as (E1 & _ & _ & _ & _ & _ & _ & _ & _ & _ & _ & E12 & _ & _ & _ & _ & _ & _ & _ & _
        & _ & _ & E23 & _).
  split; [| split].
  - intros delayed e. apply E1.
  - intros e. apply E12.
  - intros args. apply E23.
Qed.

End ExpressionFrame.

Section BlockFrame.
Context {F : Foreign} {L : Lexicon} {X : Externals}.

(** X13.  [parse_block_nodes], [parse_block_node], [parse_block] and
    [parse], when they return, have left the scope stack as they found it:
    every scope that was pushed has been popped.  The same holds of the
    buffer, its end and the indentation, and of the block stack, where only
    the block on top may have grown by appended statements.  [parse_block]
    gives the block stack back unchanged, and the block it returns has the
    [is_root] flag it was called with.  All this provided the abstract
    parsers keep the frame. *)
Theorem block_parsers_keep_the_frame (n : nat) (is_root : bool) (p p' : Parser) :
  externals_keep frame ->
  (forall ok, parse_block_nodes n is_root p = Ok ok p' -> frame p p')
  /\ (forall ok, parse_block_node n is_root p = Ok ok p' -> frame p p')
  /\ (forall b, parse_block n is_root p = Ok b p' ->
                frame p p' /\ block_stack p' = block_stack p
                /\ block_is_root b = is_root)
  /\ (forall root, parse n p = Ok root p' -> frame p p').
Proof.
  intros HX.
  pose proof (block_grammar_keeps_frame HX n) as (I1 & I2 & _ & I4 & _).
  split; [| split; [| split]].
  - intros ok. apply I1.
  - intros ok. apply I2.
  - intros b H. split; [exact (I4 _ _ _ _ H) |].
    destruct n as [| n]; [discriminate |].
    exact (parse_css_block_restores HX n is_root p p' b H).
  - intros root. apply (keeps_parse HX).
Qed.

End BlockFrame.

(* ----------------------------------------------------------------- *)
(** *** The directives with a query or a call *)

Section DirectiveFrame.
Context {F : Foreign} {L : Lexicon} {X : Externals} {K : Directives.Keywords}.
Hypothesis HX : externals_keep frame.

Ltac directive_facts n :=
  pose proof frame_is_a_lexing_invariant as HR;
  pose proof (expression_grammar_keeps frame HR (externals_keep_values frame HX) n)
    as (E1 & _ & _ & _ & _ & _ & _ & _ & _ & _ & _ & E12 & _ & _ & _ & _ & _ & _ & _ & _
        & _ & _ & E23 & _);
  pose proof (block_grammar_keeps_frame HX n) as (_ & _ & I3 & I4 & I5 & _);
  pose proof (keeps_parse_parameters frame (frame_is_a_statement_invariant HX) n)
    as Hparameters;
  pose proof (keeps_parse_block_comments frame (frame_is_a_statement_invariant HX))
    as Hcomments.

Lemma keeps_lex_identifier : keeps frame Directives.lex_identifier.
Proof.
  pose proof frame_is_a_lexing_invariant as HR.
  unfold Directives.lex_identifier. repeat frame_step.
Qed.

Lemma keeps_parse_include_directive (n : nat) :
  keeps frame (Directives.parse_include_directive n).
Proof.
  directive_facts n. pose proof keeps_lex_identifier.
  unfold Directives.parse_include_directive. cbv zeta. repeat frame_step.
Qed.

Lemma keeps_parse_content_directive (n : nat) :
  keeps frame (Directives.parse_content_directive n).
Proof.
  directive_facts n. unfold Directives.parse_content_directive. repeat frame_step.
Qed.

Lemma keeps_parse_media_expression (n : nat) :
  keeps frame (Directives.parse_media_expression n).
Proof.
  directive_facts n. unfold Directives.parse_media_expression. repeat frame_step.
Qed.

Lemma keeps_media_expressions (n : nat) (acc : list Directives.Media_Query_Expression) :
  keeps frame (Directives.media_expressions n acc).
Proof.
  pose proof frame_is_a_lexing_invariant as HR. revert acc.
  induction n as [| n IH]; intros acc; simpl; [apply keeps_out_of_fuel |].
  pose proof (keeps_parse_media_expression n). repeat frame_step.
Qed.

Lemma keeps_parse_media_query (n : nat) : keeps frame (Directives.parse_media_query n).
Proof.
  directive_facts n. pose proof (keeps_parse_media_expression n).
  pose proof (keeps_media_expressions n).
  unfold Directives.parse_media_query. repeat frame_step.
Qed.

Lemma keeps_media_queries_loop (n : nat) (queries : list Directives.Media_Query) :
  keeps frame (Directives.media_queries_loop n queries).
Proof.
  pose proof frame_is_a_lexing_invariant as HR. revert queries.
  induction n as [| n IH]; intros queries; simpl; [apply keeps_out_of_fuel |].
  pose proof (keeps_parse_media_query n). repeat frame_step.
Qed.

Lemma keeps_parse_media_queries (n : nat) : keeps frame (Directives.parse_media_queries n).
Proof.
  directive_facts n. pose proof (keeps_parse_media_query n).
  pose proof (keeps_media_queries_loop n).
  unfold Directives.parse_media_queries. repeat frame_step.
Qed.

Lemma keeps_parseMediaRule (n : nat) : keeps frame (Directives.parseMediaRule n).
Proof.
  directive_facts n. pose proof (keeps_parse_media_queries n).
  unfold Directives.parseMediaRule. repeat frame_step.
Qed.

Lemma keeps_parse_at_root_query (n : nat) : keeps frame (Directives.parse_at_root_query n).
Proof.
  directive_facts n. unfold Directives.parse_at_root_query. cbv zeta. repeat frame_step.
Qed.

Lemma keeps_parse_at_root_block (n : nat) : keeps frame (Directives.parse_at_root_block n).
Proof.
  directive_facts n. pose proof (keeps_parse_at_root_query n).
  unfold Directives.parse_at_root_block. repeat frame_step.
Qed.

Lemma keeps_parse_supports_interpolation :
  keeps frame Directives.parse_supports_interpolation.
Proof.
  pose proof frame_is_a_lexing_invariant as HR.
  unfold Directives.parse_supports_interpolation. repeat frame_step.
Qed.

Lemma keeps_parse_supports_declaration (n : nat) :
  keeps frame (Directives.parse_supports_declaration n).
Proof.
  directive_facts n. unfold Directives.parse_supports_declaration. repeat frame_step.
Qed.

Lemma supports_grammar_keeps_frame (n : nat) : supports_grammar_frame n.
Proof.
  pose proof frame_is_a_lexing_invariant as HR.
  pose proof keeps_parse_supports_interpolation as Hinterpolation.
  induction n as [| n IH].
  - unfold supports_grammar_frame.
    repeat match goal with |- _ /\ _ => split end; intros; apply keeps_out_of_fuel.
  - destruct IH as (I1 & I2 & I3 & I4 & I5).
    pose proof (keeps_parse_supports_declaration n) as Hdeclaration.
    unfold supports_grammar_frame.
    repeat match goal with |- _ /\ _ => split end; intros; simpl; repeat frame_step.
Qed.

Lemma keeps_parse_supports_directive (n : nat) :
  keeps frame (Directives.parse_supports_directive n).
Proof.
  directive_facts n. pose proof (supports_grammar_keeps_frame n) as (S1 & _).
  unfold Directives.parse_supports_directive. repeat frame_step.
Qed.

End DirectiveFrame.

Section DirectiveFrameTheorem.
Context {F : Foreign} {L : Lexicon} {X : Externals} {K : Directives.Keywords}.

(** X14.  [@include], [@content], [@media], [@at-root] and [@supports],
    when they return, have left the scope stack, the buffer, its end and
    the indentation as they found them, and of the block stack they have at
    most let the top block grow: [@media] and [@at-root] pop the scope they
    push.  This holds provided the parsers that stay abstract keep the
    frame. *)
Theorem directives_keep_the_frame (n : nat) (p p' : Parser) :
  externals_keep frame ->
  (forall call, Directives.parse_include_directive n p = Ok call p' -> frame p p')
  /\ (forall content, Directives.parse_content_directive n p = Ok content p' -> frame p p')
  /\ (forall rule, Directives.parseMediaRule n p = Ok rule p' -> frame p p')
  /\ (forall at_root, Directives.parse_at_root_block n p = Ok at_root p' -> frame p p')
  /\ (forall query, Directives.parse_supports_directive n p = Ok query p' -> frame p p').
Proof.
  intros HX.
  repeat match goal with |- _ /\ _ => split end; intros node.
  - apply (keeps_parse_include_directive HX).
  - apply (keeps_parse_content_directive HX).
  - apply (keeps_parseMediaRule HX).
  - apply (keeps_parse_at_root_block HX).
  - apply (keeps_parse_supports_directive HX).
Qed.

End DirectiveFrameTheorem.

Section DirectiveNodes.
Context {F : Foreign} {L : Lexicon} {X : Externals} {K : Directives.Keywords}.

(** X15.  A mixin call that [parse_include_directive] returns with block
    parameters has a content block: after [using] both the parameter list
    and the block are mandatory, and without [using] there are no block
    parameters. *)
Theorem include_parameters_come_with_a_block (n : nat) (p p' : Parser)
    (call : Directives.Mixin_Call) :
  Directives.parse_include_directive n p = Ok call p' ->
  parameters_come_with_a_block call.
Proof.
  revert p call p'. change (returns parameters_come_with_a_block
                              (Directives.parse_include_directive n)).
  unfold Directives.parse_include_directive. cbv zeta.
  apply returns_bind. intros _. apply returns_bind. intros s.
  apply returns_bind. intros args. apply returns_bind. intros has_parameters.
  apply returns_bind. intros paren. destruct has_parameters.
  - apply returns_bind. intros _. apply returns_bind. intros params.
    apply returns_bind. intros [|]; repeat returns_step.
    unfold parameters_come_with_a_block. cbn. discriminate.
  - apply returns_bind. intros _.
    apply (returns_bind_with (fun params => params = None)); [now apply returns_ret |].
    intros params ->. repeat returns_step; unfold parameters_come_with_a_block; cbn;
      congruence.
Qed.

Lemma parse_supports_interpolation_complete :
  returns complete_if_any Directives.parse_supports_interpolation.
Proof.
  unfold Directives.parse_supports_interpolation. repeat returns_step; exact I.
Qed.

Lemma parse_supports_declaration_complete (n : nat) :
  returns complete_condition (Directives.parse_supports_declaration n).
Proof.
  unfold Directives.parse_supports_declaration. repeat returns_step; exact I.
Qed.

Lemma supports_grammar_returns_complete (n : nat) : supports_grammar_complete n.
Proof.
  pose proof parse_supports_interpolation_complete as Hinterpolation.
  induction n as [| n IH].
  - unfold supports_grammar_complete.
    repeat match goal with |- _ /\ _ => split end; intros; apply returns_out_of_fuel.
  - destruct IH as (C1 & C0 & N & O1 & O0 & Loop & P1 & P0).
    pose proof (parse_supports_declaration_complete n) as Hdeclaration.
    unfold supports_grammar_complete.
    repeat match goal with |- _ /\ _ => split end; simpl.
    + (* parse_supports_condition, top level *)
      apply returns_bind. intros _.
      apply (returns_bind_with _ _ _ _ N). intros [c |] Hc; [now apply returns_ret |].
      apply (returns_bind_with _ _ _ _ O1). intros [c |] Hc'; [now apply returns_ret |].
      contradiction.
    + (* parse_supports_condition, nested *)
      apply returns_bind. intros _.
      apply (returns_bind_with _ _ _ _ N). intros [c |] Hc; [now apply returns_ret |].
      apply (returns_bind_with _ _ _ _ O0). intros [c |] Hc'; [now apply returns_ret |].
      exact Hinterpolation.
    + (* parse_supports_negation *)
      apply returns_bind. intros [|]; [| now apply returns_ret].
      apply (returns_bind_with _ _ _ _ P1). intros [c |] Hc; [| contradiction].
      now apply returns_ret.
    + (* parse_supports_operator, top level *)
      apply (returns_bind_with _ _ _ _ P1). intros [c |] Hc; [| contradiction].
      apply (returns_bind_with _ _ _ _ (Loop c Hc)). intros r Hr. now apply returns_ret.
    + (* parse_supports_operator, nested *)
      apply (returns_bind_with _ _ _ _ P0). intros [c |] Hc; [| now apply returns_ret].
      apply (returns_bind_with _ _ _ _ (Loop c Hc)). intros r Hr. now apply returns_ret.
    + (* supports_operator_loop *)
      intros cond Hcond. apply returns_bind. intros [op |]; [| now apply returns_ret].
      apply returns_bind. intros _.
      apply (returns_bind_with _ _ _ _ P1). intros [r |] Hr; [| contradiction].
      apply Loop. split; assumption.
    + (* parse_supports_condition_in_parens, parentheses required *)
      apply (returns_bind_with _ _ _ _ Hinterpolation).
      intros [c |] Hc; [now apply returns_ret |].
      apply returns_bind. intros [|]; [| apply returns_css_error].
      apply returns_bind. intros _.
      apply (returns_bind_with _ _ _ _ C0). intros cond Hc'.
      apply (returns_bind_with complete_condition).
      { destruct cond as [c |]; [now apply returns_ret | exact Hdeclaration]. }
      intros c' Hc''. repeat returns_step. exact Hc''.
    + (* parse_supports_condition_in_parens, parentheses optional *)
      apply (returns_bind_with _ _ _ _ Hinterpolation).
      intros [c |] Hc; [now apply returns_ret |].
      apply returns_bind. intros [|]; [| now apply returns_ret].
      apply returns_bind. intros _.
      apply (returns_bind_with _ _ _ _ C0). intros cond Hc'.
      apply (returns_bind_with complete_condition).
      { destruct cond as [c |]; [now apply returns_ret | exact Hdeclaration]. }
      intros c' Hc''. repeat returns_step. exact Hc''.
Qed.

(** X16.  The condition of a [@supports] block that
    [parse_supports_directive] returns is never null, and no operand of a
    [not], [and] or [or] inside it is: where a condition is mandatory and
    missing the parser fails with an error instead. *)
Theorem supports_conditions_are_complete (n : nat) (p p' : Parser)
    (query : Directives.Supports_Block) :
  Directives.parse_supports_directive n p = Ok query p' ->
  complete (Directives.sb_condition query).
Proof.
  revert p query p'.
  change (returns (fun query => complete (Directives.sb_condition query))
                  (Directives.parse_supports_directive n)).
  unfold Directives.parse_supports_directive.
  apply (returns_bind_with _ _ _ _ (proj1 (supports_grammar_returns_complete n))).
  intros cond Hcond. repeat returns_step. exact Hcond.
Qed.

Lemma media_expressions_extend (n : nat) (acc : list Directives.Media_Query_Expression) :
  returns (fun l => acc <> [] -> l <> []) (Directives.media_expressions n acc).
Proof.
  revert acc. induction n as [| n IH]; intros acc; simpl; [apply returns_out_of_fuel |].
  apply returns_bind. intros [|]; [| now apply returns_ret].
  apply returns_bind. intros e. intros p l p' H _.
  apply (IH _ _ _ _ H). now destruct acc.
Qed.

(** X17.  A media query that [parse_media_query] returns names a media type
    or has at least one expression, and the value of the query that
    [parse_at_root_query] returns is a list: a single value is wrapped. *)
Theorem queries_are_well_formed (n : nat) (p p' : Parser) :
  (forall q, Directives.parse_media_query n p = Ok q p' -> media_query_is_not_empty q)
  /\ (forall q, Directives.parse_at_root_query n p = Ok q p' ->
                is_list (Directives.arq_value q) = true).
Proof.
  split.
  - intros q H. revert p q p' H.
    change (returns media_query_is_not_empty (Directives.parse_media_query n)).
    unfold Directives.parse_media_query.
    apply returns_bind. intros _. apply returns_bind. intros modifier.
    apply (returns_bind_with (fun head => fst head <> None \/ snd head <> [])).
    { repeat returns_step; cbn; first [left; discriminate | right; discriminate]. }
    intros [media_type expressions] Hhead. cbn [fst snd] in *.
    apply (returns_bind_with _ _ _ _ (media_expressions_extend n expressions)).
    intros expressions' Hgrow.
    apply (returns_bind_with (fun t => media_type <> None -> t <> None)).
    { repeat returns_step; [discriminate | tauto]. }
    intros media_type' Htype.
    apply (returns_bind_with _ _ _ _ (media_expressions_extend n expressions')).
    intros expressions'' Hgrow'. apply returns_ret.
    unfold media_query_is_not_empty. cbn. tauto.
  - intros q H. revert p q p' H.
    change (returns (fun q => is_list (Directives.arq_value q) = true)
                    (Directives.parse_at_root_query n)).
    unfold Directives.parse_at_root_query. cbv zeta.
    repeat returns_step. cbn [Directives.arq_value].
    match goal with |- context [match ?e with _ => _ end] => destruct e end; reflexivity.
Qed.

End DirectiveNodes.

(* ----------------------------------------------------------------- *)
(** *** The frame on the worked examples *)

(** The externals of the worked examples fail or leave the state as it
    is. *)
Lemma demo_externals_keep (R : Parser -> Parser -> Prop) :
  (forall p, R p p) -> externals_keep (F := Demo.types) (X := Demo.externals) R.
Proof.
  intros Hrefl A c Hc.
  assert (Hvalue : forall B (d : M B), value_call (X := Demo.externals) B d -> keeps R d).
  { intros B d Hd. destruct Hd; intros p a p'; cbn; try discriminate.
    destruct (Demo.contains _ _); [discriminate |]. intros [= _ <-]. apply Hrefl. }
  destruct Hc; try (now apply Hvalue); intros p a p'; cbn; try discriminate;
    intros [= _ <-]; apply Hrefl.
Qed.

(** X12 on the list [1 + 2, (3 4)]. *)
Lemma expression_parsers_leave_the_frame_witness :
  exists e p',
    parse_list (F := Demo.types) (L := Css.lexicon) (X := Demo.externals)
               Demo.fuel false (Demo.parser_on "1 + 2, (3 4)") = Ok e p'
    /\ stack p' = [Root] /\ block_stack p' = [Block_ [] true]
    /\ 0 <= position p' <= 12.
Proof.
  assert (H : exists e p',
             parse_list (F := Demo.types) (L := Css.lexicon) (X := Demo.externals)
                        Demo.fuel false (Demo.parser_on "1 + 2, (3 4)") = Ok e p')
    by (vm_compute; eauto).
  destruct H as (e & p' & H). exists e, p'. split; [exact H |].
  destruct (proj1 (@expression_parsers_leave_the_frame Demo.types Css.lexicon Demo.externals
                     Demo.fuel (Demo.parser_on "1 + 2, (3 4)") p'
                     (externals_keep_values _
                        (demo_externals_keep _
                           (inv_refl _ (both_are_a_lexing_invariant _ _
                                          same_frame_is_a_lexing_invariant
                                          advances_is_a_lexing_invariant)))))
                  false e H)
    as [(Hstack & _ & Hend & _ & Hblocks) [Hfrom Hto]].
  split; [exact Hstack |]. split; [exact Hblocks |].
  split; [lia |]. change (end_ p' = 12) in Hend. rewrite <- Hend. apply Hto.
  vm_compute. lia.
Defined.

(** X13 on [@if $a { $b: 1; } @else { $c: 2; }]. *)
Lemma block_parsers_keep_the_frame_witness :
  exists ok p',
    parse_block_nodes (F := Demo.types) (L := Css.lexicon) (X := Demo.externals)
                      Demo.fuel true
                      (Demo.parser_on "@if $a { $b: 1; } @else { $c: 2; }") = Ok ok p'
    /\ stack p' = [Root].
Proof.
  assert (H : exists ok p',
             parse_block_nodes (F := Demo.types) (L := Css.lexicon) (X := Demo.externals)
                               Demo.fuel true
                               (Demo.parser_on "@if $a { $b: 1; } @else { $c: 2; }")
             = Ok ok p')
    by (vm_compute; eauto).
  destruct H as (ok & p' & H). exists ok, p'. split; [exact H |].
  exact (proj1 (proj1 (@block_parsers_keep_the_frame Demo.types Css.lexicon Demo.externals
                         Demo.fuel true _ p' (demo_externals_keep frame frame_refl))
                      ok H)).
Defined.

(** X14 on [@media screen and (min-width: 100px) { $a: 1; }]. *)
Lemma directives_keep_the_frame_witness :
  exists rule p',
    Directives.parseMediaRule (F := Demo.types) (L := Css.lexicon) (X := Demo.externals)
                              (K := Directives.css_keywords) Demo.fuel
                              (Demo.parser_on " screen and (min-width: 100px) { $a: 1; }")
    = Ok rule p'
    /\ stack p' = [Root].
Proof.
  assert (H : exists rule p',
             Directives.parseMediaRule
               (F := Demo.types) (L := Css.lexicon) (X := Demo.externals)
               (K := Directives.css_keywords) Demo.fuel
               (Demo.parser_on " screen and (min-width: 100px) { $a: 1; }") = Ok rule p')
    by (vm_compute; eauto).
  destruct H as (rule & p' & H). exists rule, p'. split; [exact H |].
  exact (proj1 (proj1 (proj2 (proj2
           (@directives_keep_the_frame Demo.types Css.lexicon Demo.externals
              Directives.css_keywords Demo.fuel _ p'
              (demo_externals_keep frame frame_refl)))) rule H)).
Defined.

(** X15 on [@include foo using ($x) { }]. *)
Lemma include_parameters_come_with_a_block_witness :
  exists call p',
    Directives.parse_include_directive
      (F := Demo.types) (L := Css.lexicon) (X := Demo.externals)
      (K := Directives.css_keywords) Demo.fuel (Demo.parser_on " foo using ($x) { }")
    = Ok call p'
    /\ parameters_come_with_a_block call.
Proof.
  assert (H : exists call p',
             Directives.parse_include_directive
               (F := Demo.types) (L := Css.lexicon) (X := Demo.externals)
               (K := Directives.css_keywords) Demo.fuel
               (Demo.parser_on " foo using ($x) { }") = Ok call p')
    by (vm_compute; eauto).
  destruct H as (call & p' & H). exists call, p'. split; [exact H |].
  exact (@include_parameters_come_with_a_block Demo.types Css.lexicon Demo.externals
           Directives.css_keywords Demo.fuel _ p' call H).
Defined.

(** X16 on [@supports (a: b) and (not (c: d)) { }]. *)
Lemma supports_conditions_are_complete_witness :
  exists query p',
    Directives.parse_supports_directive
      (F := Demo.types) (L := Css.lexicon) (X := Demo.externals) Demo.fuel
      (Demo.parser_on " (a: b) and (not (c: d)) { }") = Ok query p'
    /\ complete (Directives.sb_condition query).
Proof.
  assert (H : exists query p',
             Directives.parse_supports_directive
               (F := Demo.types) (L := Css.lexicon) (X := Demo.externals) Demo.fuel
               (Demo.parser_on " (a: b) and (not (c: d)) { }") = Ok query p')
    by (vm_compute; eauto).
  destruct H as (query & p' & H). exists query, p'. split; [exact H |].
  exact (@supports_conditions_are_complete Demo.types Css.lexicon Demo.externals
           Demo.fuel _ p' query H).
Defined.

(** X17 on the media query [screen and (min-width: 100px)]. *)
Lemma queries_are_well_formed_witness :
  exists q p',
    Directives.parse_media_query
      (F := Demo.types) (L := Css.lexicon) (X := Demo.externals)
      (K := Directives.css_keywords) Demo.fuel
      (Demo.parser_on " screen and (min-width: 100px)") = Ok q p'
    /\ media_query_is_not_empty q.
Proof.
  assert (H : exists q p',
             Directives.parse_media_query
               (F := Demo.types) (L := Css.lexicon) (X := Demo.externals)
               (K := Directives.css_keywords) Demo.fuel
               (Demo.parser_on " screen and (min-width: 100px)") = Ok q p')
    by (vm_compute; eauto).
  destruct H as (q & p' & H). exists q, p'. split; [exact H |].
  exact (proj1 (@queries_are_well_formed Demo.types Css.lexicon Demo.externals
                  Directives.css_keywords Demo.fuel _ p') q H).
Defined.

(* ----------------------------------------------------------------- *)
(** *** The blocks the parser returns *)

Section WellFormedSteps.
Context {F : Foreign} {L : Lexicon} {X : Externals}.

Lemma well_formed_block_forall (elements : list Statement) (root : bool) :
  well_formed_block (Block_ elements root) <-> Forall (well_formed_in root) elements.
Proof.
  cbn [well_formed_block].
  induction elements as [| s l IH]; split; intros H.
  - constructor.
  - exact I.
  - destruct H as [Hs Hl]. constructor; [exact Hs | now apply IH].
  - inversion H as [| ? ? Hs Hl]; subst. split; [exact Hs | now apply IH].
Qed.

Lemma same_blocks_keep_well_formed (p q : Parser) :
  block_stack q = block_stack p -> keeps_well_formed p q.
Proof. intros H roots. unfold well_formed_stack. now rewrite H. Qed.

Lemma keeps_well_formed_is_a_lexing_invariant : lexing_invariant keeps_well_formed.
Proof.
  split.
  - intros p roots H. exact H.
  - intros p q r H1 H2 roots H. exact (H2 roots (H1 roots H)).
  - intros m lazy force p q H. apply lex_at_frame in H.
    apply same_blocks_keep_well_formed. tauto.
  - intros ps p. now apply same_blocks_keep_well_formed.
  - intros n p. now apply same_blocks_keep_well_formed.
  - intros b p. now apply same_blocks_keep_well_formed.
Qed.

Lemma keeps_well_formed_modify (f : Parser -> Parser) :
  (forall p, block_stack (f p) = block_stack p) -> keeps keeps_well_formed (modify f).
Proof.
  intros H p a p'. unfold modify. intros [= _ <-].
  apply same_blocks_keep_well_formed, H.
Qed.

Lemma keeps_well_formed_append (s : Statement) :
  plain s -> keeps keeps_well_formed (append_to_block s).
Proof.
  intros Hs p a p'. unfold append_to_block, modify. intros [= _ <-] roots [Hwf Hroots].
  destruct (block_stack p) as [| [elements root] bs] eqn:E;
    [unfold well_formed_stack; now rewrite E |].
  unfold well_formed_stack. cbn [block_stack set_block_stack block_append].
  split; [| exact Hroots].
  inversion Hwf as [| ? ? Hb Hbs]; subst. constructor; [| exact Hbs].
  apply well_formed_block_forall. apply well_formed_block_forall in Hb.
  apply Forall_app. split; [exact Hb |]. constructor; [apply Hs | constructor].
Qed.

Lemma keeps_well_formed_static_value : keeps keeps_well_formed parse_static_value.
Proof.
  intros p a p'. unfold parse_static_value, bind, get, modify, ret.
  destruct (lex static_value true false p) as [b q | |] eqn:E; try discriminate.
  intros [= _ <-].
  apply (inv_trans _ keeps_well_formed_is_a_lexing_invariant _ q).
  - exact (keeps_lex _ keeps_well_formed_is_a_lexing_invariant _ _ _ _ _ _ E).
  - now apply same_blocks_keep_well_formed.
Qed.

Lemma keeps_well_formed_is_a_statement_invariant :
  externals_keep keeps_well_formed -> statement_invariant keeps_well_formed.
Proof.
  intros HX. split.
  - apply keeps_well_formed_is_a_lexing_invariant.
  - exact HX.
  - intros text important. apply keeps_well_formed_append. intros root. exact I.
  - apply keeps_well_formed_static_value.
Qed.

Lemma keeps_well_formed_stubs (incs : list Include) (c : M unit) :
  keeps keeps_well_formed c ->
  keeps keeps_well_formed
        (fold_left (fun acc inc => acc ;;; append_to_block (Import_Stub inc)) incs c).
Proof.
  revert c. induction incs as [| inc incs IH]; intros c Hc; simpl; [exact Hc |].
  apply IH. apply (keeps_then _ keeps_well_formed_is_a_lexing_invariant); [exact Hc |].
  intros _. apply keeps_well_formed_append. intros root. exact I.
Qed.

Lemma keeps_well_formed_read_bom : keeps keeps_well_formed read_bom.
Proof.
  intros p a p'. unfold read_bom, bind, get, modify.
  destruct (detect_bom p) as [[skip encoding] utf_8].
  destruct (Nat.ltb 0 skip && negb utf_8); [discriminate |].
  intros [= _ <-]. now apply same_blocks_keep_well_formed.
Qed.

(** The rules of [ensures]. *)
Lemma ensures_ret {A : Type} (roots : list bool) (a : A) (Q : A -> Prop) :
  Q a -> ensures roots (ret a) roots Q.
Proof. intros H p a' p' Hp [= <- <-]. now split. Qed.

Lemma ensures_bind {A B : Type} (roots roots1 roots' : list bool) (c : M A)
    (k : A -> M B) (Q1 : A -> Prop) (Q : B -> Prop) :
  ensures roots c roots1 Q1 ->
  (forall a, Q1 a -> ensures roots1 (k a) roots' Q) ->
  ensures roots (bind c k) roots' Q.
Proof.
  intros Hc Hk p b p' Hp. unfold bind.
  destruct (c p) as [a q | |] eqn:E; try discriminate.
  destruct (Hc p a q Hp E) as [Hq Ha]. exact (Hk a Ha q b p' Hq).
Qed.

Lemma ensures_keeps {A : Type} (roots : list bool) (c : M A) :
  keeps keeps_well_formed c -> ensures roots c roots (fun _ => True).
Proof. intros H p a p' Hp E. split; [exact (H p a p' E roots Hp) | exact I]. Qed.

Lemma ensures_keeps_returns {A : Type} (roots : list bool) (c : M A) (Q : A -> Prop) :
  keeps keeps_well_formed c -> returns Q c -> ensures roots c roots Q.
Proof.
  intros H HQ p a p' Hp E. split; [exact (H p a p' E roots Hp) | exact (HQ p a p' E)].
Qed.

Lemma keeps_of_ensures {A : Type} (c : M A) (Q : list bool -> A -> Prop) :
  (forall roots, ensures roots c roots (Q roots)) -> keeps keeps_well_formed c.
Proof. intros H p a p' E roots Hp. exact (proj1 (H roots p a p' Hp E)). Qed.

Lemma ensures_bind_keeps {A B : Type} (roots roots' : list bool) (c : M A)
    (k : A -> M B) (Q : B -> Prop) :
  keeps keeps_well_formed c ->
  (forall a, ensures roots (k a) roots' Q) ->
  ensures roots (bind c k) roots' Q.
Proof.
  intros Hc Hk. apply (ensures_bind _ roots _ _ _ (fun _ => True));
    [now apply ensures_keeps | intros a _; apply Hk].
Qed.

Lemma ensures_fails {A : Type} (roots roots' : list bool) (c : M A) (Q : A -> Prop) :
  (forall p a p', c p <> Ok a p') -> ensures roots c roots' Q.
Proof. intros H p a p' _ E. now apply H in E. Qed.

Lemma ensures_error {A : Type} (roots roots' : list bool) (msg : string) (Q : A -> Prop) :
  ensures roots (error msg) roots' Q.
Proof. apply ensures_fails. discriminate. Qed.

Lemma ensures_after_error {A B : Type} (roots roots' : list bool) (msg : string)
    (k : A -> M B) (Q : B -> Prop) :
  ensures roots (bind (error msg) k) roots' Q.
Proof. apply ensures_fails. discriminate. Qed.

Lemma ensures_out_of_fuel {A : Type} (roots roots' : list bool) (Q : A -> Prop) :
  ensures roots out_of_fuel roots' Q.
Proof. apply ensures_fails. discriminate. Qed.

Lemma ensures_css_error {A : Type} (roots roots' : list bool)
    (msg prefix middle : string) (trim : bool) (Q : A -> Prop) :
  ensures roots (css_error msg prefix middle trim) roots' Q.
Proof. apply ensures_fails. intros p a p'. now rewrite css_error_is_error. Qed.

Lemma back_is_root_top (roots : list bool) (p : Parser) :
  well_formed_stack roots p -> back_is_root p = top_root roots.
Proof.
  intros [_ H]. unfold back_is_root. destruct (block_stack p); cbn in H; now subst.
Qed.

Lemma ensures_get (roots : list bool) :
  ensures roots get roots (fun p => back_is_root p = top_root roots).
Proof.
  intros p a p' Hp. unfold get. intros [= <- <-].
  split; [exact Hp | now apply back_is_root_top].
Qed.

Lemma ensures_push_block (roots : list bool) (b : Block) :
  well_formed_block b ->
  ensures roots (push_block b) (block_is_root b :: roots) (fun _ => True).
Proof.
  intros Hb p a p' [Hwf Hroots]. unfold push_block, modify. intros [= _ <-].
  split; [| exact I]. split; cbn; [now constructor | now rewrite Hroots].
Qed.

Lemma ensures_pop_block (root : bool) (roots : list bool) :
  ensures (root :: roots) pop_block roots
          (fun b => well_formed_block b /\ block_is_root b = root).
Proof.
  intros p a p' [Hwf Hroots]. unfold pop_block.
  destruct (block_stack p) as [| b bs]; [discriminate |].
  intros [= <- <-]. cbn in Hroots. injection Hroots as Hroot Hroots.
  inversion Hwf as [| ? ? Hb Hbs]; subst.
  repeat split; assumption.
Qed.

Lemma ensures_append (roots : list bool) (s : Statement) :
  well_formed_in (top_root roots) s ->
  ensures roots (append_to_block s) roots (fun _ => True).
Proof.
  intros Hs p a p' [Hwf Hroots]. unfold append_to_block, modify. intros [= _ <-].
  split; [| exact I].
  destruct (block_stack p) as [| [elements root] bs] eqn:E;
    [unfold well_formed_stack; now rewrite E |].
  unfold well_formed_stack. cbn [block_stack set_block_stack block_append].
  split; [| exact Hroots].
  cbn in Hroots. subst roots. cbn [top_root hd] in Hs.
  inversion Hwf as [| ? ? Hb Hbs]; subst. constructor; [| exact Hbs].
  apply well_formed_block_forall. apply well_formed_block_forall in Hb.
  apply Forall_app. split; [exact Hb |]. constructor; [exact Hs | constructor].
Qed.

Lemma ensures_NESTING_GUARD {A : Type} (roots roots' : list bool) (body : M A)
    (Q : A -> Prop) :
  ensures roots body roots' Q -> ensures roots (NESTING_GUARD body) roots' Q.
Proof.
  intros H p a p' Hp. unfold NESTING_GUARD. cbv zeta.
  destruct (Nat.ltb MAX_NESTING _); [discriminate |].
  destruct (body _) as [a0 p2 | |] eqn:E; try discriminate.
  intros [= <- <-].
  assert (Hp1 : well_formed_stack roots (set_nestings (S (nestings p)) p)) by exact Hp.
  destruct (H _ _ _ Hp1 E) as [Hp2 Ha]. split; [exact Hp2 | exact Ha].
Qed.

(** A declaration with its block. *)
Lemma declaration_with_block (tabs : nat) (b : option Block) (d : Statement) :
  plain d ->
  match b with Some b => well_formed_block b | None => True end ->
  plain (set_declaration_block tabs b d).
Proof.
  intros Hd Hb root. destruct d; try apply Hd. cbn.
  destruct b as [b |]; [exact Hb | exact I].
Qed.

End WellFormedSteps.

(** One step of the proof that a run returns well-formed nodes, by the
    shape of the run. *)
Ltac ensures_step :=
  lazymatch goal with
  | |- ensures _ (ret _) _ _ => apply ensures_ret
  | |- ensures _ (error _) _ _ => apply ensures_error
  | |- ensures _ out_of_fuel _ _ => apply ensures_out_of_fuel
  | |- ensures _ (css_error _ _ _ _) _ _ => apply ensures_css_error
  | |- ensures _ expected_expression _ _ => apply ensures_css_error
  | |- ensures _ (css_error_expected _) _ _ => apply ensures_css_error
  | |- ensures _ (NESTING_GUARD _) _ _ => apply ensures_NESTING_GUARD
  | |- ensures _ pop_block _ _ => apply ensures_pop_block
  | |- ensures _ (bind (push_block _) _) _ _ =>
      eapply ensures_bind;
      [apply ensures_push_block; first [exact I | assumption] | intros _ _]
  | |- ensures _ (bind pop_block _) _ _ =>
      eapply ensures_bind; [apply ensures_pop_block | intros ? [? ?]]
  | |- ensures _ (bind (append_to_block _) _) _ _ =>
      eapply ensures_bind; [apply ensures_append | intros _ _]
  | |- ensures _ (bind get _) _ _ =>
      eapply ensures_bind; [apply ensures_get | intros ? ?]
  | |- ensures _ (bind (fold_left _ _ _) _) _ _ =>
      apply ensures_bind_keeps;
      [apply keeps_well_formed_stubs; apply keeps_return; assumption | intro]
  | |- ensures _ (bind (error _) _) _ _ => apply ensures_after_error
  | |- ensures _ (bind (match ?x with _ => _ end) _) _ _ => destruct x eqn:?
  | |- ensures _ (bind (if ?c then _ else _) _) _ _ => destruct c eqn:?
  | |- ensures _ (bind _ _) _ _ =>
      first [ match goal with
              | H : _ |- _ =>
                  eapply ensures_bind;
                  [solve [apply H | apply H; constructor] | intros ? ?]
              end
            | apply ensures_bind_keeps; [solve [repeat keeps_step] | intro] ]
  | |- ensures _ (if ?c then _ else _) _ _ => destruct c eqn:?
  | |- ensures _ (match ?x with _ => _ end) _ _ => destruct x eqn:?
  | |- ensures _ _ _ _ => match goal with H : _ |- _ => solve [apply H] end
  end.

(** The nodes that are built from well-formed parts are well formed. *)
Ltac well_formed_node :=
  cbv beta in *;
  repeat match goal with H : _ /\ _ |- _ => destruct H end;
  try exact I;
  try assumption;
  try (match goal with H : plain _ |- _ => apply H end);
  try (apply declaration_with_block; [assumption | cbn; first [assumption | exact I]]);
  try (cbn; repeat split; first [assumption | congruence | discriminate]).

Section WellFormedGrammar.
Context {F : Foreign} {L : Lexicon} {X : Externals}.
Hypothesis HW : externals_are_well_formed.

Lemma returns_LOCAL_FLAG_allow_parent {A : Type} (P : A -> Prop) (b : bool) (body : M A) :
  returns P body -> returns P (LOCAL_FLAG_allow_parent b body).
Proof.
  intros H p a p'. unfold LOCAL_FLAG_allow_parent.
  destruct (body _) as [a0 p2 | |] eqn:E; try discriminate.
  intros [= <- _]. exact (H _ _ _ E).
Qed.

Lemma plain_statements (n : nat) :
  returns plain (parse_assignment n) /\ returns plain (parse_error n)
  /\ returns plain (parse_debug n) /\ returns plain (parse_warning n)
  /\ returns plain (parse_return_directive n) /\ returns plain parse_extend
  /\ returns plain (parse_declaration n).
Proof.
  unfold parse_assignment, parse_error, parse_debug, parse_warning,
    parse_return_directive, parse_extend, parse_declaration.
  cbv zeta.
  repeat match goal with |- _ /\ _ => split end; repeat returns_step;
    try apply returns_LOCAL_FLAG_allow_parent; repeat returns_step;
    intros root; exact I.
Qed.

(** The simple statements, with the block stack. *)
Lemma ensures_plain_statements (n : nat) :
  (forall roots, ensures roots (parse_assignment n) roots plain)
  /\ (forall roots, ensures roots (parse_error n) roots plain)
  /\ (forall roots, ensures roots (parse_debug n) roots plain)
  /\ (forall roots, ensures roots (parse_warning n) roots plain)
  /\ (forall roots, ensures roots (parse_return_directive n) roots plain)
  /\ (forall roots, ensures roots parse_extend roots plain)
  /\ (forall roots, ensures roots (parse_declaration n) roots plain).
Proof.
  pose proof (keeps_well_formed_is_a_statement_invariant (proj1 HW)) as HS.
  destruct (plain_statements n) as (P1 & P2 & P3 & P4 & P5 & P6 & P7).
  destruct (keeps_parse_messages _ HS n) as (K4 & K2 & K3 & K5).
  repeat match goal with |- _ /\ _ => split end; intros roots;
    apply ensures_keeps_returns; try assumption.
  - apply (keeps_parse_assignment _ HS).
  - apply (keeps_parse_extend _ HS).
  - apply (keeps_parse_declaration _ HS).
Qed.

Lemma block_grammar_is_well_formed (n : nat) : block_grammar_well_formed n.
Proof.
  destruct HW as (HX & Hstatements & Hheaders).
  pose proof (keeps_well_formed_is_a_statement_invariant HX) as HS.
  pose proof keeps_well_formed_is_a_lexing_invariant as HR.
  induction n as [| n IH].
  - unfold block_grammar_well_formed.
    repeat match goal with |- _ /\ _ => split end; intros; apply ensures_out_of_fuel.
  - destruct IH as (I1 & I2 & I3 & I4 & I5 & I6 & I7 & I8 & I9 & I10).
    pose proof (expression_grammar_keeps _ HR (externals_keep_values _ HX) n)
      as (E1 & _ & _ & E4 & _ & _ & _ & _ & _ & _ & _ & E12 & _).
    pose proof (keeps_parse_block_comments _ HS) as Hcomments.
    pose proof (keeps_parse_charset_directive _ HS) as Hcharset.
    pose proof (keeps_lex_variable _ HS) as Hvariable.
    pose proof (keeps_parse_parameters _ HS n) as Hparameters.
    pose proof (keeps_parse_import _ HS n) as Himport.
    pose proof (ensures_plain_statements n)
      as (Hassignment & Herror & Hdebug & Hwarning & Hreturn & Hextend & Hdeclaration).
    assert (Hpush : forall s, keeps keeps_well_formed (push_scope s))
      by (intros s; now apply keeps_well_formed_modify).
    assert (Hpop : keeps keeps_well_formed pop_scope)
      by now apply keeps_well_formed_modify.
    assert (Hindent : keeps keeps_well_formed
                        (modify (fun p => set_indentation (S (indentation p)) p)))
      by now apply keeps_well_formed_modify.
    assert (Hunindent : keeps keeps_well_formed
                          (modify (fun p => set_indentation (indentation p - 1) p)))
      by now apply keeps_well_formed_modify.
    unfold block_grammar_well_formed.
    repeat match goal with |- _ /\ _ => split end; intros; simpl; cbv zeta.
    all: repeat ensures_step.
    all: try solve [well_formed_node].
    + (* parse_definition: the name of a function is checked *)
      cbv beta in *. repeat match goal with H : _ /\ _ |- _ => destruct H end.
      cbn. split; [intros _; unfold reserved_function_name; assumption | assumption].
    + (* parse_if_directive: the alternative *)
      apply (ensures_bind _ roots _ _ _
               (fun alternative =>
                  match alternative with
                  | None => True
                  | Some a =>
                      (block_is_root a = top_root roots /\ well_formed_block a)
                      \/ match a with
                         | Block_ [nested] _ => well_formed_in (top_root roots) nested
                         | _ => False
                         end
                  end)).
      * repeat ensures_step; cbv beta in *;
          repeat match goal with H : _ /\ _ |- _ => destruct H end.
        -- right. assumption.
        -- left. split; [congruence | assumption].
        -- exact I.
      * intros alternative Halternative. repeat ensures_step.
        cbv beta in *. repeat match goal with H : _ /\ _ |- _ => destruct H end.
        cbn. repeat split; first [assumption | congruence].
    + (* parse_each_directive: the variables *)
      match goal with
      | |- ensures _ (bind (?each n ?first) _) _ _ =>
          assert (Heach : forall k vars, vars <> [] ->
                                         ensures roots (each k vars) roots
                                                 (fun vars' => vars' <> []))
      end.
      { induction k as [| k IHk]; intros vars Hvars; repeat ensures_step;
          [| assumption].
        apply IHk. now destruct vars. }
      eapply ensures_bind; [apply Heach; discriminate |].
      intros vars Hvars. repeat ensures_step. well_formed_node.
Qed.

Lemma parse_is_well_formed (n : nat) (roots : list bool) :
  ensures roots (parse n) roots well_formed_block.
Proof.
  destruct (block_grammar_is_well_formed n) as (I1 & _).
  destruct HW as (HX & Hstatements & Hheaders).
  pose proof keeps_well_formed_is_a_lexing_invariant as HR.
  pose proof keeps_well_formed_read_bom as Hbom.
  unfold parse. cbv zeta. do 3 ensures_step; [apply ensures_fails; discriminate |].
  apply (ensures_bind _ roots _ _ _ well_formed_block).
  - ensures_step; [apply Hheaders; exact I | apply ensures_ret; exact I].
  - intros root Hroot. repeat ensures_step. well_formed_node.
Qed.

End WellFormedGrammar.

Section WellFormedBlocks.
Context {F : Foreign} {L : Lexicon} {X : Externals}.

(** X19.  The blocks the block grammar builds are well formed.  When the
    blocks on the block stack are, the block that [parse_block] or [parse]
    returns is, and [parse_block_nodes] leaves the block stack well formed:
    in every block, and in the blocks nested in it, the blocks of [@if],
    [@for], [@each] and [@while] and the flag of a rule set have the
    [is_root] flag of the block they stand in, [@each] has at least one
    variable, the predicate of [@while] is no empty list, no function is
    called [and], [or] or [not], and an import statement has a
    [url(...)].  This holds provided the abstract parsers keep the block
    stack well formed and return well-formed statements. *)
Theorem blocks_are_well_formed (n : nat) (is_root : bool) (p p' : Parser) :
  externals_are_well_formed ->
  Forall well_formed_block (block_stack p) ->
  (forall b, parse_block n is_root p = Ok b p' ->
             well_formed_block b /\ block_is_root b = is_root)
  /\ (forall ok, parse_block_nodes n is_root p = Ok ok p' ->
                 Forall well_formed_block (block_stack p'))
  /\ (forall root, parse n p = Ok root p' -> well_formed_block root).
Proof.
  intros HW Hp.
  assert (Hstack : well_formed_stack (map block_is_root (block_stack p)) p)
    by (split; [exact Hp | reflexivity]).
  destruct (block_grammar_is_well_formed HW n) as (I1 & _ & _ & I4 & _).
  split; [| split].
  - intros b H. exact (proj2 (I4 _ is_root p b p' Hstack H)).
  - intros ok H. exact (proj1 (proj1 (I1 _ is_root p ok p' Hstack H))).
  - intros root H. exact (proj2 (parse_is_well_formed HW n _ p root p' Hstack H)).
Qed.

End WellFormedBlocks.

(** The externals of the worked examples build no statement. *)
Lemma demo_externals_are_well_formed :
  externals_are_well_formed (F := Demo.types) (X := Demo.externals).
Proof.
  split; [| split].
  - apply demo_externals_keep. intros p roots H. exact H.
  - intros roots c Hc. apply ensures_fails. destruct Hc; discriminate.
  - intros roots b Hb. now apply ensures_ret.
Qed.

(** X19 on [@each $x in 1 2 { @while $x { $a: $x; } }] and a function. *)
Lemma blocks_are_well_formed_witness :
  exists root p',
    parse (F := Demo.types) (L := Css.lexicon) (X := Demo.externals) Demo.fuel
          (Demo.parser_on
             "@each $x in 1 2 { @while $x { $a: $x; } } @function f($y) { @return $y; }")
    = Ok root p'
    /\ well_formed_block root.
Proof.
  assert (H : exists root p',
             parse (F := Demo.types) (L := Css.lexicon) (X := Demo.externals) Demo.fuel
                   (Demo.parser_on
                      "@each $x in 1 2 { @while $x { $a: $x; } } @function f($y) { @return $y; }")
             = Ok root p')
    by (vm_compute; eauto).
  destruct H as (root & p' & H). exists root, p'. split; [exact H |].
  refine (proj2 (proj2 (@blocks_are_well_formed Demo.types Css.lexicon Demo.externals
                          Demo.fuel true _ p' demo_externals_are_well_formed _)) root H).
  repeat constructor.
Defined.

(* ----------------------------------------------------------------- *)
(** *** Folding associates to the left *)

Section FoldShape.
Context {F : Foreign} {L : Lexicon} {X : Externals}.

Lemma set_delayed_twice (e : Expression) :
  set_delayed false (set_delayed false e) = set_delayed false e.
Proof.
  induction e; cbn; try reflexivity. now rewrite IHe1, IHe2.
Qed.

Lemma set_delayed_undelay_nested (e : Expression) :
  set_delayed false (undelay_nested e) = set_delayed false e.
Proof.
  destruct e; try reflexivity. unfold undelay_nested.
  destruct (is_binary e1), (is_binary e2); rewrite ?set_delayed_twice; reflexivity.
Qed.

Lemma skipn_cons_nth {A : Type} (l : list A) (i : nat) (d : A) :
  i < List.length l -> skipn i l = nth i l d :: skipn (S i) l.
Proof.
  revert i. induction l as [| x l IH]; intros i Hi; cbn in Hi; [lia |].
  destruct i as [| i]; [reflexivity |]. cbn [skipn nth]. apply IH. lia.
Qed.

(** The loop of [fold_operands] over operands that are no interpolated
    schemas builds the left chain, up to the delayed flags. *)
Lemma fold_operands_loop_chain
    (self : Expression -> list Expression -> list Operand -> nat -> Expression)
    (operands : list Expression) (ops : list Operand) (n : nat) :
  forall (base base' : Expression) (i : nat),
    List.length ops = List.length operands ->
    i + n = List.length operands ->
    forallb (fun e => negb (schema_with_interpolants e)) operands = true ->
    set_delayed false base = set_delayed false base' ->
    set_delayed false (fold_operands_loop self n base operands ops i)
    = set_delayed false
        (fold_left (fun b xo => Binary_Expression no_flags (snd xo) b (fst xo))
                   (skipn i (combine operands ops)) base').
Proof.
  induction n as [| n IH]; intros base base' i Hops Hlen Hplain Hbase.
  - cbn [fold_operands_loop]. rewrite skipn_all2; [| rewrite length_combine; lia].
    cbn. now rewrite set_delayed_undelay_nested.
  - cbn [fold_operands_loop]. cbv zeta.
    assert (Hlt : i < List.length operands) by lia.
    assert (Hi : schema_with_interpolants (nth i operands base) = false).
    { rewrite forallb_forall in Hplain.
      specialize (Hplain (nth i operands base) (nth_In operands base Hlt)).
      now apply negb_true_iff in Hplain. }
    rewrite Hi.
    rewrite (skipn_cons_nth _ i (base, default_operand));
      [| rewrite length_combine; lia].
    rewrite (combine_nth operands ops i base default_operand (eq_sym Hops)).
    cbn [fold_left fst snd]. replace (i + 1) with (S i) by lia.
    apply IH; try assumption; try lia.
    destruct (Sass_OP_eqb _ DIV && is_delayed base && is_delayed (nth i operands base));
      cbn; now rewrite Hbase.
Qed.

(** X18.  Operators that are folded together associate to the left: for a
    base and operands that are no interpolated string schemas,
    [fold_operands] builds the chain [((base o1 x1) o2 x2) ...] with the
    operands in their order, each with its own operator; only delayed flags
    differ. *)
Theorem folding_associates_to_the_left (base : Expression) (operands : list Expression)
    (ops : list Operand) :
  List.length ops = List.length operands ->
  schema_with_interpolants base = false ->
  forallb (fun e => negb (schema_with_interpolants e)) operands = true ->
  set_delayed false (fold_operands base operands ops)
  = set_delayed false (left_chain base operands ops).
Proof.
  intros Hops Hbase Hplain.
  unfold fold_operands, left_chain. cbn [fold_operands_from]. rewrite Hbase. cbn [andb].
  rewrite Nat.sub_0_r.
  now apply (fold_operands_loop_chain _ operands ops (List.length operands) base base 0).
Qed.

End FoldShape.

(** X18 at the operands of [16px/2*3]: the chain is [(16px / 2) * 3]. *)
Lemma folding_associates_to_the_left_witness :
  set_delayed false
    (fold_operands (F := Demo.types)
       (Number (F := Demo.types) lexed_flags "16"%string "px" true)
       [Number (F := Demo.types) lexed_flags "2"%string "" true;
        Number (F := Demo.types) lexed_flags "3"%string "" true]
       [mkOperand DIV false false; mkOperand MUL false false])
  = Binary_Expression no_flags (mkOperand MUL false false)
      (Binary_Expression no_flags (mkOperand DIV false false)
         (Number (F := Demo.types) no_flags "16"%string "px" true)
         (Number (F := Demo.types) no_flags "2"%string "" true))
      (Number (F := Demo.types) no_flags "3"%string "" true).
Proof.
  rewrite (@folding_associates_to_the_left Demo.types); reflexivity.
Defined.
